(** * An explicit free-list heap allocator (explicit.c), embedded and verified

    The C program manages one contiguous segment of raw bytes.  Every block
    starts with an 8-byte header (a 32-bit payload size and a 32-bit
    allocated flag); a free block stores two 8-byte links (previous, next)
    at the start of its payload.  The embedding keeps that layout: memory is
    a byte-addressed store, headers and links are read and written through
    little-endian loads and stores of 4 and 8 bytes, and the C globals are
    the fields of a state record that every function threads through.

    C integer types keep their width: [unsigned int] is reduced modulo 2^32
    and [size_t] modulo 2^64 wherever the C code computes in them.  Pointers
    are mathematical integers (pointer arithmetic does not wrap); the null
    pointer is 0.  Every loop of the program takes a fuel argument that
    bounds the number of iterations; [None] means that the fuel ran out.  The
    debugging functions ([validate_heap], [dump_heap]) only read the state;
    what they print is returned as the list of their [printf] calls, in
    order. *)

From Stdlib Require Import ZArith List Lia Bool.
From Stdlib Require Import Strings.Byte.
From Stdlib Require Strings.String.
Import String.StringSyntax.
Import ListNotations.
Open Scope Z_scope.
Bind Scope string_scope with String.string.

(** ** Byte-addressed memory *)

Definition memory := Z -> byte.

Definition byte_of_Z (v : Z) : byte :=
  match Byte.of_N (Z.to_N (v mod 256)) with
  | Some b => b
  | None => x00
  end.

Definition Z_of_byte (b : byte) : Z := Z.of_N (Byte.to_N b).

(** Little-endian load of [n] bytes at address [a]. *)
Fixpoint load (n : nat) (m : memory) (a : Z) : Z :=
  match n with
  | O => 0
  | S k => Z_of_byte (m a) + 256 * load k m (a + 1)
  end.

(** Little-endian store of the low [n] bytes of [v] at address [a]. *)
Fixpoint store (n : nat) (m : memory) (a v : Z) : memory :=
  match n with
  | O => m
  | S k => store k (fun x => if x =? a then byte_of_Z v else m x) (a + 1) (v / 256)
  end.

(** [memcpy(dst, src, n)] on regions that do not overlap. *)
Definition copy_bytes (m : memory) (dst src n : Z) : memory :=
  fun x => if (dst <=? x) && (x <? dst + n) then m (src + (x - dst)) else m x.

Definition u32 (x : Z) : Z := x mod 2 ^ 32.
Definition u64 (x : Z) : Z := x mod 2 ^ 64.

(** ** Program state: the heap bytes and the four globals *)

Record heap := mkHeap {
  mem : memory;
  segment_start : Z;
  segment_end : Z;
  free_list_start : Z;
  segment_size : Z
}.

Definition with_mem (m : memory) (st : heap) : heap :=
  mkHeap m (segment_start st) (segment_end st) (free_list_start st) (segment_size st).

Definition set_free_list_start (p : Z) (st : heap) : heap :=
  mkHeap (mem st) (segment_start st) (segment_end st) p (segment_size st).

Definition HEADER_SIZE : Z := 8.
Definition MIN_PAYLOAD_SIZE : Z := 16.
Definition MIN_BLOCK_SIZE : Z := 24.
Definition NULL : Z := 0.

(** [struct Header { unsigned int payload; int allocated; }] at a block start. *)
Definition Header_payload (st : heap) (block : Z) : Z := load 4 (mem st) block.
Definition Header_allocated (st : heap) (block : Z) : Z := load 4 (mem st) (block + 4).
Definition set_Header_payload (block v : Z) (st : heap) : heap :=
  with_mem (store 4 (mem st) block v) st.
Definition set_Header_allocated (block v : Z) (st : heap) : heap :=
  with_mem (store 4 (mem st) (block + 4) v) st.

(** [struct Pointers { void *previous; void *next; }] at a payload start. *)
Definition Pointers_previous (st : heap) (p : Z) : Z := load 8 (mem st) p.
Definition Pointers_next (st : heap) (p : Z) : Z := load 8 (mem st) (p + 8).
Definition set_Pointers_previous (p v : Z) (st : heap) : heap :=
  with_mem (store 8 (mem st) p v) st.
Definition set_Pointers_next (p v : Z) (st : heap) : heap :=
  with_mem (store 8 (mem st) (p + 8) v) st.

(** ** Utilities *)

(** [(size + (mult - 1)) & ~(mult - 1)] in [size_t] arithmetic. *)
Definition align (size mult : Z) : Z :=
  Z.land (u64 (size + u64 (mult - 1))) (u64 (Z.lnot (u64 (mult - 1)))).

Definition get_payload_ptr (block : Z) : Z := block + HEADER_SIZE.

(** ** Free block list *)

Definition add_block (block : Z) (st : heap) : heap :=
  let st1 :=
    if free_list_start st =? NULL then
      set_Pointers_next (get_payload_ptr block) NULL
        (set_Pointers_previous (get_payload_ptr block) NULL st)
    else
      set_Pointers_previous (get_payload_ptr block) NULL
        (set_Pointers_next (get_payload_ptr block) (free_list_start st)
           (set_Pointers_previous (get_payload_ptr (free_list_start st)) block st)) in
  set_free_list_start block (set_Header_allocated block 0 st1).

Definition remove_block (block : Z) (st : heap) : heap :=
  let previous := Pointers_previous st (get_payload_ptr block) in
  let next := Pointers_next st (get_payload_ptr block) in
  let st1 :=
    if (previous =? NULL) && (next =? NULL) then
      set_free_list_start NULL st
    else if (previous =? NULL) && negb (next =? NULL) then
      set_free_list_start next (set_Pointers_previous (get_payload_ptr next) NULL st)
    else if negb (previous =? NULL) && (next =? NULL) then
      set_Pointers_next (get_payload_ptr previous) NULL st
    else
      set_Pointers_previous (get_payload_ptr next) previous
        (set_Pointers_next (get_payload_ptr previous) next st) in
  set_Header_allocated block 1 st1.

(** ** Helpers *)

Definition partition (block payload_space payload : Z) (st : heap) : heap :=
  let next_block := block + payload + HEADER_SIZE in
  let next_payload := u32 (u64 (u64 (payload_space - payload) - HEADER_SIZE)) in
  let st1 := set_Header_payload next_block next_payload st in
  let st2 := set_Header_allocated next_block 0 st1 in
  let st3 := add_block next_block st2 in
  set_Header_payload block (u32 payload) st3.

(** The [while] loop of [find_fit]; one unit of fuel per visited free block. *)
Fixpoint find_fit_loop (fuel : nat) (aligned_requested_size : Z) (st : heap)
    (curr_block : Z) : option (Z * heap) :=
  if curr_block =? NULL then Some (NULL, st)
  else
    match fuel with
    | O => None
    | S k =>
      let payload_space := Header_payload st curr_block in
      if aligned_requested_size <=? payload_space then
        let st1 :=
          if u64 (aligned_requested_size + MIN_BLOCK_SIZE) <=? payload_space then
            partition curr_block payload_space aligned_requested_size st
          else st in
        Some (curr_block, remove_block curr_block st1)
      else
        find_fit_loop k aligned_requested_size st
          (Pointers_next st (get_payload_ptr curr_block))
    end.

Definition find_fit (fuel : nat) (aligned_requested_size : Z) (st : heap)
    : option (Z * heap) :=
  find_fit_loop fuel aligned_requested_size st (free_list_start st).

(** The [while] loop of [coalesce_right]; one unit of fuel per absorbed block. *)
Fixpoint coalesce_loop (fuel : nat) (block : Z) (st : heap) (curr_block : Z)
    : option heap :=
  if (curr_block <? segment_end st) && (Header_allocated st curr_block =? 0) then
    match fuel with
    | O => None
    | S k =>
      let st1 :=
        set_Header_payload block
          (u32 (Header_payload st block + u32 (Header_payload st curr_block + HEADER_SIZE)))
          st in
      let st2 := remove_block curr_block st1 in
      coalesce_loop k block st2 (curr_block + Header_payload st2 curr_block + HEADER_SIZE)
    end
  else Some st.

Definition coalesce_right (fuel : nat) (block : Z) (st : heap) : option heap :=
  if block =? NULL then Some st
  else coalesce_loop fuel block st (block + Header_payload st block + HEADER_SIZE).

(** ** Main heap functions *)

Definition myinit (heap_start heap_size : Z) (st : heap) : bool * heap :=
  if heap_size <=? HEADER_SIZE then (false, st)
  else
    let st1 := mkHeap (mem st) heap_start (heap_start + heap_size) heap_start heap_size in
    let payload := u32 (u64 (heap_size - HEADER_SIZE)) in
    let st2 := set_Header_payload (segment_start st1) payload st1 in
    let st3 := set_Header_allocated (segment_start st2) 0 st2 in
    let payload_ptr := get_payload_ptr (segment_start st3) in
    (true, set_Pointers_next payload_ptr NULL (set_Pointers_previous payload_ptr NULL st3)).

Section Allocator.

(** [allocator.h] is not part of the sources: its two constants are
    parameters of the development. *)
Variable ALIGNMENT : Z.
Variable MAX_REQUEST_SIZE : Z.

Definition mymalloc (fuel : nat) (requested_size : Z) (st : heap) : option (Z * heap) :=
  if (MAX_REQUEST_SIZE <? requested_size) || (requested_size =? 0) then Some (NULL, st)
  else
    let aligned_requested_size := align requested_size ALIGNMENT in
    let aligned_requested_size :=
      if aligned_requested_size <? MIN_PAYLOAD_SIZE then MIN_PAYLOAD_SIZE
      else aligned_requested_size in
    match find_fit fuel aligned_requested_size st with
    | None => None
    | Some (block, st') =>
      if negb (block =? NULL) then Some (get_payload_ptr block, st')
      else Some (NULL, st')
    end.

Definition myfree (fuel : nat) (ptr : Z) (st : heap) : option heap :=
  if negb (ptr =? NULL) then
    let block_ptr := ptr - HEADER_SIZE in
    match coalesce_right fuel block_ptr st with
    | None => None
    | Some st1 => Some (set_Header_allocated block_ptr 0 (add_block block_ptr st1))
    end
  else Some st.

Definition myrealloc (fuel : nat) (old_ptr new_size : Z) (st : heap) : option (Z * heap) :=
  if (old_ptr =? NULL) || (new_size =? 0) then mymalloc fuel new_size st
  else
    let old_block_ptr := old_ptr - HEADER_SIZE in
    let old_payload_size := Header_payload st old_block_ptr in
    let new_aligned_size := align new_size ALIGNMENT in
    let new_aligned_size :=
      if new_aligned_size <? MIN_PAYLOAD_SIZE then MIN_PAYLOAD_SIZE else new_aligned_size in
    let min_split := u64 (new_aligned_size + MIN_BLOCK_SIZE) in
    if old_payload_size =? new_aligned_size then Some (old_ptr, st)
    else if (new_aligned_size <? old_payload_size) && (old_payload_size <? min_split) then
      Some (old_ptr, st)
    else if (new_aligned_size <? old_payload_size) && (min_split <=? old_payload_size) then
      Some (old_ptr, partition old_block_ptr old_payload_size new_aligned_size st)
    else if old_payload_size <? new_aligned_size then
      match coalesce_right fuel old_block_ptr st with
      | None => None
      | Some st1 =>
        let new_payload_size := Header_payload st1 old_block_ptr in
        if new_aligned_size <=? new_payload_size then
          let st2 :=
            if min_split <=? new_payload_size then
              partition old_block_ptr (Header_payload st1 old_block_ptr) new_aligned_size st1
            else st1 in
          Some (old_ptr, st2)
        else
          match mymalloc fuel new_size st1 with
          | None => None
          | Some (realloc_block, st2) =>
            if negb (realloc_block =? NULL) then
              let st3 := with_mem (copy_bytes (mem st2) realloc_block old_ptr old_payload_size) st2 in
              match myfree fuel old_ptr st3 with
              | None => None
              | Some st4 => Some (realloc_block, st4)
              end
            else Some (NULL, st2)
          end
      end
    else Some (NULL, st).

(** ** Debugging functions *)

(** A call of [printf]: the format string as the source spells it, and the
    values of the arguments that follow it. *)
Inductive output := Printf (format : String.string) (args : list Z).

(** The value of a 32-bit pattern read as an [int]. *)
Definition int_of_u32 (x : Z) : Z := if x <? 2 ^ 31 then x else x - 2 ^ 32.


(** The checks of [validate_heap], the statements behind that [return]; they
    run once it is commented out, as the source proposes.  The inner loop
    counts in an [int] how often [curr_block] is met on the free list. *)
Fixpoint count_in_free_list (fuel : nat) (st : heap) (curr_block curr_free found : Z)
    : option Z :=
  if curr_free =? NULL then Some found
  else
    match fuel with
    | O => None
    | S k =>
      let found :=
        if curr_free =? curr_block then int_of_u32 (u32 (found + 1)) else found in
      count_in_free_list k st curr_block
        (Pointers_next st (get_payload_ptr curr_free)) found
    end.

(** The outer loop and the final comparison; [total_bytes] is a [size_t], and
    [payload + HEADER_SIZE] is computed in [unsigned int] before it is added.
    [fuel] bounds the blocks visited, [list_fuel] each run of the inner loop. *)
Fixpoint validate_heap_loop (fuel list_fuel : nat) (st : heap)
    (curr_block total_bytes : Z) : option (bool * list output) :=
  if curr_block <? segment_end st then
    match fuel with
    | O => None
    | S k =>
      let payload := Header_payload st curr_block in
      let allocated := Header_allocated st curr_block in
      let total_bytes := u64 (total_bytes + u32 (payload + HEADER_SIZE)) in
      match
        (if allocated =? 0
         then count_in_free_list list_fuel st curr_block (free_list_start st) 0
         else Some 0)
      with
      | None => None
      | Some found =>
        if (allocated =? 0) && (found =? 0) then
          Some (false,
                [Printf "Allocation status incorrect or not added properly to free list: %p\n"
                        [curr_block]])
        else if (allocated =? 0) && (1 <? found) then
          Some (false, [Printf "In list multiple times: %p\n" [curr_block]])
        else
          let out :=
            if (payload <? 8) || (segment_size st <? payload)
            then [Printf "Block payload size incorrect: %p\n" [curr_block]]
            else [] in
          match validate_heap_loop k list_fuel st
                  (curr_block + payload + HEADER_SIZE) total_bytes with
          | None => None
          | Some (ok, out') => Some (ok, out ++ out')
          end
      end
    end
  else if segment_size st <? total_bytes then
    Some (false,
          [Printf "Blocks have more collective space than segment\n" [];
           Printf "Allocated: %zu\n" [total_bytes];
           Printf "Segment size: %zu" [segment_size st]])
  else Some (true, []).

Definition validate_heap_checks (fuel : nat) (st : heap) : option (bool * list output) :=
  validate_heap_loop fuel fuel st (segment_start st) 0.

(** The block-by-block loop of [dump_heap]. *)
Fixpoint dump_blocks (fuel : nat) (st : heap) (curr_block last_viable : Z)
    : option (list output) :=
  if curr_block <=? last_viable then
    match fuel with
    | O => None
    | S k =>
      let payload := Header_payload st curr_block in
      let allocated := Header_allocated st curr_block in
      let next_block := curr_block + payload + HEADER_SIZE in
      match dump_blocks k st next_block last_viable with
      | None => None
      | Some out =>
        Some (Printf "=========================\n" [] ::
              Printf "Block ptr: %p\n" [curr_block] ::
              Printf "Payload size: %u\n" [payload] ::
              Printf "Allocated: %i\n" [int_of_u32 allocated] ::
              Printf "Next block: %p\n" [next_block] :: out)
      end
    end
  else Some [].

(** The free-list loop of [dump_heap]. *)
Fixpoint dump_free_blocks (fuel : nat) (st : heap) (curr_free_block : Z)
    : option (list output) :=
  if curr_free_block =? NULL then Some []
  else
    match fuel with
    | O => None
    | S k =>
      let previous := Pointers_previous st (get_payload_ptr curr_free_block) in
      let next := Pointers_next st (get_payload_ptr curr_free_block) in
      match dump_free_blocks k st next with
      | None => None
      | Some out =>
        Some (Printf "========================\n" [] ::
              Printf "Free Block: %p\n" [curr_free_block] ::
              Printf "Payload: %u\n" [Header_payload st curr_free_block] ::
              Printf "Previous free: %p\n" [previous] ::
              Printf "Next free: %p\n" [next] :: out)
      end
    end.

Definition dump_heap (fuel : nat) (mode : Z) (st : heap) : option (list output) :=
  let curr_block := segment_start st in
  let curr_free_block := free_list_start st in
  let last_viable := segment_end st - MIN_BLOCK_SIZE in
  match
    (if (mode =? 0) || (mode =? 2) then
       match dump_blocks fuel st curr_block last_viable with
       | None => None
       | Some out => Some (Printf "Block by block\n" [] :: out)
       end
     else Some [])
  with
  | None => None
  | Some out1 =>
    match
      (if (mode =? 1) || (mode =? 2) then
         match dump_free_blocks fuel st curr_free_block with
         | None => None
         | Some out => Some (Printf "Free block list\n" [] :: out)
         end
       else Some [])
    with
    | None => None
    | Some out2 => Some (out1 ++ Printf "\n\n" [] :: out2)
    end
  end.

(** ** Specification vocabulary *)

(** A block of the physical layout: start address, payload size, allocated flag. *)
Record block := mkBlock { b_addr : Z; b_size : Z; b_used : bool }.

Definition footprint (b : block) : Z := HEADER_SIZE + b_size b.

(** The physical walk of [validate_heap] and [dump_heap]: from [curr_block],
    advance by header size plus payload size while below [segment_end].
    Returns the blocks met and the address on which the walk stops. *)
Fixpoint heap_walk (fuel : nat) (st : heap) (curr_block : Z) : option (list block * Z) :=
  if curr_block <? segment_end st then
    match fuel with
    | O => None
    | S k =>
      let payload := Header_payload st curr_block in
      let allocated := Header_allocated st curr_block in
      match heap_walk k st (curr_block + payload + HEADER_SIZE) with
      | None => None
      | Some (bs, stop) =>
        Some (mkBlock curr_block payload (negb (allocated =? 0)) :: bs, stop)
      end
    end
  else Some ([], curr_block).

(** The free-list walk of [validate_heap] and [dump_heap]: follow the next
    links from [curr_free] until the null pointer. *)
Fixpoint free_walk (fuel : nat) (st : heap) (curr_free : Z) : option (list Z) :=
  if curr_free =? NULL then Some []
  else
    match fuel with
    | O => None
    | S k =>
      match free_walk k st (Pointers_next st (get_payload_ptr curr_free)) with
      | None => None
      | Some l => Some (curr_free :: l)
      end
    end.

(** Blocks laid out back to back from [s] to [e], each with a payload of at
    least the minimum size. *)
Fixpoint chain (s : Z) (L : list block) (e : Z) : Prop :=
  match L with
  | [] => s = e
  | b :: r => b_addr b = s /\ MIN_PAYLOAD_SIZE <= b_size b /\ chain (s + footprint b) r e
  end.

Definition flag (f : bool) : Z := if f then 1 else 0.

(** The headers in memory are those of the layout. *)
Definition hdrs (m : memory) (L : list block) : Prop :=
  Forall (fun b => load 4 m (b_addr b) = b_size b /\
                   load 4 m (b_addr b + 4) = flag (b_used b)) L.

(** A doubly linked list segment: nodes [l] starting at [h], the first one
    with previous link [prev], the last one with next link [nxt]. *)
Fixpoint lseg (m : memory) (prev h : Z) (l : list Z) (nxt : Z) : Prop :=
  match l with
  | [] => h = nxt
  | b :: r => h = b /\ b <> NULL /\ load 8 m (b + 8) = prev /\
              lseg m b (load 8 m (b + 16)) r nxt
  end.

(** [rep st L fl]: the state [st] represents the physical layout [L] and the
    free list [fl] (addresses in list order). *)
Record rep (st : heap) (L : list block) (fl : list Z) : Prop := mkRep {
  rep_start : 0 < segment_start st;
  rep_end : segment_end st <= 2 ^ 64;
  rep_small : segment_end st - segment_start st < 2 ^ 32 + HEADER_SIZE;
  rep_chain : chain (segment_start st) L (segment_end st);
  rep_hdrs : hdrs (mem st) L;
  rep_list : lseg (mem st) NULL (free_list_start st) fl NULL;
  rep_nodup : NoDup fl;
  rep_free : forall a, In a fl <-> exists p, In (mkBlock a p false) L
}.

(** *** Free-list geometry *)

(** Nodes whose link fields occupy pairwise disjoint byte ranges. *)
Fixpoint sep_list (l : list Z) : Prop :=
  match l with
  | [] => True
  | x :: r => (forall y, In y r -> x + 24 <= y \/ y + 24 <= x) /\ sep_list r
  end.

(** *** Coalescing and fitting *)

(** Bytes gained by absorbing the blocks [F], and the free list without them. *)
Definition absorbed (F : list block) : Z :=
  fold_right (fun d acc => footprint d + acc) 0 F.

Definition remove_all (F : list block) (fl : list Z) : list Z :=
  fold_left (fun l d => remove Z.eq_dec (b_addr d) l) F fl.

Definition stops_here (R : list block) : Prop :=
  match R with
  | [] => True
  | d :: _ => b_used d = true
  end.

(** What a successful search does to the state: the chosen block [r] is the
    first node of the free list whose payload fits; it is split when the
    remainder can stand as a block of its own, and leaves the free list. *)
Definition fit_result (st : heap) (L : list block) (fl : list Z) (req r : Z)
    (st' : heap) : Prop :=
  exists L1 L2 l1 l2 p,
    L = L1 ++ mkBlock r p false :: L2 /\
    fl = l1 ++ r :: l2 /\
    (forall c, In c l1 -> Header_payload st c < req) /\
    Header_payload st r = p /\ req <= p /\
    if req + MIN_BLOCK_SIZE <=? p then
      st' = remove_block r (partition r p req st) /\
      rep st' (L1 ++ mkBlock r req true ::
                     mkBlock (r + req + HEADER_SIZE) (p - req - HEADER_SIZE) false :: L2)
              ((r + req + HEADER_SIZE) :: l1 ++ l2)
    else
      st' = remove_block r st /\
      rep st' (L1 ++ mkBlock r p true :: L2) (l1 ++ l2).

(** *** Layout transitions *)

(** The size that [mymalloc] and [myrealloc] compute from a request. *)
Definition aligned_size (n : Z) : Z :=
  if align n ALIGNMENT <? MIN_PAYLOAD_SIZE then MIN_PAYLOAD_SIZE else align n ALIGNMENT.

(** The three elementary rearrangements: split off a free remainder behind a
    payload of a requested size, merge a block with its free right neighbour,
    change an allocated flag. *)
Inductive step : list block -> list block -> Prop :=
| step_split L1 L2 b p f n :
    step (L1 ++ mkBlock b p f :: L2)
         (L1 ++ mkBlock b (aligned_size n) f ::
                mkBlock (b + aligned_size n + HEADER_SIZE)
                        (p - aligned_size n - HEADER_SIZE) false :: L2)
| step_merge L1 L2 b p f c pc :
    step (L1 ++ mkBlock b p f :: mkBlock c pc false :: L2)
         (L1 ++ mkBlock b (p + pc + HEADER_SIZE) f :: L2)
| step_flag L1 L2 b p f f' :
    step (L1 ++ mkBlock b p f :: L2) (L1 ++ mkBlock b p f' :: L2).

Inductive trans : list block -> list block -> Prop :=
| trans_refl L : trans L L
| trans_step L L' L'' : step L L' -> trans L' L'' -> trans L L''.

(** *** Reachable states *)

(** [ptr] is a payload reference to an allocated block of [size] bytes: the
    physical walk meets a block at [ptr - HEADER_SIZE] whose header says so. *)
Definition live (st : heap) (ptr size : Z) : Prop :=
  exists fuel L stop,
    heap_walk fuel st (segment_start st) = Some (L, stop) /\
    In (mkBlock (ptr - HEADER_SIZE) size true) L.

Definition valid_ptr (st : heap) (ptr : Z) : Prop :=
  ptr = NULL \/ exists size, live st ptr size.

(** States reached from a successful [myinit] on the region
    [heap_start, heap_start + heap_size) by calls of [mymalloc], [myfree] and
    [myrealloc] that respect the caller contract (sizes are [size_t] values,
    pointers are null or live), interleaved with client writes into the
    payload of live blocks. *)
Inductive reachable (heap_start heap_size : Z) : heap -> Prop :=
| reach_init st0 st :
    myinit heap_start heap_size st0 = (true, st) ->
    reachable heap_start heap_size st
| reach_malloc st fuel n r st' :
    reachable heap_start heap_size st ->
    0 <= n < 2 ^ 64 ->
    mymalloc fuel n st = Some (r, st') ->
    reachable heap_start heap_size st'
| reach_free st fuel ptr st' :
    reachable heap_start heap_size st ->
    valid_ptr st ptr ->
    myfree fuel ptr st = Some st' ->
    reachable heap_start heap_size st'
| reach_realloc st fuel ptr n r st' :
    reachable heap_start heap_size st ->
    valid_ptr st ptr -> 0 <= n < 2 ^ 64 ->
    myrealloc fuel ptr n st = Some (r, st') ->
    reachable heap_start heap_size st'
| reach_write st ptr size i v :
    reachable heap_start heap_size st ->
    live st ptr size -> 0 <= i < size ->
    reachable heap_start heap_size (with_mem (store 1 (mem st) (ptr + i) v) st).

(** The region is a real one: it does not start at the null address, lies in
    the 64-bit address space, and its single initial payload fits the 32-bit
    size field of the header. *)
Definition region_ok (heap_start heap_size : Z) : Prop :=
  0 < heap_start /\ heap_start + heap_size <= 2 ^ 64 /\
  heap_size - HEADER_SIZE < 2 ^ 32.

(** *** Properties of layouts and states *)

Definition sizes_aligned (L : list block) : Prop :=
  Forall (fun d => (ALIGNMENT | b_size d)) L.

(** The state right after [myinit]: one free block from [segment_start] to
    [segment_end], alone on the free list. *)
Definition single_free (st : heap) : Prop :=
  0 < segment_start st /\
  segment_end st = segment_start st + Header_payload st (segment_start st) + HEADER_SIZE /\
  Header_allocated st (segment_start st) = 0 /\
  free_list_start st = segment_start st /\
  Pointers_previous st (get_payload_ptr (segment_start st)) = NULL /\
  Pointers_next st (get_payload_ptr (segment_start st)) = NULL.

(** A segment of fewer than [MIN_BLOCK_SIZE] bytes: the single free block has
    a payload below the minimum, and no request fits it. *)
Definition tiny (st : heap) : Prop :=
  single_free st /\ Header_payload st (segment_start st) < MIN_PAYLOAD_SIZE.

Definition same_segment (st st' : heap) : Prop :=
  segment_start st' = segment_start st /\ segment_end st' = segment_end st /\
  segment_size st' = segment_size st.

(** The physical walk of [st] yields the blocks [L]: every walk that
    completes returns [L] and stops exactly on [segment_end], and a walk
    completes as soon as the fuel covers the number of blocks. *)
Definition walk_yields (st : heap) (L : list block) : Prop :=
  forall fuel,
    match heap_walk fuel st (segment_start st) with
    | Some (L', stop) => L' = L /\ stop = segment_end st
    | None => (fuel < length L)%nat
    end.

(** The same for the next-links from the free-list head. *)
Definition free_list_yields (st : heap) (fl : list Z) : Prop :=
  forall fuel,
    match free_walk fuel st (free_list_start st) with
    | Some l => l = fl
    | None => (fuel < length fl)%nat
    end.

(** Byte [x] belongs to block [d] (header or payload). *)
Definition covers (d : block) (x : Z) : Prop :=
  b_addr d <= x < b_addr d + footprint d.

(** Rounding up in the words of the specification: the least multiple of
    [a] that is at least [n]. *)
Definition round_up (n a : Z) : Z := a * ((n + (a - 1)) / a).

(** *** What an operation writes *)

(** Byte [x] lies in a block of [L] that is free. *)
Definition in_free (L : list block) (x : Z) : Prop :=
  exists d, In d L /\ b_used d = false /\ covers d x.

(** The bytes of block [d], header and payload, are the same in [st'] as in [st]. *)
Definition block_kept (st st' : heap) (d : block) : Prop :=
  forall x, covers d x -> mem st' x = mem st x.

(** *** Releasing several blocks *)

(** A client that calls [myfree] on each pointer of a list in turn. *)
Fixpoint free_all (fuel : nat) (ptrs : list Z) (st : heap) : option heap :=
  match ptrs with
  | [] => Some st
  | ptr :: r =>
    match myfree fuel ptr st with
    | None => None
    | Some st1 => free_all fuel r st1
    end
  end.

(** The payload pointers of the blocks of a layout, and a block once released. *)
Definition payload_ptrs (L : list block) : list Z :=
  map (fun d => get_payload_ptr (b_addr d)) L.

Definition released (d : block) : block := mkBlock (b_addr d) (b_size d) false.

(** *** What the debugging functions report *)

(** The first block of [L], in address order, whose header says unallocated
    and whose address is not in the list [fl]. *)
Definition first_unlisted (L : list block) (fl : list Z) : option block :=
  find (fun d => negb (b_used d) && negb (existsb (Z.eqb (b_addr d)) fl)) L.

(** The five lines of [dump_heap] for a block of the layout. *)
Definition block_lines (d : block) : list output :=
  [Printf "=========================\n" [];
   Printf "Block ptr: %p\n" [b_addr d];
   Printf "Payload size: %u\n" [b_size d];
   Printf "Allocated: %i\n" [flag (b_used d)];
   Printf "Next block: %p\n" [b_addr d + b_size d + HEADER_SIZE]].

(** The payload size that the layout [L] gives the block at address [c]. *)
Definition size_at (L : list block) (c : Z) : Z :=
  match find (fun d => b_addr d =? c) L with
  | Some d => b_size d
  | None => 0
  end.

(** The five lines of [dump_heap] for each entry of the free list [fl], the
    first of which has [prev] as its predecessor. *)
Fixpoint free_lines (L : list block) (prev : Z) (fl : list Z) : list output :=
  match fl with
  | [] => []
  | c :: r =>
    Printf "========================\n" [] ::
    Printf "Free Block: %p\n" [c] ::
    Printf "Payload: %u\n" [size_at L c] ::
    Printf "Previous free: %p\n" [prev] ::
    Printf "Next free: %p\n" [hd NULL r] :: free_lines L c r
  end.

(** * Proofs *)

(** ** Memory lemmas *)

Lemma Z_of_byte_range b : 0 <= Z_of_byte b < 256.
Proof.
  unfold Z_of_byte. pose proof (Byte.to_N_bounded b). lia.
Qed.

Lemma Z_of_byte_of_Z v : Z_of_byte (byte_of_Z v) = v mod 256.
Proof.
  unfold Z_of_byte, byte_of_Z.
  assert (Hr : 0 <= v mod 256 < 256) by (apply Z.mod_pos_bound; lia).
  destruct (Byte.of_N (Z.to_N (v mod 256))) as [b|] eqn:E.
  - apply Byte.to_of_N in E. rewrite E. lia.
  - apply Byte.of_N_None_iff in E. lia.
Qed.

Lemma load_range n m a : 0 <= load n m a < 256 ^ Z.of_nat n.
Proof.
  revert a. induction n as [|n IH]; intros a.
  - simpl. lia.
  - cbn [load]. rewrite Nat2Z.inj_succ, Z.pow_succ_r by lia.
    pose proof (Z_of_byte_range (m a)). specialize (IH (a + 1)). lia.
Qed.

Lemma load_ext n m m' a :
  (forall x, a <= x < a + Z.of_nat n -> m' x = m x) -> load n m' a = load n m a.
Proof.
  revert a. induction n as [|n IH]; intros a H; cbn [load]; [reflexivity|].
  rewrite H by lia. rewrite IH; [reflexivity|]. intros x Hx. apply H. lia.
Qed.

Lemma store_outside n m a v x :
  x < a \/ a + Z.of_nat n <= x -> store n m a v x = m x.
Proof.
  revert m a v. induction n as [|n IH]; intros m a v H; cbn [store]; [reflexivity|].
  rewrite IH by lia. destruct (Z.eqb_spec x a); [lia | reflexivity].
Qed.

Lemma store_cases n m a v x :
  store n m a v x = m x \/ a <= x < a + Z.of_nat n.
Proof.
  destruct (Z_lt_dec x a); [left; apply store_outside; lia|].
  destruct (Z_le_dec (a + Z.of_nat n) x); [left; apply store_outside; lia|].
  right. lia.
Qed.

Lemma load_store_same n m a v : load n (store n m a v) a = v mod 256 ^ Z.of_nat n.
Proof.
  revert m a v. induction n as [|n IH]; intros m a v.
  - simpl. symmetry. apply Z.mod_1_r.
  - cbn [load store]. rewrite IH. rewrite store_outside by lia.
    rewrite Z.eqb_refl, Z_of_byte_of_Z.
    rewrite Nat2Z.inj_succ, Z.pow_succ_r by lia.
    symmetry. apply Z.rem_mul_r; [lia | apply Z.pow_pos_nonneg; lia].
Qed.

Lemma load_store_other n k m a v a' :
  a' + Z.of_nat k <= a \/ a + Z.of_nat n <= a' ->
  load k (store n m a v) a' = load k m a'.
Proof.
  intros H. apply load_ext. intros x Hx. apply store_outside. lia.
Qed.

(** ** The physical layout *)

Lemma chain_app s L1 L2 e :
  chain s (L1 ++ L2) e <-> exists mid, chain s L1 mid /\ chain mid L2 e.
Proof.
  revert s. induction L1 as [|b L1 IH]; intros s; simpl.
  - split.
    + intros H. exists s. auto.
    + intros [mid [-> H]]. exact H.
  - rewrite IH. split.
    + intros (Ha & Hs & mid & H1 & H2). exists mid. auto.
    + intros (mid & (Ha & Hs & H1) & H2). repeat split; auto. exists mid. auto.
Qed.

Lemma chain_le s L e : chain s L e -> s <= e.
Proof.
  revert s. induction L as [|b L IH]; intros s; simpl.
  - lia.
  - intros (_ & Hs & H). apply IH in H. unfold footprint, HEADER_SIZE, MIN_PAYLOAD_SIZE in *. lia.
Qed.

Lemma chain_In s L e b :
  chain s L e -> In b L ->
  s <= b_addr b /\ b_addr b + footprint b <= e /\ MIN_PAYLOAD_SIZE <= b_size b.
Proof.
  revert s. induction L as [|c L IH]; intros s; simpl; [tauto|].
  intros (Ha & Hs & H) [->|Hin].
  - apply chain_le in H. lia.
  - destruct (IH _ H Hin) as (H1 & H2 & H3).
    unfold footprint, HEADER_SIZE, MIN_PAYLOAD_SIZE in *. lia.
Qed.

Lemma chain_sep s L e b b' :
  chain s L e -> In b L -> In b' L ->
  b = b' \/ b_addr b + footprint b <= b_addr b' \/ b_addr b' + footprint b' <= b_addr b.
Proof.
  revert s. induction L as [|c L IH]; intros s; simpl; [tauto|].
  intros (Ha & Hs & H) [->|Hin] [->|Hin'].
  - left; reflexivity.
  - destruct (chain_In _ _ _ _ H Hin'). right; left; lia.
  - destruct (chain_In _ _ _ _ H Hin). right; right; lia.
  - eapply IH; eauto.
Qed.

Lemma chain_split s L1 b L2 e :
  chain s (L1 ++ b :: L2) e <->
  chain s L1 (b_addr b) /\ MIN_PAYLOAD_SIZE <= b_size b /\
  chain (b_addr b + footprint b) L2 e.
Proof.
  rewrite chain_app. simpl. split.
  - intros (mid & H1 & Ha & Hs & H2). subst mid. auto.
  - intros (H1 & Hs & H2). exists (b_addr b). auto.
Qed.

(** The address of a block determines the block. *)
Lemma chain_addr_inj s L e b b' :
  chain s L e -> In b L -> In b' L -> b_addr b = b_addr b' -> b = b'.
Proof.
  intros H Hb Hb' Ha.
  destruct (chain_sep _ _ _ _ _ H Hb Hb') as [E|[E|E]]; [exact E| |];
    destruct (chain_In _ _ _ _ H Hb) as (_ & _ & ?);
    destruct (chain_In _ _ _ _ H Hb') as (_ & _ & ?);
    unfold footprint, HEADER_SIZE, MIN_PAYLOAD_SIZE in *; lia.
Qed.

Lemma chain_length s L e : chain s L e -> MIN_BLOCK_SIZE * Z.of_nat (length L) <= e - s.
Proof.
  revert s. induction L as [|b L IH]; intros s; simpl chain.
  - intros ->. simpl. lia.
  - intros (Ha & Hs & H). apply IH in H. cbn [length]. rewrite Nat2Z.inj_succ.
    unfold footprint, HEADER_SIZE, MIN_PAYLOAD_SIZE, MIN_BLOCK_SIZE in *. lia.
Qed.

Lemma hdrs_app m L1 L2 : hdrs m (L1 ++ L2) <-> hdrs m L1 /\ hdrs m L2.
Proof. apply Forall_app. Qed.

Lemma hdrs_In m L b :
  hdrs m L -> In b L ->
  load 4 m (b_addr b) = b_size b /\ load 4 m (b_addr b + 4) = flag (b_used b).
Proof.
  intros H Hin. unfold hdrs in H. rewrite Forall_forall in H. apply (H b Hin).
Qed.

(** Headers survive any change of memory that leaves the header bytes alone. *)
Lemma hdrs_frame m m' L :
  hdrs m L ->
  (forall b x, In b L -> b_addr b <= x < b_addr b + HEADER_SIZE -> m' x = m x) ->
  hdrs m' L.
Proof.
  unfold hdrs. rewrite !Forall_forall. intros H Hm b Hin.
  destruct (H b Hin) as [H1 H2]. unfold HEADER_SIZE in Hm. split.
  - rewrite <- H1. apply load_ext. intros x Hx. apply (Hm b); [exact Hin | lia].
  - rewrite <- H2. apply load_ext. intros x Hx. apply (Hm b); [exact Hin | lia].
Qed.

(** ** The free list *)

Lemma last_cons_default (b : Z) r d : last (b :: r) d = last r b.
Proof.
  revert b d. induction r as [|c r IH]; intros b d; [reflexivity|].
  change (last (b :: c :: r) d) with (last (c :: r) d). rewrite !IH. reflexivity.
Qed.

Lemma lseg_frame m m' prev h l nxt :
  lseg m prev h l nxt ->
  (forall b x, In b l -> b + 8 <= x < b + 24 -> m' x = m x) ->
  lseg m' prev h l nxt.
Proof.
  revert prev h. induction l as [|b l IH]; intros prev h; cbn [lseg]; [auto|].
  intros (Hh & Hb & Hp & Hl) Hm.
  assert (E1 : load 8 m' (b + 8) = load 8 m (b + 8)).
  { apply load_ext. intros x Hx. apply (Hm b); [left; reflexivity | lia]. }
  assert (E2 : load 8 m' (b + 16) = load 8 m (b + 16)).
  { apply load_ext. intros x Hx. apply (Hm b); [left; reflexivity | lia]. }
  rewrite E1, E2. repeat split; auto.
  apply IH; [exact Hl|]. intros c x Hc Hx. apply (Hm c); [right; exact Hc | exact Hx].
Qed.

Lemma lseg_nonnull m prev h l nxt b : lseg m prev h l nxt -> In b l -> b <> NULL.
Proof.
  revert prev h. induction l as [|c l IH]; intros prev h; cbn [lseg In]; [tauto|].
  intros (Hh & Hb & Hp & Hl) [->|Hin]; [exact Hb | eauto].
Qed.

Lemma lseg_app m prev h l1 l2 nxt :
  lseg m prev h (l1 ++ l2) nxt <->
  exists mid, lseg m prev h l1 mid /\ lseg m (last l1 prev) mid l2 nxt.
Proof.
  revert prev h. induction l1 as [|b l1 IH]; intros prev h.
  - cbn [lseg app last]. split.
    + intros H. exists h. auto.
    + intros (mid & -> & H). exact H.
  - rewrite last_cons_default. cbn [app lseg]. rewrite IH. split.
    + intros (Hh & Hb & Hp & mid & H1 & H2). exists mid. auto.
    + intros (mid & (Hh & Hb & Hp & H1) & H2). repeat split; auto. exists mid. auto.
Qed.

Lemma last_In (l : list Z) d : l <> [] -> In (last l d) l.
Proof.
  induction l as [|b l IH]; [congruence|]. intros _.
  destruct l as [|c l]; [left; reflexivity|].
  right. apply IH. congruence.
Qed.

(** Redirecting the next link of the last node of a segment. *)
Lemma lseg_set_next m m' prev h l p nxt nxt' :
  lseg m prev h (l ++ [p]) nxt ->
  (forall b x, In b l -> b + 8 <= x < b + 24 -> m' x = m x) ->
  (forall x, p + 8 <= x < p + 16 -> m' x = m x) ->
  load 8 m' (p + 16) = nxt' ->
  lseg m' prev h (l ++ [p]) nxt'.
Proof.
  intros H Hl Hp Hn. apply lseg_app in H. destruct H as (mid & H1 & H2).
  apply lseg_app. exists mid. split.
  - eapply lseg_frame; eauto.
  - cbn [lseg] in *. destruct H2 as (Hh & Hb & Hpv & Hx). split; [exact Hh|].
    split; [exact Hb|]. split; [|exact Hn].
    rewrite <- Hpv. apply load_ext. intros x Hx'. apply Hp. lia.
Qed.

(** Redirecting the previous link of the first node of a segment. *)
Lemma lseg_set_prev m m' prev prev' h n l nxt :
  lseg m prev h (n :: l) nxt ->
  (forall b x, In b l -> b + 8 <= x < b + 24 -> m' x = m x) ->
  (forall x, n + 16 <= x < n + 24 -> m' x = m x) ->
  load 8 m' (n + 8) = prev' ->
  lseg m' prev' h (n :: l) nxt.
Proof.
  cbn [lseg]. intros (Hh & Hb & Hp & H) Hl Hn Hpv. repeat split; auto.
  assert (E : load 8 m' (n + 16) = load 8 m (n + 16)).
  { apply load_ext. intros x Hx. apply Hn. lia. }
  rewrite E. eapply lseg_frame; eauto.
Qed.

(** ** Effect of the list operations on memory *)

Lemma load4_same m a v : load 4 (store 4 m a v) a = u32 v.
Proof. apply load_store_same. Qed.

Lemma load8_same m a v : load 8 (store 8 m a v) a = u64 v.
Proof. apply load_store_same. Qed.

Lemma u32_small v : 0 <= v < 2 ^ 32 -> u32 v = v.
Proof. intros H. apply Z.mod_small. exact H. Qed.

Lemma u64_small v : 0 <= v < 2 ^ 64 -> u64 v = v.
Proof. intros H. apply Z.mod_small. exact H. Qed.

Lemma load8_range m a : 0 <= load 8 m a < 2 ^ 64.
Proof. apply (load_range 8). Qed.

Lemma load4_range m a : 0 <= load 4 m a < 2 ^ 32.
Proof. apply (load_range 4). Qed.

Lemma add_8_8 b : b + 8 + 8 = b + 16.
Proof. lia. Qed.

Ltac unfold_state :=
  unfold set_Header_payload, set_Header_allocated, set_Pointers_previous,
    set_Pointers_next, set_free_list_start, with_mem, get_payload_ptr,
    Header_payload, Header_allocated, Pointers_previous, Pointers_next,
    HEADER_SIZE, MIN_PAYLOAD_SIZE, MIN_BLOCK_SIZE, NULL, footprint in *;
  cbn [mem segment_start segment_end free_list_start segment_size] in *;
  rewrite ?add_8_8 in *.

Ltac mem_simpl :=
  repeat first
    [ rewrite load4_same
    | rewrite load8_same
    | rewrite load_store_other by lia
    | rewrite u64_small by lia
    | rewrite u32_small by lia ].

(** Peel the stores off [store ... x] in the goal: either the byte at [x] is
    the old one, or [x] lies in the range of one of the stores. *)
Ltac peel_stores :=
  repeat match goal with
  | |- context [store ?n ?m ?a ?v ?x] =>
    let E := fresh "E" in
    destruct (store_cases n m a v x) as [E|E]; [rewrite E; clear E | lia]
  end.

Lemma add_block_spec b st :
  0 <= b < 2 ^ 64 -> 0 <= free_list_start st < 2 ^ 64 ->
  (free_list_start st <> NULL ->
   free_list_start st + 24 <= b \/ b + 24 <= free_list_start st) ->
  let h := free_list_start st in
  let st' := add_block b st in
  free_list_start st' = b /\
  segment_start st' = segment_start st /\
  segment_end st' = segment_end st /\
  load 8 (mem st') (b + 8) = NULL /\
  load 8 (mem st') (b + 16) = h /\
  (h <> NULL -> load 8 (mem st') (h + 8) = b) /\
  load 4 (mem st') (b + 4) = 0 /\
  (forall x, mem st' x = mem st x \/ b + 4 <= x < b + 24 \/
             (h <> NULL /\ h + 8 <= x < h + 16)).
Proof.
  intros Hb Hh Hsep h st'. subst h st'. unfold add_block.
  destruct (Z.eqb_spec (free_list_start st) NULL) as [E|E]; unfold_state.
  - rewrite E. repeat split; try reflexivity; mem_simpl; try reflexivity; try lia.
    intros x. peel_stores. left; reflexivity.
  - specialize (Hsep E).
    repeat split; try reflexivity; mem_simpl; try reflexivity; try lia.
    intros x. peel_stores. left; reflexivity.
Qed.

Lemma remove_block_spec b st :
  let P := load 8 (mem st) (b + 8) in
  let N := load 8 (mem st) (b + 16) in
  (P <> NULL -> P + 24 <= b \/ b + 24 <= P) ->
  (N <> NULL -> N + 24 <= b \/ b + 24 <= N) ->
  (P <> NULL -> N <> NULL -> P + 24 <= N \/ N + 24 <= P) ->
  let st' := remove_block b st in
  free_list_start st' = (if P =? NULL then N else free_list_start st) /\
  segment_start st' = segment_start st /\
  segment_end st' = segment_end st /\
  (P <> NULL -> load 8 (mem st') (P + 16) = N) /\
  (N <> NULL -> load 8 (mem st') (N + 8) = P) /\
  load 4 (mem st') (b + 4) = 1 /\
  (forall x, mem st' x = mem st x \/ b + 4 <= x < b + 8 \/
             (P <> NULL /\ P + 16 <= x < P + 24) \/
             (N <> NULL /\ N + 8 <= x < N + 16)).
Proof.
  intros P N HP HN HPN st'. subst st'. unfold remove_block.
  unfold Pointers_previous, Pointers_next, get_payload_ptr, HEADER_SIZE.
  replace (b + 8 + 8) with (b + 16) by lia. fold P N.
  pose proof (load8_range (mem st) (b + 8)) as RP. fold P in RP.
  pose proof (load8_range (mem st) (b + 16)) as RN. fold N in RN.
  clearbody P N.
  destruct (Z.eqb_spec P NULL) as [EP|EP]; destruct (Z.eqb_spec N NULL) as [EN|EN];
    cbn [andb negb]; unfold_state;
    try specialize (HP EP); try specialize (HN EN); try specialize (HPN EP EN);
    repeat split; try reflexivity; try congruence; mem_simpl;
    try reflexivity; try lia;
    try (intros x; peel_stores; left; reflexivity).
Qed.

(** Turn the premises of a hypothesis into goals, in order. *)
Ltac feed H :=
  match type of H with
  | ?A -> _ =>
    let F := fresh "F" in
    assert (F : A); [| specialize (H F); clear F; feed H]
  | _ => idtac
  end.

Lemma sep_list_app l1 l2 :
  sep_list (l1 ++ l2) <->
  sep_list l1 /\ sep_list l2 /\
  (forall x y, In x l1 -> In y l2 -> x + 24 <= y \/ y + 24 <= x).
Proof.
  induction l1 as [|a l1 IH]; cbn [app sep_list].
  - split; [intros H; repeat split; auto; intros x y []| tauto].
  - rewrite IH. split.
    + intros (Ha & H1 & H2 & H12). repeat split; auto.
      * intros y Hy. apply Ha. apply in_or_app. auto.
      * intros x y [<-|Hx] Hy; [apply Ha; apply in_or_app; auto | auto].
    + intros ((Ha & H1) & H2 & H12). repeat split; auto.
      * intros y Hy. apply in_app_or in Hy. destruct Hy as [Hy|Hy]; [auto|].
        apply H12; [left; reflexivity | exact Hy].
      * intros x y Hx Hy. apply H12; [right; exact Hx | exact Hy].
Qed.

Lemma sep_list_NoDup l : sep_list l -> NoDup l.
Proof.
  induction l as [|a l IH]; cbn [sep_list]; intros H; constructor.
  - intros Hin. destruct H as [H _]. specialize (H a Hin). lia.
  - apply IH. tauto.
Qed.

Lemma add_block_lseg b st fl :
  lseg (mem st) NULL (free_list_start st) fl NULL ->
  sep_list (b :: fl) ->
  0 < b < 2 ^ 64 -> (forall c, In c fl -> 0 <= c < 2 ^ 64) ->
  lseg (mem (add_block b st)) NULL (free_list_start (add_block b st)) (b :: fl) NULL.
Proof.
  intros Hl Hsep Hb Hfl.
  destruct fl as [|n r]; cbn [lseg sep_list] in Hl, Hsep.
  - assert (X := add_block_spec b st). cbv zeta in X.
    feed X; try lia; try (rewrite Hl; unfold NULL; lia).
    destruct X as (F & _ & _ & Lp & Ln & _ & _ & _).
    cbn [lseg]. rewrite F, Lp, Ln. unfold NULL in *. repeat split; auto; lia.
  - destruct Hl as (Hh & Hn & Hp & Hl). destruct Hsep as (Hbs & Hns & Hr).
    assert (Hbn : b + 24 <= n \/ n + 24 <= b) by (apply Hbs; left; reflexivity).
    assert (X := add_block_spec b st). cbv zeta in X.
    feed X; try lia; try (rewrite Hh; unfold NULL in *; try lia).
    { apply Hfl. left; reflexivity. }
    destruct X as (F & _ & _ & Lp & Ln & Lh & _ & Hch).
    cbn [lseg]. rewrite F, Lp, Ln. rewrite Hh in *. unfold NULL in *.
    split; [reflexivity|]. split; [lia|]. split; [reflexivity|].
    apply (lseg_set_prev (mem st) _ NULL); auto.
    + cbn [lseg]. auto.
    + intros c x Hc Hx.
      assert (b + 24 <= c \/ c + 24 <= b) by (apply Hbs; right; exact Hc).
      specialize (Hns c Hc). destruct (Hch x) as [E|[E|E]]; [exact E | lia | lia].
    + intros x Hx. destruct (Hch x) as [E|[E|E]]; [exact E | lia | lia].
Qed.

Lemma remove_block_lseg b st l1 l2 :
  lseg (mem st) NULL (free_list_start st) (l1 ++ b :: l2) NULL ->
  sep_list (l1 ++ b :: l2) ->
  let st' := remove_block b st in
  lseg (mem st') NULL (free_list_start st') (l1 ++ l2) NULL /\
  segment_start st' = segment_start st /\
  segment_end st' = segment_end st /\
  load 4 (mem st') (b + 4) = 1 /\
  (forall x, mem st' x = mem st x \/ b + 4 <= x < b + 8 \/
             exists c, In c (l1 ++ l2) /\ c + 8 <= x < c + 24).
Proof.
  intros Hl Hsep st'.
  apply lseg_app in Hl. destruct Hl as (mid & Hl1 & Hl2).
  cbn [lseg] in Hl2. destruct Hl2 as (-> & Hb & HP & Hl2).
  apply sep_list_app in Hsep. destruct Hsep as (S1 & S2 & S12).
  cbn [sep_list] in S2. destruct S2 as (Sb & S2).
  set (P := load 8 (mem st) (b + 8)) in *.
  set (N := load 8 (mem st) (b + 16)) in *.
  assert (HPin : P <> NULL -> In P l1).
  { intros HPn. rewrite HP. apply last_In. intros ->. apply HPn. rewrite HP. reflexivity. }
  assert (HNin : N <> NULL -> In N l2).
  { intros HNn. destruct l2 as [|n r]; cbn [lseg] in Hl2; [contradiction|].
    destruct Hl2 as (-> & _). left; reflexivity. }
  assert (X := remove_block_spec b st). cbv zeta in X. fold P N in X.
  feed X.
  { intros HPn. assert (P + 24 <= b \/ b + 24 <= P); [|lia].
    apply S12; [auto | left; reflexivity]. }
  { intros HNn. assert (b + 24 <= N \/ N + 24 <= b); [|lia]. apply Sb. auto. }
  { intros HPn HNn. apply S12; [auto | right; auto]. }
  destruct X as (F & Es & Ee & LP & LN & La & Hch).
  fold st' in F, Es, Ee, LP, LN, La, Hch.
  split; [|split; [exact Es|split; [exact Ee|split; [exact La|]]]].
  - apply lseg_app. exists N. split.
    + destruct l1 as [|a l1'] using rev_ind.
      * cbn [lseg last] in *. rewrite F, HP. reflexivity.
      * clear IHl1'. rewrite last_last in HP.
        assert (HPn : P <> NULL).
        { rewrite HP. eapply lseg_nonnull; [exact Hl1|]. apply in_or_app. right. left. reflexivity. }
        destruct (Z.eqb_spec P NULL) as [?|_]; [contradiction|]. rewrite F.
        apply sep_list_app in S1. destruct S1 as (S1 & _ & S1a).
        eapply lseg_set_next; [exact Hl1| | |].
        -- intros c x Hc Hx.
           assert (c + 24 <= a \/ a + 24 <= c) by (apply S1a; [exact Hc | left; reflexivity]).
           assert (c + 24 <= b \/ b + 24 <= c).
           { apply S12; [apply in_or_app; left; exact Hc | left; reflexivity]. }
           destruct (Hch x) as [E|[E|[E|E]]]; [exact E | lia | lia |].
           destruct E as [HNn E].
           assert (c + 24 <= N \/ N + 24 <= c); [|lia].
           apply S12; [apply in_or_app; left; exact Hc | right; auto].
        -- intros x Hx.
           assert (a + 24 <= b \/ b + 24 <= a).
           { apply S12; [apply in_or_app; right; left; reflexivity | left; reflexivity]. }
           destruct (Hch x) as [E|[E|[E|E]]]; [exact E | lia | lia |].
           destruct E as [HNn E].
           assert (a + 24 <= N \/ N + 24 <= a); [|lia].
           apply S12; [apply in_or_app; right; left; reflexivity | right; auto].
        -- rewrite <- HP. apply LP. exact HPn.
    + destruct l2 as [|n r]; cbn [lseg] in Hl2 |- *; [exact Hl2|].
      destruct Hl2 as (HNe & Hn & Hpv & Hr).
      cbn [sep_list] in S2. destruct S2 as (Sn & S2).
      assert (HNn : N <> NULL) by congruence.
      assert (Hbn : b + 24 <= n \/ n + 24 <= b) by (apply Sb; left; reflexivity).
      assert (E1 : load 8 (mem st') (n + 16) = load 8 (mem st) (n + 16)).
      { apply load_ext. intros x Hx.
        destruct (Hch x) as [E|[E|[E|E]]]; [exact E | lia | | lia].
        destruct E as [HPn E]. specialize (HPin HPn).
        assert (P + 24 <= n \/ n + 24 <= P); [|lia].
        apply S12; [exact HPin | right; left; reflexivity]. }
      rewrite E1. split; [exact HNe|]. split; [exact Hn|].
      split; [rewrite <- HNe, <- HP; apply LN; exact HNn|].
      eapply lseg_frame; [exact Hr|].
      intros c x Hc Hx. specialize (Sn c Hc).
      assert (b + 24 <= c \/ c + 24 <= b) by (apply Sb; right; exact Hc).
      destruct (Hch x) as [E|[E|[E|E]]]; [exact E | lia | | lia].
      destruct E as [HPn E]. specialize (HPin HPn).
      assert (P + 24 <= c \/ c + 24 <= P); [|lia].
      apply S12; [exact HPin | right; right; exact Hc].
  - intros x. destruct (Hch x) as [E|[E|[E|E]]]; [left; exact E | right; left; exact E | |].
    + destruct E as [HPn E]. right; right. exists P. split; [|lia].
      apply in_or_app. left. auto.
    + destruct E as [HNn E]. right; right. exists N. split; [|lia].
      apply in_or_app. right. auto.
Qed.

(** ** Consequences of the representation invariant *)

Lemma rep_block_bounds st L fl b :
  rep st L fl -> In b L ->
  segment_start st <= b_addr b /\ 0 < b_addr b /\
  b_addr b + footprint b <= segment_end st /\
  b_addr b + footprint b <= 2 ^ 64 /\
  MIN_PAYLOAD_SIZE <= b_size b < 2 ^ 32.
Proof.
  intros R Hin. destruct R as [Hs He Hsm Hc _ _ _ _].
  destruct (chain_In _ _ _ _ Hc Hin) as (H1 & H2 & H3).
  unfold footprint, HEADER_SIZE, MIN_PAYLOAD_SIZE in *. lia.
Qed.

Lemma chain_before s L1 b L2 e d :
  chain s (L1 ++ b :: L2) e -> In d L1 -> b_addr d + footprint d <= b_addr b.
Proof.
  intros H Hin. apply chain_split in H. destruct H as (H1 & _ & _).
  destruct (chain_In _ _ _ _ H1 Hin) as (_ & H & _). exact H.
Qed.

Lemma chain_after s L1 b L2 e d :
  chain s (L1 ++ b :: L2) e -> In d L2 -> b_addr b + footprint b <= b_addr d.
Proof.
  intros H Hin. apply chain_split in H. destruct H as (_ & _ & H2).
  destruct (chain_In _ _ _ _ H2 Hin) as (H & _ & _). exact H.
Qed.

(** Free-list nodes that are distinct blocks of a layout have disjoint links. *)
Lemma free_sep_list s L e fl :
  chain s L e -> NoDup fl ->
  (forall a, In a fl -> exists p f, In (mkBlock a p f) L) ->
  sep_list fl.
Proof.
  intros Hc Hnd Hfl. induction Hnd as [|x l Hx Hnd IH]; cbn [sep_list]; [exact I|].
  split.
  - intros y Hy.
    destruct (Hfl x (or_introl eq_refl)) as (px & fx & Hbx).
    destruct (Hfl y (or_intror Hy)) as (py & fy & Hby).
    destruct (chain_In _ _ _ _ Hc Hbx) as (_ & _ & ?).
    destruct (chain_In _ _ _ _ Hc Hby) as (_ & _ & ?).
    destruct (chain_sep _ _ _ _ _ Hc Hbx Hby) as [E|[E|E]].
    + inversion E. subst. contradiction.
    + unfold footprint, HEADER_SIZE, MIN_PAYLOAD_SIZE in *. cbn [b_addr b_size] in *. lia.
    + unfold footprint, HEADER_SIZE, MIN_PAYLOAD_SIZE in *. cbn [b_addr b_size] in *. lia.
  - apply IH. intros a Ha. apply Hfl. right. exact Ha.
Qed.

Lemma rep_sep_list st L fl : rep st L fl -> sep_list fl.
Proof.
  intros R. eapply free_sep_list; [apply (rep_chain _ _ _ R) | apply (rep_nodup _ _ _ R) |].
  intros a Ha. apply (rep_free _ _ _ R) in Ha. destruct Ha as (p & Hp). eauto.
Qed.

Lemma rep_free_block st L fl a :
  rep st L fl -> In a fl ->
  exists p, In (mkBlock a p false) L /\ 0 < a /\ a + 24 <= segment_end st /\
            segment_end st <= 2 ^ 64.
Proof.
  intros R Ha. apply (rep_free _ _ _ R) in Ha. destruct Ha as (p & Hp).
  exists p. split; [exact Hp|].
  destruct (rep_block_bounds _ _ _ _ R Hp) as (H1 & H2 & H3 & H4 & H5).
  pose proof (rep_end _ _ _ R).
  unfold footprint, HEADER_SIZE, MIN_PAYLOAD_SIZE in *. cbn [b_addr b_size] in *. lia.
Qed.

Lemma rep_head_range st L fl :
  rep st L fl -> 0 <= free_list_start st < 2 ^ 64.
Proof.
  intros R. pose proof (rep_list _ _ _ R) as Hl.
  destruct fl as [|h r]; cbn [lseg] in Hl.
  - rewrite Hl. unfold NULL. lia.
  - destruct Hl as (-> & _).
    destruct (rep_free_block _ _ _ h R (or_introl eq_refl)) as (p & _ & ? & ? & ?). lia.
Qed.

(** A header byte is never a payload byte. *)
Lemma hdr_not_payload s L e d c x :
  chain s L e -> In d L -> In c L ->
  b_addr d <= x < b_addr d + HEADER_SIZE ->
  b_addr c + HEADER_SIZE <= x < b_addr c + footprint c -> False.
Proof.
  intros Hc Hd Hcc Hx Hy.
  destruct (chain_In _ _ _ _ Hc Hd) as (_ & _ & ?).
  destruct (chain_In _ _ _ _ Hc Hcc) as (_ & _ & ?).
  destruct (chain_sep _ _ _ _ _ Hc Hd Hcc) as [E|[E|E]];
    [subst c| |]; unfold footprint, HEADER_SIZE, MIN_PAYLOAD_SIZE in *; lia.
Qed.

(** ** Splitting a block *)

Lemma free_vs_block st L fl b c :
  rep st L fl -> In b L -> In c fl ->
  (c = b_addr b /\ b_used b = false) \/ c + 24 <= b_addr b \/
  b_addr b + footprint b <= c.
Proof.
  intros R Hb Hc.
  destruct (rep_free_block _ _ _ c R Hc) as (pc & Hpc & _).
  pose proof (rep_chain _ _ _ R) as Hch.
  destruct (chain_In _ _ _ _ Hch Hpc) as (_ & _ & ?).
  destruct (chain_sep _ _ _ _ _ Hch Hpc Hb) as [E|[E|E]].
  - subst b. left. split; reflexivity.
  - right; left. unfold footprint, HEADER_SIZE, MIN_PAYLOAD_SIZE in *.
    cbn [b_addr b_size] in *. lia.
  - right; right. exact E.
Qed.

Lemma partition_rep st L1 L2 b space f q fl :
  rep st (L1 ++ mkBlock b space f :: L2) fl ->
  MIN_PAYLOAD_SIZE <= q -> q + MIN_BLOCK_SIZE <= space ->
  rep (partition b space q st)
      (L1 ++ mkBlock b q f ::
             mkBlock (b + q + HEADER_SIZE) (space - q - HEADER_SIZE) false :: L2)
      ((b + q + HEADER_SIZE) :: fl) /\
  (forall x, mem (partition b space q st) x = mem st x \/ b <= x < b + 4 \/
             b + q + 8 <= x < b + q + 32 \/
             (free_list_start st <> NULL /\
              free_list_start st + 8 <= x < free_list_start st + 16)).
Proof.
  intros R Hq Hs.
  assert (Hin : In (mkBlock b space f) (L1 ++ mkBlock b space f :: L2))
    by (apply in_or_app; right; left; reflexivity).
  destruct (rep_block_bounds _ _ _ _ R Hin) as (B1 & B2 & B3 & B4 & B5).
  pose proof (rep_chain _ _ _ R) as Hc.
  pose proof (rep_sep_list _ _ _ R) as Hsep.
  pose proof (rep_head_range _ _ _ R) as Hhr.
  pose proof (rep_end _ _ _ R) as Hend.
  assert (Hfb : forall c, In c fl ->
            (c = b /\ f = false) \/ c + 24 <= b \/ b + 8 + space <= c).
  { intros c Hcfl. pose proof (free_vs_block _ _ _ _ _ R Hin Hcfl) as X.
    unfold footprint, HEADER_SIZE in X. cbn [b_addr b_size b_used] in X.
    rewrite Z.add_assoc in X. exact X. }
  unfold footprint, HEADER_SIZE, MIN_PAYLOAD_SIZE, MIN_BLOCK_SIZE in *.
  cbn [b_addr b_size] in *.
  set (nb := b + q + 8).
  assert (Hc' : chain (segment_start st)
                  (L1 ++ mkBlock b q f :: mkBlock nb (space - q - 8) false :: L2)
                  (segment_end st)).
  { apply chain_split in Hc. destruct Hc as (C1 & C2 & C3). apply chain_split.
    cbn [b_addr b_size chain] in *.
    unfold footprint, HEADER_SIZE, MIN_PAYLOAD_SIZE in *. cbn [b_addr b_size] in *.
    split; [exact C1|]. split; [lia|]. split; [subst nb; lia|]. split; [lia|].
    replace (b + (8 + q) + (8 + (space - q - 8))) with (b + (8 + space)) by lia.
    exact C3. }
  assert (Hsep' : sep_list (nb :: fl)).
  { cbn [sep_list]. split; [|exact Hsep]. intros y Hy.
    destruct (Hfb y Hy) as [[? _]|[?|?]]; subst nb; lia. }
  unfold partition. unfold HEADER_SIZE. fold nb.
  set (np := u32 (u64 (u64 (space - q) - 8))).
  assert (Enp : np = space - q - 8).
  { unfold np, u32, u64. rewrite (Z.mod_small (space - q)) by lia.
    rewrite (Z.mod_small (space - q - 8) (2 ^ 64)) by lia.
    apply Z.mod_small. lia. }
  set (st2 := set_Header_allocated nb 0 (set_Header_payload nb np st)).
  assert (M2 : forall x, mem st2 x = mem st x \/ nb <= x < nb + 8).
  { intros x. subst st2. unfold_state. peel_stores. left; reflexivity. }
  assert (P2 : load 4 (mem st2) nb = np).
  { subst st2. unfold_state. mem_simpl. reflexivity. }
  assert (Hl2 : lseg (mem st2) NULL (free_list_start st2) fl NULL).
  { eapply lseg_frame; [apply (rep_list _ _ _ R)|]. intros c x Hcfl Hx.
    destruct (M2 x) as [E|E]; [exact E|].
    destruct (Hfb c Hcfl) as [[? _]|[?|?]]; subst nb; lia. }
  assert (Hl3 : lseg (mem (add_block nb st2)) NULL
                  (free_list_start (add_block nb st2)) (nb :: fl) NULL).
  { apply add_block_lseg; auto; [subst nb; lia|].
    intros c Hcfl. destruct (rep_free_block _ _ _ c R Hcfl) as (_ & _ & ? & ? & ?). lia. }
  assert (X := add_block_spec nb st2). cbv zeta in X.
  feed X; [subst nb; lia | exact Hhr | |].
  { change (free_list_start st2) with (free_list_start st). intros Hne.
    destruct fl as [|h r]; pose proof (rep_list _ _ _ R) as Hl; cbn [lseg] in Hl;
      [contradiction|].
    destruct Hl as (Hh & _). rewrite Hh.
    destruct (Hfb h (or_introl eq_refl)) as [[? _]|[?|?]]; subst nb; lia. }
  destruct X as (F3 & S3 & E3 & Lp & Ln & Lh & La & M3).
  change (free_list_start st2) with (free_list_start st) in *.
  change (segment_start st2) with (segment_start st) in *.
  change (segment_end st2) with (segment_end st) in *.
  set (st3 := add_block nb st2) in *.
  assert (Hhead : free_list_start st <> NULL ->
            (free_list_start st = b /\ f = false) \/ free_list_start st + 24 <= b \/
            b + 8 + space <= free_list_start st).
  { intros Hne. destruct fl as [|h r]; pose proof (rep_list _ _ _ R) as Hl;
      cbn [lseg] in Hl; [contradiction|].
    destruct Hl as (Hh & _). rewrite Hh. apply Hfb. left; reflexivity. }
  assert (M4 : forall x, mem (set_Header_payload b (u32 q) st3) x = mem st x \/
             b <= x < b + 4 \/ nb <= x < nb + 24 \/
             (free_list_start st <> NULL /\
              free_list_start st + 8 <= x < free_list_start st + 16)).
  { intros x. unfold_state. peel_stores.
    destruct (M3 x) as [E|[E|E]]; [rewrite E | lia | tauto].
    destruct (M2 x) as [E'|E']; [left; exact E' | lia]. }
  split.
  2:{ intros x. destruct (M4 x) as [E|[E|[E|E]]]; subst nb; auto; right; right; left; lia. }
  constructor.
  - unfold_state. rewrite S3. apply (rep_start _ _ _ R).
  - unfold_state. rewrite E3. exact Hend.
  - unfold_state. rewrite S3, E3. apply (rep_small _ _ _ R).
  - unfold_state. rewrite S3, E3. exact Hc'.
  - cbn [segment_start segment_end set_Header_payload with_mem mem].
    apply hdrs_app. pose proof (rep_hdrs _ _ _ R) as Hh.
    apply hdrs_app in Hh. destruct Hh as (Hh1 & Hh2).
    apply Forall_cons_iff in Hh2. destruct Hh2 as ((Hp & Ha) & Hh2).
    cbn [b_addr b_size b_used] in *.
    assert (Hfr : forall d x, In d (L1 ++ L2) -> b_addr d <= x < b_addr d + 8 ->
              store 4 (mem st3) b (u32 q) x = mem st x).
    { intros d x Hd Hx.
      assert (Hdb : b_addr d + footprint d <= b \/ b + (8 + space) <= b_addr d).
      { apply in_app_or in Hd. destruct Hd as [Hd|Hd].
        - left. apply (chain_before _ _ _ _ _ _ Hc Hd).
        - right. apply (chain_after _ _ _ _ _ _ Hc Hd). }
      assert (HdL : In d (L1 ++ mkBlock b space f :: L2)).
      { apply in_app_or in Hd. apply in_or_app. destruct Hd; [left|right; right]; auto. }
      destruct (chain_In _ _ _ _ Hc HdL) as (_ & _ & Hdz).
      unfold footprint, HEADER_SIZE, MIN_PAYLOAD_SIZE in *.
      destruct (M4 x) as [E|[E|[E|E]]]; [exact E | lia | subst nb; lia |].
      destruct E as [Hne E]. exfalso.
      destruct fl as [|h r]; pose proof (rep_list _ _ _ R) as Hl;
        cbn [lseg] in Hl; [contradiction|].
      destruct Hl as (Hhh & _). rewrite Hhh in E.
      destruct (rep_free_block _ _ _ h R (or_introl eq_refl)) as (ph & Hph & _).
      apply (hdr_not_payload _ _ _ d _ x Hc HdL Hph); unfold footprint, HEADER_SIZE;
        cbn [b_addr b_size]; [lia|].
      destruct (chain_In _ _ _ _ Hc Hph) as (_ & _ & ?).
      unfold MIN_PAYLOAD_SIZE in *. cbn [b_size] in *. lia. }
    split.
    + eapply hdrs_frame; [exact Hh1|]. intros d x Hd Hx. apply (Hfr d); [|exact Hx].
      apply in_or_app; left; exact Hd.
    + constructor; [|constructor].
      * cbn [b_addr b_size b_used]. split.
        -- rewrite (u32_small q) by lia. mem_simpl. reflexivity.
        -- rewrite <- Ha. apply load_ext. intros x Hx.
           destruct (M4 x) as [E|[E|[E|E]]]; [exact E | lia | subst nb; lia |].
           destruct E as [Hne E]. destruct (Hhead Hne) as [[? _]|[?|?]]; lia.
      * cbn [b_addr b_size b_used flag]. split.
        -- rewrite load_store_other by (subst nb; lia).
           rewrite <- Enp, <- P2. apply load_ext. intros x Hx.
           destruct (M3 x) as [E|[E|E]]; [exact E | lia |].
           destruct E as [Hne E]. destruct (Hhead Hne) as [[? _]|[?|?]]; subst nb; lia.
        -- rewrite load_store_other by (subst nb; lia). exact La.
      * eapply hdrs_frame; [exact Hh2|]. intros d x Hd Hx. apply (Hfr d); [|exact Hx].
        apply in_or_app; right; exact Hd.
  - cbn [set_Header_payload with_mem mem free_list_start].
    eapply lseg_frame; [exact Hl3|]. intros c x Hcfl Hx.
    apply store_outside. destruct Hcfl as [<-|Hcfl]; [subst nb; lia|].
    destruct (Hfb c Hcfl) as [[? _]|[?|?]]; lia.
  - apply sep_list_NoDup. exact Hsep'.
  - intros a. cbn [In]. rewrite (rep_free _ _ _ R). split.
    + intros [<-|(p & Hp)].
      * exists (space - q - 8). apply in_or_app. right. right. left. reflexivity.
      * apply in_app_or in Hp. destruct Hp as [Hp|[Hp|Hp]].
        -- exists p. apply in_or_app. left. exact Hp.
        -- inversion Hp; subst. exists q. apply in_or_app. right. left. reflexivity.
        -- exists p. apply in_or_app. right. right. right. exact Hp.
    + intros (p & Hp). apply in_app_or in Hp. destruct Hp as [Hp|[Hp|[Hp|Hp]]].
      * right. exists p. apply in_or_app. left. exact Hp.
      * inversion Hp; subst. right. exists space. apply in_or_app. right. left. reflexivity.
      * inversion Hp; subst. left. reflexivity.
      * right. exists p. apply in_or_app. right. right. exact Hp.
Qed.

(** ** Taking a block off the free list *)

Lemma links_not_header s L e d c p f x :
  chain s L e -> In d L -> In (mkBlock c p f) L ->
  b_addr d <= x < b_addr d + 8 -> c + 8 <= x < c + 24 -> False.
Proof.
  intros Hc Hd Hcc Hx Hy.
  destruct (chain_In _ _ _ _ Hc Hcc) as (_ & _ & Hz).
  apply (hdr_not_payload _ _ _ d _ x Hc Hd Hcc); unfold footprint, HEADER_SIZE,
    MIN_PAYLOAD_SIZE in *; cbn [b_addr b_size] in *; lia.
Qed.

Lemma remove_app_mid (c : Z) l1 l2 :
  NoDup (l1 ++ c :: l2) -> remove Z.eq_dec c (l1 ++ c :: l2) = l1 ++ l2.
Proof.
  intros H. apply NoDup_remove_2 in H.
  rewrite remove_app, remove_cons.
  rewrite !notin_remove; [reflexivity| |]; intros Hin; apply H; apply in_or_app; auto.
Qed.

Lemma remove_block_rep st L1 L2 b p l1 l2 :
  rep st (L1 ++ mkBlock b p false :: L2) (l1 ++ b :: l2) ->
  rep (remove_block b st) (L1 ++ mkBlock b p true :: L2) (l1 ++ l2) /\
  (forall x, mem (remove_block b st) x = mem st x \/ b + 4 <= x < b + 8 \/
             exists c, In c (l1 ++ l2) /\ c + 8 <= x < c + 24).
Proof.
  intros R.
  pose proof (rep_chain _ _ _ R) as Hc.
  pose proof (rep_sep_list _ _ _ R) as Hsep.
  pose proof (rep_nodup _ _ _ R) as Hnd.
  destruct (remove_block_lseg b st l1 l2 (rep_list _ _ _ R) Hsep)
    as (Hl & Es & Ee & La & Hch).
  assert (Hin : In (mkBlock b p false) (L1 ++ mkBlock b p false :: L2))
    by (apply in_or_app; right; left; reflexivity).
  assert (Hnode : forall c, In c (l1 ++ l2) ->
            exists pc, In (mkBlock c pc false) (L1 ++ mkBlock b p false :: L2)).
  { intros c Hcin. apply (rep_free _ _ _ R). apply in_app_or in Hcin.
    apply in_or_app. destruct Hcin; [left|right; right]; auto. }
  assert (Hfr : forall d x, In d (L1 ++ mkBlock b p false :: L2) ->
            b_addr d <= x < b_addr d + 8 ->
            mem (remove_block b st) x = mem st x \/ b + 4 <= x < b + 8).
  { intros d x Hd Hx. destruct (Hch x) as [E|[E|(c & Hcin & E)]]; auto.
    exfalso. destruct (Hnode c Hcin) as (pc & Hpc).
    apply (links_not_header _ _ _ d c pc false x Hc Hd Hpc Hx E). }
  split; [|exact Hch].
  constructor.
  - rewrite Es. apply (rep_start _ _ _ R).
  - rewrite Ee. apply (rep_end _ _ _ R).
  - rewrite Es, Ee. apply (rep_small _ _ _ R).
  - rewrite Es, Ee. apply chain_split in Hc. apply chain_split. exact Hc.
  - pose proof (rep_hdrs _ _ _ R) as Hh. apply hdrs_app in Hh.
    destruct Hh as (Hh1 & Hh2). apply Forall_cons_iff in Hh2.
    destruct Hh2 as ((Hp & Ha) & Hh2). cbn [b_addr b_size b_used] in *.
    apply hdrs_app. split; [|constructor; [split|]].
    + eapply hdrs_frame; [exact Hh1|]. intros d x Hd Hx.
      pose proof (chain_before _ _ _ _ _ _ Hc Hd) as Hlt.
      destruct (chain_In _ _ _ _ Hc (in_or_app _ _ d (or_introl Hd))) as (_ & _ & ?).
      unfold footprint, HEADER_SIZE, MIN_PAYLOAD_SIZE in *. cbn [b_addr] in *.
      destruct (Hfr d x) as [E|E]; [apply in_or_app; left; exact Hd | lia | exact E | lia].
    + cbn [b_addr b_size]. rewrite <- Hp. apply load_ext. intros x Hx.
      destruct (Hfr (mkBlock b p false) x) as [E|E];
        [exact Hin | cbn [b_addr]; lia | exact E | lia].
    + exact La.
    + eapply hdrs_frame; [exact Hh2|]. intros d x Hd Hx.
      pose proof (chain_after _ _ _ _ _ _ Hc Hd) as Hlt.
      unfold footprint, HEADER_SIZE in *. cbn [b_addr b_size] in *.
      destruct (chain_In _ _ _ _ Hc Hin) as (_ & _ & ?).
      unfold MIN_PAYLOAD_SIZE in *. cbn [b_size] in *.
      destruct (Hfr d x) as [E|E];
        [apply in_or_app; right; right; exact Hd | lia | exact E | lia].
  - exact Hl.
  - apply (NoDup_remove_1 _ _ _ Hnd).
  - intros a. split.
    + intros Ha. destruct (Hnode a Ha) as (pa & Hpa).
      exists pa. apply in_app_or in Hpa. apply in_or_app.
      destruct Hpa as [Hpa|[Hpa|Hpa]]; [left; exact Hpa | | right; right; exact Hpa].
      inversion Hpa; subst. exfalso. apply (NoDup_remove_2 _ _ _ Hnd). exact Ha.
    + intros (pa & Hpa).
      assert (HpaL : In (mkBlock a pa false) (L1 ++ mkBlock b p false :: L2)).
      { apply in_app_or in Hpa. apply in_or_app.
        destruct Hpa as [Hpa|[Hpa|Hpa]]; [left; exact Hpa | discriminate | right; right; exact Hpa]. }
      assert (Hafl : In a (l1 ++ b :: l2)) by (apply (rep_free _ _ _ R); eauto).
      apply in_app_or in Hafl. apply in_or_app.
      destruct Hafl as [Hafl|[Hafl|Hafl]]; [left; exact Hafl | | right; exact Hafl].
      subst a. exfalso.
      assert (E : mkBlock b pa false = mkBlock b p false)
        by (apply (chain_addr_inj _ _ _ _ _ Hc HpaL Hin); reflexivity).
      inversion E; subst pa.
      destruct (chain_In _ _ _ _ Hc Hin) as (_ & _ & Hz).
      unfold footprint, HEADER_SIZE, MIN_PAYLOAD_SIZE in *. cbn [b_addr b_size] in *.
      apply in_app_or in Hpa. destruct Hpa as [Hpa|[Hpa|Hpa]]; [ | discriminate | ].
      * pose proof (chain_before _ _ _ _ _ _ Hc Hpa) as X.
        unfold footprint, HEADER_SIZE in X. cbn [b_addr b_size] in X. lia.
      * pose proof (chain_after _ _ _ _ _ _ Hc Hpa) as X.
        unfold footprint, HEADER_SIZE in X. cbn [b_addr b_size] in X. lia.
Qed.

(** ** Putting an allocated block on the free list *)

Lemma head_in_list st L fl :
  rep st L fl -> free_list_start st <> NULL -> In (free_list_start st) fl.
Proof.
  intros R Hne. pose proof (rep_list _ _ _ R) as Hl.
  destruct fl as [|h r]; cbn [lseg] in Hl; [contradiction|].
  destruct Hl as (-> & _). left; reflexivity.
Qed.

Lemma free_block_rep st L1 L2 b p fl :
  rep st (L1 ++ mkBlock b p true :: L2) fl ->
  rep (set_Header_allocated b 0 (add_block b st))
      (L1 ++ mkBlock b p false :: L2) (b :: fl).
Proof.
  intros R.
  pose proof (rep_chain _ _ _ R) as Hc.
  pose proof (rep_sep_list _ _ _ R) as Hsep.
  pose proof (rep_head_range _ _ _ R) as Hhr.
  assert (Hin : In (mkBlock b p true) (L1 ++ mkBlock b p true :: L2))
    by (apply in_or_app; right; left; reflexivity).
  destruct (rep_block_bounds _ _ _ _ R Hin) as (B1 & B2 & B3 & B4 & B5).
  assert (Hfb : forall c, In c fl -> c + 24 <= b \/ b + 8 + p <= c).
  { intros c Hcfl. pose proof (free_vs_block _ _ _ _ _ R Hin Hcfl) as X.
    unfold footprint, HEADER_SIZE in X. cbn [b_addr b_size b_used] in X.
    destruct X as [[_ ?]|[?|?]]; [discriminate | lia | lia]. }
  unfold footprint, HEADER_SIZE, MIN_PAYLOAD_SIZE in *. cbn [b_addr b_size] in *.
  assert (Hsep' : sep_list (b :: fl)).
  { cbn [sep_list]. split; [|exact Hsep]. intros y Hy. specialize (Hfb y Hy). lia. }
  assert (Hl3 : lseg (mem (add_block b st)) NULL
                  (free_list_start (add_block b st)) (b :: fl) NULL).
  { apply add_block_lseg; auto; [apply (rep_list _ _ _ R) | lia |].
    intros c Hcfl. destruct (rep_free_block _ _ _ c R Hcfl) as (_ & _ & ? & ? & ?). lia. }
  assert (X := add_block_spec b st). cbv zeta in X.
  feed X; [lia | exact Hhr | |].
  { intros Hne. specialize (Hfb _ (head_in_list _ _ _ R Hne)). lia. }
  destruct X as (F3 & S3 & E3 & Lp & Ln & Lh & La & M3).
  set (st3 := add_block b st) in *.
  assert (M4 : forall x, mem (set_Header_allocated b 0 st3) x = mem st x \/
             b + 4 <= x < b + 24 \/
             (free_list_start st <> NULL /\
              free_list_start st + 8 <= x < free_list_start st + 16)).
  { intros x. unfold_state. peel_stores. apply M3. }
  assert (Hfr : forall d x, In d (L1 ++ mkBlock b p true :: L2) ->
            b_addr d <= x < b_addr d + 8 ->
            mem (set_Header_allocated b 0 st3) x = mem st x \/ b + 4 <= x < b + 8).
  { intros d x Hd Hx. destruct (M4 x) as [E|[E|[Hne E]]]; [left; exact E | |].
    - destruct (chain_In _ _ _ _ Hc Hd) as (_ & _ & ?).
      destruct (chain_sep _ _ _ _ _ Hc Hd Hin) as [Ed|[Ed|Ed]];
        [subst d| |]; unfold footprint, HEADER_SIZE, MIN_PAYLOAD_SIZE in *;
        cbn [b_addr b_size] in *; lia.
    - exfalso.
      destruct (rep_free_block _ _ _ _ R (head_in_list _ _ _ R Hne)) as (ph & Hph & _).
      apply (links_not_header _ _ _ d _ ph false x Hc Hd Hph Hx). lia. }
  constructor.
  - unfold_state. rewrite S3. apply (rep_start _ _ _ R).
  - unfold_state. rewrite E3. apply (rep_end _ _ _ R).
  - unfold_state. rewrite S3, E3. apply (rep_small _ _ _ R).
  - unfold_state. rewrite S3, E3. apply chain_split in Hc. apply chain_split. exact Hc.
  - pose proof (rep_hdrs _ _ _ R) as Hh. apply hdrs_app in Hh.
    destruct Hh as (Hh1 & Hh2). apply Forall_cons_iff in Hh2.
    destruct Hh2 as ((Hp & Ha) & Hh2). cbn [b_addr b_size b_used] in *.
    apply hdrs_app. split; [|constructor; [split|]].
    + eapply hdrs_frame; [exact Hh1|]. intros d x Hd Hx.
      pose proof (chain_before _ _ _ _ _ _ Hc Hd) as Hlt.
      destruct (chain_In _ _ _ _ Hc (in_or_app _ _ d (or_introl Hd))) as (_ & _ & ?).
      unfold footprint, HEADER_SIZE, MIN_PAYLOAD_SIZE in *. cbn [b_addr] in *.
      destruct (Hfr d x) as [E|E]; [apply in_or_app; left; exact Hd | lia | exact E | lia].
    + cbn [b_addr b_size]. rewrite <- Hp. apply load_ext. intros x Hx.
      destruct (Hfr (mkBlock b p true) x) as [E|E];
        [exact Hin | cbn [b_addr]; lia | exact E | lia].
    + cbn [b_addr b_used flag]. unfold_state. mem_simpl. reflexivity.
    + eapply hdrs_frame; [exact Hh2|]. intros d x Hd Hx.
      pose proof (chain_after _ _ _ _ _ _ Hc Hd) as Hlt.
      unfold footprint, HEADER_SIZE in *. cbn [b_addr b_size] in *.
      destruct (Hfr d x) as [E|E];
        [apply in_or_app; right; right; exact Hd | lia | exact E | lia].
  - change (free_list_start (set_Header_allocated b 0 st3)) with (free_list_start st3).
    eapply lseg_frame; [exact Hl3|]. intros c x Hcfl Hx.
    unfold set_Header_allocated, with_mem. cbn [mem].
    apply store_outside. destruct Hcfl as [<-|Hcfl]; [lia|].
    specialize (Hfb c Hcfl). lia.
  - apply sep_list_NoDup. exact Hsep'.
  - intros a. cbn [In]. rewrite (rep_free _ _ _ R). split.
    + intros [<-|(pa & Hpa)].
      * exists p. apply in_or_app. right. left. reflexivity.
      * exists pa. apply in_app_or in Hpa. apply in_or_app.
        destruct Hpa as [Hpa|[Hpa|Hpa]];
          [left; exact Hpa | discriminate | right; right; exact Hpa].
    + intros (pa & Hpa). apply in_app_or in Hpa.
      destruct Hpa as [Hpa|[Hpa|Hpa]].
      * right. exists pa. apply in_or_app. left. exact Hpa.
      * injection Hpa as Ea Ep. left. exact Ea.
      * right. exists pa. apply in_or_app. right. right. exact Hpa.
Qed.

(** ** Absorbing the free right neighbour *)

Lemma coalesce_step st L1 L2 b p c pc fl :
  rep st (L1 ++ mkBlock b p true :: mkBlock c pc false :: L2) fl ->
  let st1 :=
    set_Header_payload b
      (u32 (Header_payload st b + u32 (Header_payload st c + HEADER_SIZE))) st in
  let st2 := remove_block c st1 in
  rep st2 (L1 ++ mkBlock b (p + pc + HEADER_SIZE) true :: L2) (remove Z.eq_dec c fl) /\
  c = b + p + HEADER_SIZE /\
  Header_payload st2 c = pc /\
  segment_end st2 = segment_end st /\
  (forall x, b + 8 <= x < b + 8 + p -> mem st2 x = mem st x).
Proof.
  intros R st1 st2.
  set (L := L1 ++ mkBlock b p true :: mkBlock c pc false :: L2) in *.
  pose proof (rep_chain _ _ _ R) as Hc.
  pose proof (rep_sep_list _ _ _ R) as Hsep.
  pose proof (rep_nodup _ _ _ R) as Hnd.
  assert (Hinb : In (mkBlock b p true) L) by (apply in_or_app; right; left; reflexivity).
  assert (Hinc : In (mkBlock c pc false) L)
    by (apply in_or_app; right; right; left; reflexivity).
  destruct (rep_block_bounds _ _ _ _ R Hinb) as (Bb1 & Bb2 & Bb3 & Bb4 & Bb5).
  destruct (rep_block_bounds _ _ _ _ R Hinc) as (Bc1 & Bc2 & Bc3 & Bc4 & Bc5).
  pose proof (rep_small _ _ _ R) as Hsm.
  destruct (hdrs_In _ _ _ (rep_hdrs _ _ _ R) Hinb) as (Hpb & Hab).
  destruct (hdrs_In _ _ _ (rep_hdrs _ _ _ R) Hinc) as (Hpc & Hac).
  assert (Hcfl : In c fl) by (apply (rep_free _ _ _ R); exists pc; exact Hinc).
  destruct (in_split _ _ Hcfl) as (l1 & l2 & Efl).
  assert (Hc0 := Hc). unfold L in Hc0. apply chain_split in Hc0.
  destruct Hc0 as (C1 & C2 & C3). cbn [chain] in C3. destruct C3 as (C3 & C4 & C5).
  unfold footprint, HEADER_SIZE, MIN_PAYLOAD_SIZE in *. cbn [b_addr b_size b_used] in *.
  assert (Ev : u32 (load 4 (mem st) b + u32 (load 4 (mem st) c + 8)) = p + pc + 8).
  { rewrite Hpb, Hpc. unfold u32. rewrite (Z.mod_small (pc + 8)) by lia.
    rewrite Z.mod_small by lia. lia. }
  assert (Hfb : forall a, In a fl -> a + 24 <= b \/ b + 8 + p <= a).
  { intros a Ha. pose proof (free_vs_block _ _ _ _ _ R Hinb Ha) as X.
    unfold footprint, HEADER_SIZE in X. cbn [b_addr b_size b_used] in X.
    destruct X as [[_ ?]|[?|?]]; [discriminate | lia | lia]. }
  assert (Hl1 : lseg (mem st1) NULL (free_list_start st1) (l1 ++ c :: l2) NULL).
  { rewrite <- Efl. eapply lseg_frame; [apply (rep_list _ _ _ R)|].
    intros a x Ha Hx. subst st1. unfold set_Header_payload, with_mem. cbn [mem].
    apply store_outside. specialize (Hfb a Ha). lia. }
  assert (Hsep1 : sep_list (l1 ++ c :: l2)) by (rewrite <- Efl; exact Hsep).
  destruct (remove_block_lseg c st1 l1 l2 Hl1 Hsep1) as (Hl & Es & Ee & La & Hch).
  fold st2 in Hl, Es, Ee, La, Hch.
  change (segment_start st1) with (segment_start st) in Es.
  change (segment_end st1) with (segment_end st) in Ee.
  assert (Hrm : remove Z.eq_dec c fl = l1 ++ l2).
  { rewrite Efl. apply remove_app_mid. rewrite <- Efl. exact Hnd. }
  assert (Hnode : forall a, In a (l1 ++ l2) ->
            a <> c /\ exists pa, In (mkBlock a pa false) (L1 ++ L2)).
  { intros a Ha.
    assert (Hac' : a <> c).
    { intros ->. rewrite Efl in Hnd. apply (NoDup_remove_2 _ _ _ Hnd). exact Ha. }
    split; [exact Hac'|].
    assert (Hafl : In a fl).
    { rewrite Efl. apply in_app_or in Ha. apply in_or_app.
      destruct Ha; [left|right; right]; auto. }
    apply (rep_free _ _ _ R) in Hafl. destruct Hafl as (pa & Hpa). exists pa.
    unfold L in Hpa. apply in_app_or in Hpa. apply in_or_app.
    destruct Hpa as [Hpa|[Hpa|[Hpa|Hpa]]];
      [left; exact Hpa | discriminate | | right; exact Hpa].
    injection Hpa as Ea _. congruence. }
  assert (HsubL : forall d, In d (L1 ++ L2) -> In d L).
  { intros d Hd. unfold L. apply in_app_or in Hd. apply in_or_app.
    destruct Hd; [left | right; right; right]; auto. }
  assert (M : forall x, mem st2 x = mem st x \/ b <= x < b + 4 \/ c + 4 <= x < c + 8 \/
                        exists a pa, In (mkBlock a pa false) (L1 ++ L2) /\
                                     a + 8 <= x < a + 24).
  { intros x. destruct (Hch x) as [E|[E|(a & Ha & E)]].
    - rewrite E. subst st1. unfold set_Header_payload, with_mem. cbn [mem].
      destruct (store_cases 4 (mem st) b
                  (u32 (Header_payload st b + u32 (Header_payload st c + 8))) x)
        as [E'|E']; [left; exact E' | right; left; lia].
    - right; right; left. exact E.
    - right; right; right. destruct (Hnode a Ha) as (_ & pa & Hpa). eauto. }
  assert (Hfr : forall d x, In d L -> b_addr d <= x < b_addr d + 8 ->
            mem st2 x = mem st x \/ b <= x < b + 4 \/ c + 4 <= x < c + 8).
  { intros d x Hd Hx. destruct (M x) as [E|[E|[E|(a & pa & Ha & E)]]]; auto.
    exfalso. apply (links_not_header _ _ _ d a pa false x Hc Hd (HsubL _ Ha) Hx E). }
  split; [|split; [lia|split; [|split; [exact Ee|]]]].
  - rewrite Hrm. constructor.
    + rewrite Es. apply (rep_start _ _ _ R).
    + rewrite Ee. apply (rep_end _ _ _ R).
    + rewrite Es, Ee. exact Hsm.
    + rewrite Es, Ee. apply chain_split.
      unfold footprint, HEADER_SIZE, MIN_PAYLOAD_SIZE. cbn [b_addr b_size].
      split; [exact C1|]. split; [lia|].
      replace (b + (8 + (p + pc + 8))) with (b + (8 + p) + (8 + pc)) by lia. exact C5.
    + pose proof (rep_hdrs _ _ _ R) as Hh. unfold L in Hh. apply hdrs_app in Hh.
      destruct Hh as (Hh1 & Hh2). apply Forall_cons_iff in Hh2. destruct Hh2 as (_ & Hh2).
      apply Forall_cons_iff in Hh2. destruct Hh2 as (_ & Hh2).
      apply hdrs_app. split; [|constructor; [split|]].
      * eapply hdrs_frame; [exact Hh1|]. intros d x Hd Hx.
        pose proof (chain_before _ _ _ _ _ _ Hc Hd) as Hlt.
        assert (HdL : In d L) by (apply in_or_app; left; exact Hd).
        destruct (chain_In _ _ _ _ Hc HdL) as (_ & _ & ?).
        unfold footprint, HEADER_SIZE, MIN_PAYLOAD_SIZE in *. cbn [b_addr] in *.
        destruct (Hfr d x HdL) as [E|[E|E]]; [lia | exact E | lia | lia].
      * cbn [b_addr b_size]. transitivity (load 4 (mem st1) b).
        -- apply load_ext. intros x Hx. destruct (Hch x) as [E|[E|(a & Ha & E)]];
             [exact E | lia |].
           exfalso. destruct (Hnode a Ha) as (_ & pa & Hpa).
           apply (links_not_header _ _ _ (mkBlock b p true) a pa false x Hc Hinb
                    (HsubL _ Hpa)); cbn [b_addr]; lia.
        -- subst st1. unfold set_Header_payload, with_mem, Header_payload. cbn [mem].
           rewrite load4_same. unfold Header_payload in Ev. rewrite Ev.
           apply u32_small. lia.
      * cbn [b_addr b_used]. rewrite <- Hab. apply load_ext. intros x Hx.
        destruct (Hfr (mkBlock b p true) x Hinb) as [E|[E|E]];
          [cbn [b_addr]; lia | exact E | lia | lia].
      * eapply hdrs_frame; [exact Hh2|]. intros d x Hd Hx.
        assert (HdL : In d L) by (apply in_or_app; right; right; right; exact Hd).
        assert (Hlt : c + (8 + pc) <= b_addr d).
        { destruct (chain_In _ _ _ _ C5 Hd) as (X & _). lia. }
        unfold HEADER_SIZE in *.
        destruct (Hfr d x HdL) as [E|[E|E]]; [lia | exact E | lia | lia].
    + exact Hl.
    + rewrite Efl in Hnd. apply (NoDup_remove_1 _ _ _ Hnd).
    + intros a. split.
      * intros Ha. destruct (Hnode a Ha) as (_ & pa & Hpa). exists pa.
        apply in_app_or in Hpa. apply in_or_app.
        destruct Hpa; [left | right; right]; auto.
      * intros (pa & Hpa).
        assert (Hpa' : In (mkBlock a pa false) (L1 ++ L2)).
        { apply in_app_or in Hpa. apply in_or_app.
          destruct Hpa as [Hpa|[Hpa|Hpa]]; [left; exact Hpa | discriminate | right; exact Hpa]. }
        assert (Hafl : In a fl) by (apply (rep_free _ _ _ R); exists pa; auto).
        rewrite Efl in Hafl. apply in_app_or in Hafl. apply in_or_app.
        destruct Hafl as [Hafl|[Hafl|Hafl]]; [left; exact Hafl | | right; exact Hafl].
        subst a. exfalso.
        assert (E : mkBlock c pa false = mkBlock c pc false)
          by (apply (chain_addr_inj _ _ _ _ _ Hc (HsubL _ Hpa') Hinc); reflexivity).
        injection E as Ep. subst pa.
        apply in_app_or in Hpa'. destruct Hpa' as [Hpa'|Hpa'].
        -- pose proof (chain_before _ _ _ _ _ _ Hc Hpa') as X.
           unfold footprint, HEADER_SIZE in X. cbn [b_addr b_size] in X. lia.
        -- destruct (chain_In _ _ _ _ C5 Hpa') as (X & _). cbn [b_addr] in X. lia.
  - unfold Header_payload. rewrite <- Hpc. apply load_ext. intros x Hx.
    destruct (Hfr (mkBlock c pc false) x Hinc) as [E|[E|E]];
      [cbn [b_addr]; lia | exact E | lia | lia].
  - intros x Hx. destruct (M x) as [E|[E|[E|(a & pa & Ha & E)]]]; [exact E | lia | lia |].
    exfalso.
    destruct (chain_In _ _ _ _ Hc (HsubL _ Ha)) as (_ & _ & ?).
    destruct (chain_sep _ _ _ _ _ Hc (HsubL _ Ha) Hinb) as [Ed|[Ed|Ed]];
      [discriminate| |]; unfold footprint, HEADER_SIZE, MIN_PAYLOAD_SIZE in *;
      cbn [b_addr b_size] in *; lia.
Qed.

Lemma coalesce_loop_eq fuel block st curr_block :
  coalesce_loop fuel block st curr_block =
  if (curr_block <? segment_end st) && (Header_allocated st curr_block =? 0) then
    match fuel with
    | O => None
    | S k =>
      let st1 :=
        set_Header_payload block
          (u32 (Header_payload st block + u32 (Header_payload st curr_block + HEADER_SIZE)))
          st in
      let st2 := remove_block curr_block st1 in
      coalesce_loop k block st2 (curr_block + Header_payload st2 curr_block + HEADER_SIZE)
    end
  else Some st.
Proof. destruct fuel; reflexivity. Qed.

(** The loop of [coalesce_right] absorbs exactly the run [F] of free blocks
    that follows the block, and needs one unit of fuel per absorbed block. *)
Lemma coalesce_loop_rep L1 b R' F :
  Forall (fun d => b_used d = false) F -> stops_here R' ->
  forall fuel st p fl,
  rep st (L1 ++ mkBlock b p true :: F ++ R') fl ->
  match coalesce_loop fuel b st (b + p + HEADER_SIZE) with
  | Some st' =>
    rep st' (L1 ++ mkBlock b (p + absorbed F) true :: R') (remove_all F fl) /\
    (forall x, b + 8 <= x < b + 8 + p -> mem st' x = mem st x) /\
    (F = [] -> st' = st)
  | None => (fuel < length F)%nat
  end.
Proof.
  intros HF Hstop. induction HF as [|d F Hd HF IH]; intros fuel st p fl R.
  - rewrite coalesce_loop_eq. cbn [app] in R.
    assert (Hin : In (mkBlock b p true) (L1 ++ mkBlock b p true :: R'))
      by (apply in_or_app; right; left; reflexivity).
    pose proof (rep_chain _ _ _ R) as Hc. apply chain_split in Hc.
    destruct Hc as (_ & _ & Hc). unfold footprint in Hc. cbn [b_addr b_size] in Hc.
    assert (Hcond : (b + p + HEADER_SIZE <? segment_end st) &&
                    (Header_allocated st (b + p + HEADER_SIZE) =? 0) = false).
    { destruct R' as [|d R'']; cbn [chain] in Hc.
      - apply andb_false_intro1. apply Z.ltb_ge. lia.
      - apply andb_false_intro2. destruct Hc as (Ha & _). cbn [stops_here] in Hstop.
        assert (Hd : In d (L1 ++ mkBlock b p true :: d :: R''))
          by (apply in_or_app; right; right; left; reflexivity).
        destruct (hdrs_In _ _ _ (rep_hdrs _ _ _ R) Hd) as (_ & Hfl).
        unfold Header_allocated. replace (b + p + HEADER_SIZE) with (b_addr d) by lia.
        rewrite Hfl, Hstop. reflexivity. }
    rewrite Hcond. change (absorbed []) with 0. change (remove_all [] fl) with fl.
    rewrite Z.add_0_r. auto.
  - rewrite coalesce_loop_eq. destruct d as [c pc fc]. cbn [b_used] in Hd. subst fc.
    cbn [app] in R.
    destruct (coalesce_step _ _ _ _ _ _ _ _ R) as (R2 & Ec & Hpc & Ee & Hdata).
    assert (Hinc : In (mkBlock c pc false) (L1 ++ mkBlock b p true :: mkBlock c pc false :: F ++ R'))
      by (apply in_or_app; right; right; left; reflexivity).
    destruct (rep_block_bounds _ _ _ _ R Hinc) as (_ & _ & Bc & _ & Bs).
    destruct (hdrs_In _ _ _ (rep_hdrs _ _ _ R) Hinc) as (_ & Hfl).
    unfold footprint, HEADER_SIZE, MIN_PAYLOAD_SIZE in Bc, Bs. cbn [b_addr b_size b_used flag] in *.
    assert (Hcond : (b + p + HEADER_SIZE <? segment_end st) &&
                    (Header_allocated st (b + p + HEADER_SIZE) =? 0) = true).
    { rewrite <- Ec. unfold Header_allocated. rewrite Hfl.
      apply andb_true_intro. split; [apply Z.ltb_lt; lia | reflexivity]. }
    rewrite Hcond. destruct fuel as [|k]; [cbn [length]; lia|].
    cbv zeta. rewrite <- Ec. rewrite Hpc.
    replace (c + pc + HEADER_SIZE) with (b + (p + pc + HEADER_SIZE) + HEADER_SIZE)
      by (unfold HEADER_SIZE in *; lia).
    specialize (IH k _ _ _ R2).
    destruct (coalesce_loop k b _ _) as [st'|]; [|cbn [length]; lia].
    destruct IH as (R3 & Hdata' & _).
    change (absorbed (mkBlock c pc false :: F))
      with (footprint (mkBlock c pc false) + absorbed F).
    change (remove_all (mkBlock c pc false :: F) fl)
      with (remove_all F (remove Z.eq_dec c fl)).
    unfold footprint at 1. cbn [b_size b_addr].
    replace (p + (HEADER_SIZE + pc + absorbed F)) with (p + pc + HEADER_SIZE + absorbed F)
      by lia.
    split; [exact R3|]. split; [|discriminate].
    intros x Hx. rewrite Hdata' by (unfold HEADER_SIZE; lia). apply Hdata. exact Hx.
Qed.

(** ** First fit *)

Lemma find_fit_loop_eq fuel req st curr_block :
  find_fit_loop fuel req st curr_block =
  if curr_block =? NULL then Some (NULL, st)
  else
    match fuel with
    | O => None
    | S k =>
      let payload_space := Header_payload st curr_block in
      if req <=? payload_space then
        let st1 :=
          if u64 (req + MIN_BLOCK_SIZE) <=? payload_space then
            partition curr_block payload_space req st
          else st in
        Some (curr_block, remove_block curr_block st1)
      else
        find_fit_loop k req st (Pointers_next st (get_payload_ptr curr_block))
    end.
Proof. destruct fuel; reflexivity. Qed.

Lemma find_fit_loop_rep st L fl req :
  rep st L fl -> MIN_PAYLOAD_SIZE <= req < 2 ^ 64 ->
  forall l2 l1 prev h fuel,
  fl = l1 ++ l2 ->
  lseg (mem st) prev h l2 NULL ->
  (forall c, In c l1 -> Header_payload st c < req) ->
  match find_fit_loop fuel req st h with
  | None => (fuel < length l2)%nat
  | Some (r, st') =>
    (r = NULL /\ st' = st /\ forall c, In c fl -> Header_payload st c < req) \/
    (r <> NULL /\ fit_result st L fl req r st')
  end.
Proof.
  intros R Hreq. induction l2 as [|c l2 IH]; intros l1 prev h fuel Efl Hl Hsmall.
  - cbn [lseg] in Hl. subst h. rewrite find_fit_loop_eq. rewrite Z.eqb_refl.
    left. split; [reflexivity|]. split; [reflexivity|].
    rewrite Efl, app_nil_r. exact Hsmall.
  - cbn [lseg] in Hl. destruct Hl as (-> & Hnz & _ & Hl).
    rewrite find_fit_loop_eq.
    destruct (Z.eqb_spec c NULL) as [?|_]; [contradiction|].
    destruct fuel as [|k]; [cbn [length]; lia|]. cbv zeta.
    assert (Hcfl : In c fl) by (rewrite Efl; apply in_or_app; right; left; reflexivity).
    destruct (rep_free_block _ _ _ c R Hcfl) as (pc & Hpc & _).
    destruct (hdrs_In _ _ _ (rep_hdrs _ _ _ R) Hpc) as (Hp & _).
    destruct (rep_block_bounds _ _ _ _ R Hpc) as (_ & _ & _ & _ & Bs).
    cbn [b_addr b_size] in *. unfold Header_payload. rewrite Hp.
    destruct (Z.leb_spec req pc) as [Hfit|Hno].
    + right. split; [exact Hnz|].
      destruct (in_split _ _ Hpc) as (L1 & L2 & EL).
      exists L1, L2, l1, l2, pc.
      split; [exact EL|]. split; [exact Efl|]. split; [exact Hsmall|].
      split; [exact Hp|]. split; [exact Hfit|].
      unfold MIN_BLOCK_SIZE, MIN_PAYLOAD_SIZE in *.
      rewrite (u64_small (req + 24)) by lia.
      destruct (Z.leb_spec (req + 24) pc) as [Hsplit|Hnosplit].
      * split; [reflexivity|].
        assert (R0 := R). rewrite EL in R0.
        destruct (partition_rep _ _ _ _ _ _ req _ R0) as (R1 & _);
          [unfold MIN_PAYLOAD_SIZE; lia | unfold MIN_BLOCK_SIZE; lia |].
        rewrite Efl in R1.
        apply (remove_block_rep _ _ _ _ _ ((c + req + HEADER_SIZE) :: l1) l2) in R1.
        exact (proj1 R1).
      * split; [reflexivity|].
        assert (R0 := R). rewrite EL, Efl in R0.
        apply remove_block_rep in R0. exact (proj1 R0).
    + unfold Pointers_next, get_payload_ptr, HEADER_SIZE. rewrite add_8_8.
      specialize (IH (l1 ++ [c]) c (load 8 (mem st) (c + 16)) k).
      feed IH.
      { rewrite <- app_assoc. exact Efl. }
      { exact Hl. }
      { intros a Ha. apply in_app_or in Ha. destruct Ha as [Ha|[<-|[]]]; [auto|].
        unfold Header_payload. lia. }
      destruct (find_fit_loop k req st (load 8 (mem st) (c + 16))) as [[r st']|];
        [exact IH | cbn [length]; lia].
Qed.

(** ** Rounding up to the alignment *)

Lemma u64_range x : 0 <= u64 x < 2 ^ 64.
Proof. apply Z.mod_pos_bound. lia. Qed.

Lemma align_range size mult : 0 <= align size mult < 2 ^ 64.
Proof.
  unfold align.
  pose proof (u64_range (size + u64 (mult - 1))) as H1.
  pose proof (u64_range (Z.lnot (u64 (mult - 1)))) as H2.
  set (x := u64 (size + u64 (mult - 1))) in *.
  set (y := u64 (Z.lnot (u64 (mult - 1)))) in *.
  assert (H0 : 0 <= Z.land x y) by (apply Z.land_nonneg; lia).
  split; [exact H0|].
  destruct (Z.eq_dec (Z.land x y) 0) as [E|E]; [rewrite E; lia|].
  apply Z.log2_lt_pow2; [lia|].
  pose proof (Z.log2_land x y (proj1 H1) (proj1 H2)) as Hl.
  destruct (Z.eq_dec x 0) as [Ex|Ex].
  - exfalso. apply E. rewrite Ex. apply Z.land_0_l.
  - assert (Z.log2 x < 64) by (apply Z.log2_lt_pow2; lia). lia.
Qed.

(** For a power of two the C expression clears the low bits of the sum. *)
Lemma align_pow2 size k :
  0 <= k < 64 ->
  align size (2 ^ k) = 2 ^ k * (u64 (size + (2 ^ k - 1)) / 2 ^ k).
Proof.
  intros Hk. unfold align.
  assert (Hp : 0 < 2 ^ k <= 2 ^ 63).
  { split; [apply Z.pow_pos_nonneg; lia|]. apply Z.pow_le_mono_r; lia. }
  rewrite (u64_small (2 ^ k - 1)) by lia.
  pose proof (u64_range (size + (2 ^ k - 1))) as Hx.
  set (x := u64 (size + (2 ^ k - 1))) in *.
  assert (E : Z.land x (u64 (Z.lnot (2 ^ k - 1))) = Z.land x (Z.lnot (Z.ones k))).
  { rewrite Z.ones_equiv, <- Z.sub_1_r. apply Z.bits_inj'. intros i Hi.
    rewrite !Z.land_spec. destruct (Z_lt_dec i 64) as [Hlt|Hge].
    - unfold u64. rewrite Z.mod_pow2_bits_low by lia. reflexivity.
    - assert (Hxi : Z.testbit x i = false).
      { destruct (Z.eq_dec x 0) as [->|Hne]; [apply Z.bits_0|].
        apply Z.bits_above_log2; [lia|].
        assert (Z.log2 x < 64) by (apply Z.log2_lt_pow2; lia). lia. }
      rewrite Hxi. reflexivity. }
  rewrite E, <- Z.ldiff_land, Z.ldiff_ones_r by lia.
  rewrite Z.shiftl_mul_pow2, Z.shiftr_div_pow2 by lia. lia.
Qed.

Lemma align_multiple size k : 0 <= k < 64 -> align size (2 ^ k) mod 2 ^ k = 0.
Proof.
  intros Hk. rewrite align_pow2 by exact Hk. rewrite Z.mul_comm. apply Z.mod_mul.
  apply Z.pow_nonzero; lia.
Qed.

(** Without wrap-around the result is the least multiple that covers [size]. *)
Lemma align_round_up size k :
  0 <= k < 64 -> 0 <= size -> size + 2 ^ k <= 2 ^ 64 ->
  align size (2 ^ k) = 2 ^ k * ((size + (2 ^ k - 1)) / 2 ^ k) /\
  size <= align size (2 ^ k) < size + 2 ^ k.
Proof.
  intros Hk Hs Hb.
  assert (Hp : 0 < 2 ^ k) by (apply Z.pow_pos_nonneg; lia).
  rewrite align_pow2 by exact Hk. rewrite u64_small by lia.
  split; [reflexivity|].
  pose proof (Z.div_mod (size + (2 ^ k - 1)) (2 ^ k) ltac:(lia)) as Hd.
  pose proof (Z.mod_pos_bound (size + (2 ^ k - 1)) (2 ^ k) Hp) as Hm.
  lia.
Qed.

(** ** How the operations rearrange the layout *)

Lemma trans_one L L' : step L L' -> trans L L'.
Proof. intros H. eapply trans_step; [exact H | apply trans_refl]. Qed.

Lemma trans_trans L L' L'' : trans L L' -> trans L' L'' -> trans L L''.
Proof.
  induction 1 as [|L0 L1 L2 Hs Ht IH]; intros H; [exact H|].
  eapply trans_step; [exact Hs | apply IH; exact H].
Qed.

Lemma trans_absorb L1 b f R' F :
  Forall (fun d => b_used d = false) F ->
  forall p, trans (L1 ++ mkBlock b p f :: F ++ R')
                  (L1 ++ mkBlock b (p + absorbed F) f :: R').
Proof.
  induction 1 as [|d F Hd HF IH]; intros p.
  - change (absorbed []) with 0. rewrite Z.add_0_r. apply trans_refl.
  - destruct d as [c pc fc]. cbn [b_used] in Hd. subst fc.
    eapply trans_step; [apply (step_merge L1 (F ++ R') b p f c pc)|].
    change (absorbed (mkBlock c pc false :: F))
      with (footprint (mkBlock c pc false) + absorbed F).
    unfold footprint. cbn [b_size].
    replace (p + (HEADER_SIZE + pc + absorbed F)) with (p + pc + HEADER_SIZE + absorbed F)
      by lia.
    apply IH.
Qed.

Lemma free_prefix (Rest : list block) :
  exists F R', Rest = F ++ R' /\ Forall (fun d => b_used d = false) F /\ stops_here R'.
Proof.
  induction Rest as [|d Rest IH].
  - exists [], []. repeat split; constructor.
  - destruct (b_used d) eqn:E.
    + exists [], (d :: Rest). repeat split; [constructor | exact E].
    + destruct IH as (F & R' & -> & HF & Hs).
      exists (d :: F), R'. repeat split; [constructor; assumption | exact Hs].
Qed.

Lemma aligned_size_range n : MIN_PAYLOAD_SIZE <= aligned_size n < 2 ^ 64.
Proof.
  unfold aligned_size. pose proof (align_range n ALIGNMENT).
  unfold MIN_PAYLOAD_SIZE. destruct (Z.ltb_spec (align n ALIGNMENT) 16); lia.
Qed.

Lemma fit_result_trans st L fl n r st' :
  fit_result st L fl (aligned_size n) r st' ->
  exists L' fl', rep st' L' fl' /\ trans L L' /\
    (length L' <= S (length L))%nat /\
    exists p, In (mkBlock r p true) L' /\ aligned_size n <= p /\
      forall d, In d L -> b_used d = true -> In d L'.
Proof.
  intros (L1 & L2 & l1 & l2 & p & EL & Efl & Hsm & Hp & Hfit & Hres).
  destruct (aligned_size n + MIN_BLOCK_SIZE <=? p).
  - destruct Hres as (_ & R'). eexists _, _. split; [exact R'|]. split.
    + rewrite EL. eapply trans_step; [apply (step_split L1 L2 r p false n)|].
      apply trans_one.
      apply (step_flag L1 (_ :: L2) r (aligned_size n) false true).
    + split; [rewrite EL, !length_app; cbn [length]; lia|].
      exists (aligned_size n). split; [apply in_or_app; right; left; reflexivity|].
      split; [lia|]. intros d Hd Hu. rewrite EL in Hd. apply in_app_or in Hd.
      apply in_or_app. destruct Hd as [Hd|[Hd|Hd]];
        [left; exact Hd | subst d; discriminate | right; right; right; exact Hd].
  - destruct Hres as (_ & R'). eexists _, _. split; [exact R'|]. split.
    + rewrite EL. apply trans_one. apply step_flag.
    + split; [rewrite EL, !length_app; cbn [length]; lia|].
      exists p. split; [apply in_or_app; right; left; reflexivity|].
      split; [lia|]. intros d Hd Hu. rewrite EL in Hd. apply in_app_or in Hd.
      apply in_or_app. destruct Hd as [Hd|[Hd|Hd]];
        [left; exact Hd | subst d; discriminate | right; right; exact Hd].
Qed.

(** Writing into the payload of allocated blocks keeps the representation. *)
Lemma rep_frame_payload st m' L fl :
  rep st L fl ->
  (forall x, m' x = mem st x \/
             exists b p, In (mkBlock b p true) L /\ b + 8 <= x < b + 8 + p) ->
  rep (with_mem m' st) L fl.
Proof.
  intros R Hm. pose proof (rep_chain _ _ _ R) as Hc.
  constructor; try apply R; cbn [with_mem mem free_list_start].
  - eapply hdrs_frame; [apply (rep_hdrs _ _ _ R)|]. intros d x Hd Hx.
    destruct (Hm x) as [E|(b & p & Hb & Hr)]; [exact E|]. exfalso.
    apply (hdr_not_payload _ _ _ d _ x Hc Hd Hb Hx).
    unfold footprint, HEADER_SIZE. cbn [b_addr b_size]. lia.
  - eapply lseg_frame; [apply (rep_list _ _ _ R)|]. intros c x Hcfl Hx.
    destruct (Hm x) as [E|(b & p & Hb & Hr)]; [exact E|]. exfalso.
    pose proof (free_vs_block _ _ _ _ _ R Hb Hcfl) as X.
    unfold footprint, HEADER_SIZE in X. cbn [b_addr b_size b_used] in X.
    destruct X as [[_ ?]|[?|?]]; [discriminate | lia | lia].
Qed.

(** ** The four entry points and the representation *)

Lemma myinit_rep heap_start heap_size st0 :
  0 < heap_start -> heap_start + heap_size <= 2 ^ 64 ->
  MIN_BLOCK_SIZE <= heap_size -> heap_size - HEADER_SIZE < 2 ^ 32 ->
  fst (myinit heap_start heap_size st0) = true /\
  rep (snd (myinit heap_start heap_size st0))
      [mkBlock heap_start (heap_size - HEADER_SIZE) false] [heap_start].
Proof.
  intros Hs He Hmin Hmax. unfold myinit, MIN_BLOCK_SIZE, HEADER_SIZE in *.
  destruct (Z.leb_spec heap_size 8) as [?|_]; [lia|]. cbv zeta.
  assert (Ep : u32 (u64 (heap_size - 8)) = heap_size - 8).
  { unfold u32, u64. rewrite (Z.mod_small (heap_size - 8) (2 ^ 64)) by lia.
    apply Z.mod_small. lia. }
  rewrite Ep. split; [reflexivity|]. cbn [snd].
  constructor; unfold_state.
  - exact Hs.
  - exact He.
  - lia.
  - cbn [chain b_addr b_size]. unfold footprint, HEADER_SIZE, MIN_PAYLOAD_SIZE.
    cbn [b_size]. repeat split; lia.
  - constructor; [|constructor]. cbn [b_addr b_size b_used flag].
    split; mem_simpl; reflexivity.
  - cbn [lseg]. unfold NULL. mem_simpl. repeat split; lia.
  - constructor; [intros []|constructor].
  - intros a. cbn [In]. split.
    + intros [<-|[]]. eexists. left. reflexivity.
    + intros (p & [E|[]]). injection E as Ea _. left. exact Ea.
Qed.

Lemma rep_free_length st L fl : rep st L fl -> (length fl <= length L)%nat.
Proof.
  intros R. rewrite <- (length_map b_addr L).
  apply NoDup_incl_length; [apply (rep_nodup _ _ _ R)|].
  intros a Ha. apply (rep_free _ _ _ R) in Ha. destruct Ha as (p & Hp).
  apply (in_map b_addr) in Hp. exact Hp.
Qed.

Lemma mymalloc_rep st L fl n fuel :
  rep st L fl ->
  match mymalloc fuel n st with
  | None => (fuel < length fl)%nat
  | Some (r, st') =>
    (r = NULL /\ st' = st) \/
    (exists b, r = b + HEADER_SIZE /\ b <> NULL /\
               fit_result st L fl (aligned_size n) b st')
  end.
Proof.
  intros R. unfold mymalloc.
  destruct ((MAX_REQUEST_SIZE <? n) || (n =? 0)); [left; auto|].
  cbv zeta. fold (aligned_size n). unfold find_fit.
  pose proof (find_fit_loop_rep st L fl (aligned_size n) R (aligned_size_range n)
                fl [] NULL (free_list_start st) fuel eq_refl (rep_list _ _ _ R)) as X.
  feed X; [intros c []|].
  destruct (find_fit_loop fuel (aligned_size n) st (free_list_start st)) as [[r st']|];
    [|exact X].
  destruct X as [(-> & -> & _)|(Hr & Hfit)].
  - cbn. left. auto.
  - destruct (Z.eqb_spec r NULL) as [?|_]; [contradiction|]. cbn [negb].
    right. exists r. auto.
Qed.

Lemma myfree_rep_at st fl L1 b p F R' fuel :
  rep st (L1 ++ mkBlock b p true :: F ++ R') fl ->
  Forall (fun d => b_used d = false) F -> stops_here R' ->
  match myfree fuel (b + HEADER_SIZE) st with
  | None => (fuel < length F)%nat
  | Some st' =>
    rep st' (L1 ++ mkBlock b (p + absorbed F) false :: R') (b :: remove_all F fl)
  end.
Proof.
  intros R HF Hs.
  assert (Hin : In (mkBlock b p true) (L1 ++ mkBlock b p true :: F ++ R'))
    by (apply in_or_app; right; left; reflexivity).
  destruct (rep_block_bounds _ _ _ _ R Hin) as (_ & Hpos & _).
  destruct (hdrs_In _ _ _ (rep_hdrs _ _ _ R) Hin) as (Hp & _).
  cbn [b_addr b_size] in *.
  unfold myfree, coalesce_right.
  replace (b + HEADER_SIZE - HEADER_SIZE) with b by lia.
  destruct (Z.eqb_spec (b + HEADER_SIZE) NULL) as [E|_];
    [unfold HEADER_SIZE, NULL in E; lia|].
  destruct (Z.eqb_spec b NULL) as [E|_]; [unfold NULL in E; lia|].
  cbn [negb]. unfold Header_payload. rewrite Hp.
  pose proof (coalesce_loop_rep L1 b R' F HF Hs fuel st p fl R) as X.
  destruct (coalesce_loop fuel b st (b + p + HEADER_SIZE)) as [st1|]; [|exact X].
  destruct X as (R1 & _ & _). apply free_block_rep. exact R1.
Qed.

Lemma myfree_rep st L fl b p fuel :
  rep st L fl -> In (mkBlock b p true) L ->
  match myfree fuel (b + HEADER_SIZE) st with
  | None => (S fuel < length L)%nat
  | Some st' =>
    exists L1 F R',
      L = L1 ++ mkBlock b p true :: F ++ R' /\
      Forall (fun d => b_used d = false) F /\ stops_here R' /\
      rep st' (L1 ++ mkBlock b (p + absorbed F) false :: R') (b :: remove_all F fl)
  end.
Proof.
  intros R Hin.
  destruct (in_split _ _ Hin) as (L1 & Rest & EL).
  destruct (free_prefix Rest) as (F & R' & -> & HF & Hs).
  assert (R0 := R). rewrite EL in R0.
  pose proof (myfree_rep_at _ _ _ _ _ _ _ fuel R0 HF Hs) as X.
  destruct (myfree fuel (b + HEADER_SIZE) st) as [st'|].
  - exists L1, F, R'. auto.
  - rewrite EL, !length_app. cbn [length]. rewrite length_app. lia.
Qed.

Lemma copy_bytes_cases m dst src n x :
  copy_bytes m dst src n x = m x \/ dst <= x < dst + n.
Proof.
  unfold copy_bytes.
  destruct (Z.leb_spec dst x); destruct (Z.ltb_spec x (dst + n)); cbn [andb];
    (right; lia) || (left; reflexivity).
Qed.

Lemma myfree_trans st L fl b p fuel :
  rep st L fl -> In (mkBlock b p true) L ->
  match myfree fuel (b + HEADER_SIZE) st with
  | None => (S fuel < length L)%nat
  | Some st' => exists L' fl', rep st' L' fl' /\ trans L L'
  end.
Proof.
  intros R Hin. pose proof (myfree_rep _ _ _ _ _ fuel R Hin) as X.
  destruct (myfree fuel (b + HEADER_SIZE) st) as [st'|]; [|exact X].
  destruct X as (L1 & F & R' & -> & HF & Hs & R1).
  eexists _, _. split; [exact R1|].
  eapply trans_trans; [apply trans_absorb; exact HF|].
  apply trans_one. apply step_flag.
Qed.

Lemma myrealloc_rep st L fl ptr n fuel :
  rep st L fl ->
  (ptr = NULL \/ exists p, In (mkBlock (ptr - HEADER_SIZE) p true) L) ->
  match myrealloc fuel ptr n st with
  | None => (fuel < length L)%nat
  | Some (r, st') => exists L' fl', rep st' L' fl' /\ trans L L'
  end.
Proof.
  intros R Hptr. unfold myrealloc.
  pose proof (rep_free_length _ _ _ R) as Hlen.
  destruct ((ptr =? NULL) || (n =? 0)) eqn:Enull.
  { pose proof (mymalloc_rep st L fl n fuel R) as X.
    destruct (mymalloc fuel n st) as [[r st']|]; [|lia].
    destruct X as [(_ & ->)|(b & _ & _ & Hfit)].
    - exists L, fl. split; [exact R | apply trans_refl].
    - destruct (fit_result_trans _ _ _ _ _ _ Hfit) as (L' & fl' & R' & T & _).
      exists L', fl'. auto. }
  apply orb_false_elim in Enull. destruct Enull as (Enull & _).
  apply Z.eqb_neq in Enull. destruct Hptr as [?|(p & Hin)]; [contradiction|].
  set (b := ptr - HEADER_SIZE) in *.
  assert (Eptr : ptr = b + HEADER_SIZE) by (subst b; lia).
  destruct (rep_block_bounds _ _ _ _ R Hin) as (_ & Hpos & _ & _ & Hsz).
  destruct (hdrs_In _ _ _ (rep_hdrs _ _ _ R) Hin) as (Hp & _).
  cbn [b_addr b_size] in *. cbv zeta. fold (aligned_size n).
  pose proof (aligned_size_range n) as Ht. set (t := aligned_size n) in *.
  change (Header_payload st b = p) in Hp. rewrite !Hp.
  unfold MIN_PAYLOAD_SIZE, MIN_BLOCK_SIZE in *.
  destruct (Z.eqb_spec p t) as [Ept|Hne].
  { exists L, fl. split; [exact R | apply trans_refl]. }
  destruct (Z.ltb_spec t p) as [Hlt|Hge]; cbn [andb].
  - (* the block is larger than needed *)
    rewrite (u64_small (t + 24)) by lia.
    destruct (Z.ltb_spec p (t + 24)) as [Hslack|Hsplit].
    + exists L, fl. split; [exact R | apply trans_refl].
    + destruct (Z.leb_spec (t + 24) p) as [_|?]; [|lia].
      destruct (in_split _ _ Hin) as (L1 & L2 & EL).
      assert (R0 := R). rewrite EL in R0.
      destruct (partition_rep _ _ _ _ _ _ t _ R0) as (R1 & _);
        [unfold MIN_PAYLOAD_SIZE; lia | unfold MIN_BLOCK_SIZE; lia |].
      eexists _, _. split; [exact R1|]. rewrite EL. apply trans_one.
      apply (step_split L1 L2 b p true n).
  - (* the block is too small: grow in place, or move *)
    destruct (Z.ltb_spec p t) as [Hlt|?]; [|lia].
    destruct (in_split _ _ Hin) as (L1 & Rest & EL).
    destruct (free_prefix Rest) as (F & R' & -> & HF & Hs).
    unfold coalesce_right.
    destruct (Z.eqb_spec b NULL) as [E|_]; [unfold NULL in E; lia|].
    rewrite !Hp.
    assert (R0 := R). rewrite EL in R0.
    pose proof (coalesce_loop_rep L1 b R' F HF Hs fuel st p fl R0) as X.
    destruct (coalesce_loop fuel b st (b + p + HEADER_SIZE)) as [st1|];
      [|rewrite EL, !length_app; cbn [length]; rewrite length_app; lia].
    destruct X as (R1 & _ & _).
    assert (T1 : trans L (L1 ++ mkBlock b (p + absorbed F) true :: R')).
    { rewrite EL. apply trans_absorb. exact HF. }
    set (Lc := L1 ++ mkBlock b (p + absorbed F) true :: R') in *.
    assert (Hin1 : In (mkBlock b (p + absorbed F) true) Lc)
      by (apply in_or_app; right; left; reflexivity).
    destruct (rep_block_bounds _ _ _ _ R1 Hin1) as (_ & _ & _ & _ & Hsz1).
    destruct (hdrs_In _ _ _ (rep_hdrs _ _ _ R1) Hin1) as (Hp1 & _).
    cbn [b_addr b_size] in *. change (Header_payload st1 b = p + absorbed F) in Hp1.
    rewrite !Hp1.
    set (p1 := p + absorbed F) in *.
    assert (Hlc : (length Lc <= length L)%nat).
    { unfold Lc. rewrite EL, !length_app. cbn [length]. rewrite length_app. lia. }
    destruct (Z.leb_spec t p1) as [Hfit|Hsmall].
    + rewrite (u64_small (t + 24)) by lia.
      destruct (Z.leb_spec (t + 24) p1) as [Hsplit|Hslack].
      * destruct (partition_rep _ _ _ _ _ _ t _ R1) as (R2 & _);
          [unfold MIN_PAYLOAD_SIZE; lia | unfold MIN_BLOCK_SIZE; lia |].
        eexists _, _. split; [exact R2|].
        eapply trans_trans; [exact T1|]. apply trans_one.
        apply (step_split L1 R' b p1 true n).
      * eexists _, _. split; [exact R1 | exact T1].
    + pose proof (mymalloc_rep st1 Lc _ n fuel R1) as X.
      pose proof (rep_free_length _ _ _ R1) as Hlen1.
      destruct (mymalloc fuel n st1) as [[r st2]|]; [|lia].
      destruct X as [(-> & ->)|(b' & -> & Hb' & Hfitr)].
      * cbn. eexists _, _. split; [exact R1 | exact T1].
      * destruct (Z.eqb_spec (b' + HEADER_SIZE) NULL) as [E|_].
        { cbn [negb]. destruct (fit_result_trans _ _ _ _ _ _ Hfitr)
            as (L2 & fl2 & R2 & T2 & _).
          exists L2, fl2. split; [exact R2|]. eapply trans_trans; eauto. }
        cbn [negb].
        destruct (fit_result_trans _ _ _ _ _ _ Hfitr)
          as (L2 & fl2 & R2 & T2 & Hl2 & p' & Hin' & Hp' & Hkeep).
        fold t in Hp'.
        set (st3 := with_mem (copy_bytes (mem st2) (b' + HEADER_SIZE) ptr p) st2).
        assert (R3 : rep st3 L2 fl2).
        { apply rep_frame_payload; [exact R2|]. intros x.
          destruct (copy_bytes_cases (mem st2) (b' + HEADER_SIZE) ptr p x) as [E|E];
            [left; exact E|].
          right. exists b', p'. split; [exact Hin'|]. unfold HEADER_SIZE in E. lia. }
        assert (Hin3 : In (mkBlock b p1 true) L2) by (apply Hkeep; [exact Hin1 | reflexivity]).
        pose proof (myfree_trans st3 L2 fl2 b p1 fuel R3 Hin3) as X.
        rewrite Eptr. fold st3.
        destruct (myfree fuel (b + HEADER_SIZE) st3) as [st4|]; [|lia].
        destruct X as (L4 & fl4 & R4 & T4).
        exists L4, fl4. split; [exact R4|].
        eapply trans_trans; [exact T1|]. eapply trans_trans; eauto.
Qed.

(** ** The two walks on a represented heap *)

Lemma heap_walk_eq fuel st curr_block :
  heap_walk fuel st curr_block =
  if curr_block <? segment_end st then
    match fuel with
    | O => None
    | S k =>
      match heap_walk k st (curr_block + Header_payload st curr_block + HEADER_SIZE) with
      | None => None
      | Some (bs, stop) =>
        Some (mkBlock curr_block (Header_payload st curr_block)
                      (negb (Header_allocated st curr_block =? 0)) :: bs, stop)
      end
    end
  else Some ([], curr_block).
Proof. destruct fuel; reflexivity. Qed.

Lemma free_walk_eq fuel st curr_free :
  free_walk fuel st curr_free =
  if curr_free =? NULL then Some []
  else
    match fuel with
    | O => None
    | S k =>
      match free_walk k st (Pointers_next st (get_payload_ptr curr_free)) with
      | None => None
      | Some l => Some (curr_free :: l)
      end
    end.
Proof. destruct fuel; reflexivity. Qed.

Lemma heap_walk_chain st L :
  forall s fuel,
  chain s L (segment_end st) -> hdrs (mem st) L ->
  match heap_walk fuel st s with
  | Some (L', stop) => L' = L /\ stop = segment_end st
  | None => (fuel < length L)%nat
  end.
Proof.
  induction L as [|d L IH]; intros s fuel Hc Hh; rewrite heap_walk_eq.
  - cbn [chain] in Hc. subst s. rewrite Z.ltb_irrefl. auto.
  - cbn [chain] in Hc. destruct Hc as (Ha & Hs & Hc).
    apply Forall_cons_iff in Hh. destruct Hh as ((Hp & Hf) & Hh).
    pose proof (chain_le _ _ _ Hc) as Hle.
    unfold footprint, HEADER_SIZE, MIN_PAYLOAD_SIZE in *.
    destruct (Z.ltb_spec s (segment_end st)) as [_|?]; [|lia].
    destruct fuel as [|k]; [cbn [length]; lia|].
    unfold Header_payload, Header_allocated. rewrite <- Ha, Hp, Hf.
    replace (b_addr d + b_size d + 8) with (s + (8 + b_size d)) by lia.
    specialize (IH _ k Hc Hh).
    destruct (heap_walk k st (s + (8 + b_size d))) as [[bs stop]|]; [|cbn [length]; lia].
    destruct IH as (-> & ->). split; [|reflexivity]. f_equal.
    destruct d as [a p f]. cbn [b_addr b_size b_used]. destruct f; reflexivity.
Qed.

Lemma free_walk_lseg st l :
  forall prev h fuel,
  lseg (mem st) prev h l NULL ->
  match free_walk fuel st h with
  | Some l' => l' = l
  | None => (fuel < length l)%nat
  end.
Proof.
  induction l as [|c l IH]; intros prev h fuel Hl; rewrite free_walk_eq;
    cbn [lseg] in Hl.
  - subst h. rewrite Z.eqb_refl. reflexivity.
  - destruct Hl as (-> & Hnz & _ & Hl).
    destruct (Z.eqb_spec c NULL) as [?|_]; [contradiction|].
    destruct fuel as [|k]; [cbn [length]; lia|].
    unfold Pointers_next, get_payload_ptr, HEADER_SIZE. rewrite add_8_8.
    specialize (IH _ _ k Hl).
    destruct (free_walk k st (load 8 (mem st) (c + 16))) as [l'|]; [|cbn [length]; lia].
    rewrite IH. reflexivity.
Qed.

Lemma rep_heap_walk st L fl fuel :
  rep st L fl ->
  match heap_walk fuel st (segment_start st) with
  | Some (L', stop) => L' = L /\ stop = segment_end st
  | None => (fuel < length L)%nat
  end.
Proof.
  intros R. apply heap_walk_chain; [apply (rep_chain _ _ _ R) | apply (rep_hdrs _ _ _ R)].
Qed.

Lemma rep_free_walk st L fl fuel :
  rep st L fl ->
  match free_walk fuel st (free_list_start st) with
  | Some l' => l' = fl
  | None => (fuel < length fl)%nat
  end.
Proof.
  intros R. apply (free_walk_lseg st fl NULL). apply (rep_list _ _ _ R).
Qed.

Lemma heap_walk_step st a p f k :
  a < segment_end st -> Header_payload st a = p -> Header_allocated st a = f ->
  heap_walk (S k) st a =
  match heap_walk k st (a + p + HEADER_SIZE) with
  | None => None
  | Some (bs, stop) => Some (mkBlock a p (negb (f =? 0)) :: bs, stop)
  end.
Proof.
  intros Hlt <- <-. rewrite heap_walk_eq.
  destruct (Z.ltb_spec a (segment_end st)); [reflexivity | lia].
Qed.

Lemma heap_walk_stop st a fuel :
  segment_end st <= a -> heap_walk fuel st a = Some ([], a).
Proof.
  intros Hge. rewrite heap_walk_eq.
  destruct (Z.ltb_spec a (segment_end st)); [lia | reflexivity].
Qed.

Lemma free_walk_step st c nx k :
  c <> NULL -> Pointers_next st (get_payload_ptr c) = nx ->
  free_walk (S k) st c =
  match free_walk k st nx with
  | None => None
  | Some l => Some (c :: l)
  end.
Proof.
  intros Hne <-. rewrite free_walk_eq.
  destruct (Z.eqb_spec c NULL); [contradiction | reflexivity].
Qed.

Lemma free_walk_null st fuel : free_walk fuel st NULL = Some [].
Proof. rewrite free_walk_eq. reflexivity. Qed.

(** ** Reachable states *)

Lemma live_rep st L fl ptr size :
  rep st L fl -> live st ptr size -> In (mkBlock (ptr - HEADER_SIZE) size true) L.
Proof.
  intros R (fuel & L' & stop & Hw & Hin).
  pose proof (rep_heap_walk st L fl fuel R) as X. rewrite Hw in X.
  destruct X as (-> & _). exact Hin.
Qed.

Lemma reachable_rep heap_start heap_size st :
  region_ok heap_start heap_size -> MIN_BLOCK_SIZE <= heap_size ->
  reachable heap_start heap_size st ->
  exists L fl, rep st L fl /\
               trans [mkBlock heap_start (heap_size - HEADER_SIZE) false] L.
Proof.
  intros (Hs & He & Hm) Hmin Hr.
  induction Hr as [st0 st Hi | st fuel n r st' Hr IH Hn Hop
                  | st fuel ptr st' Hr IH Hv Hop
                  | st fuel ptr n r st' Hr IH Hv Hn Hop
                  | st ptr size i v Hr IH Hl Hi].
  - destruct (myinit_rep heap_start heap_size st0 Hs He Hmin Hm) as (_ & R).
    rewrite Hi in R. cbn [snd] in R. eexists _, _. split; [exact R | apply trans_refl].
  - destruct IH as (L & fl & R & T).
    pose proof (mymalloc_rep st L fl n fuel R) as X. rewrite Hop in X.
    destruct X as [(_ & ->)|(b & _ & _ & Hfit)]; [eauto|].
    destruct (fit_result_trans _ _ _ _ _ _ Hfit) as (L' & fl' & R' & T' & _).
    exists L', fl'. split; [exact R' | eapply trans_trans; eauto].
  - destruct IH as (L & fl & R & T). destruct Hv as [->|(size & Hl)].
    + unfold myfree in Hop. rewrite Z.eqb_refl in Hop. cbn [negb] in Hop.
      injection Hop as <-. eauto.
    + pose proof (live_rep _ _ _ _ _ R Hl) as Hin.
      pose proof (myfree_trans st L fl _ size fuel R Hin) as X.
      replace (ptr - HEADER_SIZE + HEADER_SIZE) with ptr in X by lia.
      rewrite Hop in X. destruct X as (L' & fl' & R' & T').
      exists L', fl'. split; [exact R' | eapply trans_trans; eauto].
  - destruct IH as (L & fl & R & T).
    pose proof (myrealloc_rep st L fl ptr n fuel R) as X. feed X.
    { destruct Hv as [->|(size & Hl)]; [left; reflexivity|].
      right. exists size. apply (live_rep _ _ _ _ _ R Hl). }
    rewrite Hop in X. destruct X as (L' & fl' & R' & T').
    exists L', fl'. split; [exact R' | eapply trans_trans; eauto].
  - destruct IH as (L & fl & R & T). exists L, fl. split; [|exact T].
    apply rep_frame_payload; [exact R|]. intros x.
    destruct (store_cases 1 (mem st) (ptr + i) v x) as [E|E]; [left; exact E|].
    right. exists (ptr - HEADER_SIZE), size.
    split; [apply (live_rep _ _ _ _ _ R Hl)|]. unfold HEADER_SIZE. lia.
Qed.


(** ** Payload sizes stay multiples of the alignment *)

Lemma alignment_pow2 :
  0 < ALIGNMENT -> (ALIGNMENT | HEADER_SIZE) ->
  exists k, 0 <= k <= 3 /\ ALIGNMENT = 2 ^ k.
Proof.
  intros Hpos (c & Hc). unfold HEADER_SIZE in Hc.
  assert (Hcr : 1 <= c <= 8) by nia.
  assert (Hcs : c = 1 \/ c = 2 \/ c = 3 \/ c = 4 \/ c = 5 \/ c = 6 \/ c = 7 \/ c = 8)
    by lia.
  destruct Hcs as [-> | [-> | [-> | [-> | [-> | [-> | [-> | -> ]]]]]]].
  - exists 3. split; [lia|]. change (2 ^ 3) with 8. lia.
  - exists 2. split; [lia|]. change (2 ^ 2) with 4. lia.
  - lia.
  - exists 1. split; [lia|]. change (2 ^ 1) with 2. lia.
  - lia.
  - lia.
  - lia.
  - exists 0. split; [lia|]. change (2 ^ 0) with 1. lia.
Qed.

Lemma aligned_size_divide n :
  0 < ALIGNMENT -> (ALIGNMENT | HEADER_SIZE) -> (ALIGNMENT | aligned_size n).
Proof.
  intros Hpos Hdiv. destruct (alignment_pow2 Hpos Hdiv) as (k & Hk & E).
  unfold aligned_size, MIN_PAYLOAD_SIZE.
  destruct (align n ALIGNMENT <? 16).
  - destruct Hdiv as (c & Hc). exists (2 * c). unfold HEADER_SIZE in Hc. lia.
  - rewrite E at 2. rewrite align_pow2 by lia. rewrite <- E.
    exists (u64 (n + (ALIGNMENT - 1)) / ALIGNMENT). lia.
Qed.

Lemma step_aligned L L' :
  0 < ALIGNMENT -> (ALIGNMENT | HEADER_SIZE) ->
  step L L' -> sizes_aligned L -> sizes_aligned L'.
Proof.
  intros Hpos Hdiv Hs. unfold sizes_aligned.
  destruct Hs as [L1 L2 b p f n | L1 L2 b p f c pc | L1 L2 b p f f'];
    rewrite !Forall_app, !Forall_cons_iff; cbn [b_size].
  - intros (H1 & Hp & H2). pose proof (aligned_size_divide n Hpos Hdiv) as Ht.
    repeat split; auto.
    apply Z.divide_sub_r; [apply Z.divide_sub_r|]; assumption.
  - intros (H1 & Hp & Hpc & H2). repeat split; auto.
    apply Z.divide_add_r; [apply Z.divide_add_r|]; assumption.
  - tauto.
Qed.

Lemma trans_aligned L L' :
  0 < ALIGNMENT -> (ALIGNMENT | HEADER_SIZE) ->
  trans L L' -> sizes_aligned L -> sizes_aligned L'.
Proof.
  intros Hpos Hdiv Ht. induction Ht as [|L L' L'' Hs Ht IH]; [auto|].
  intros H. apply IH. eapply step_aligned; eauto.
Qed.

(** ** A heap that is one free block *)

Lemma myinit_single heap_start heap_size st0 :
  0 < heap_start -> HEADER_SIZE < heap_size -> heap_size - HEADER_SIZE < 2 ^ 32 ->
  myinit heap_start heap_size st0 = (true, snd (myinit heap_start heap_size st0)) /\
  single_free (snd (myinit heap_start heap_size st0)) /\
  Header_payload (snd (myinit heap_start heap_size st0)) heap_start =
    heap_size - HEADER_SIZE.
Proof.
  intros Hs Hgt Hm. unfold myinit, HEADER_SIZE in *.
  destruct (Z.leb_spec heap_size 8) as [?|_]; [lia|]. cbv zeta.
  assert (Ep : u32 (u64 (heap_size - 8)) = heap_size - 8).
  { unfold u32, u64. rewrite (Z.mod_small (heap_size - 8) (2 ^ 64)) by lia.
    apply Z.mod_small. lia. }
  rewrite Ep. split; [reflexivity|]. cbn [snd].
  unfold single_free. unfold_state. mem_simpl. repeat split; lia.
Qed.

Lemma myinit_tiny heap_start heap_size st0 st :
  region_ok heap_start heap_size -> heap_size < MIN_BLOCK_SIZE ->
  myinit heap_start heap_size st0 = (true, st) -> tiny st.
Proof.
  intros (Hs & He & Hm) Hsmall Hi.
  assert (Hgt : HEADER_SIZE < heap_size).
  { unfold myinit in Hi. destruct (Z.leb_spec heap_size HEADER_SIZE); [discriminate | lia]. }
  destruct (myinit_single heap_start heap_size st0 Hs Hgt Hm) as (_ & Hsf & Hp).
  rewrite Hi in Hsf, Hp. cbn [snd] in Hsf, Hp. split; [exact Hsf|].
  assert (E : segment_start st = heap_start).
  { unfold myinit in Hi. destruct (_ <=? _); [discriminate|]. injection Hi as <-. reflexivity. }
  rewrite E, Hp. unfold MIN_BLOCK_SIZE, MIN_PAYLOAD_SIZE, HEADER_SIZE in *. lia.
Qed.

Lemma single_heap_walk st fuel :
  single_free st ->
  match heap_walk fuel st (segment_start st) with
  | Some (L, stop) =>
    L = [mkBlock (segment_start st) (Header_payload st (segment_start st)) false] /\
    stop = segment_end st
  | None => fuel = O
  end.
Proof.
  intros (Hs & He & Ha & Hf & _ & Hn). rewrite heap_walk_eq.
  pose proof (load4_range (mem st) (segment_start st)) as Hr.
  fold (Header_payload st (segment_start st)) in Hr. unfold HEADER_SIZE in *.
  destruct (Z.ltb_spec (segment_start st) (segment_end st)) as [_|?]; [|lia].
  destruct fuel as [|k]; [reflexivity|].
  rewrite heap_walk_eq. rewrite <- He, Z.ltb_irrefl, Ha. auto.
Qed.

Lemma single_free_walk st fuel :
  single_free st ->
  match free_walk fuel st (free_list_start st) with
  | Some l => l = [segment_start st]
  | None => fuel = O
  end.
Proof.
  intros (Hs & He & Ha & Hf & _ & Hn). rewrite Hf, free_walk_eq.
  destruct (Z.eqb_spec (segment_start st) NULL) as [E|_]; [unfold NULL in E; lia|].
  destruct fuel as [|k]; [reflexivity|].
  rewrite Hn, free_walk_eq, Z.eqb_refl. reflexivity.
Qed.

Lemma tiny_not_live st ptr size : tiny st -> ~ live st ptr size.
Proof.
  intros (T & _) (fuel & L & stop & Hw & Hin).
  pose proof (single_heap_walk st fuel T) as X. rewrite Hw in X.
  destruct X as (-> & _). destruct Hin as [E|[]]. discriminate.
Qed.

Lemma tiny_mymalloc st fuel n r st' :
  tiny st -> mymalloc fuel n st = Some (r, st') -> r = NULL /\ st' = st.
Proof.
  intros ((Hs & He & Ha & Hf & _ & Hn) & Hp). unfold mymalloc.
  destruct ((MAX_REQUEST_SIZE <? n) || (n =? 0)).
  { intros E. injection E as <- <-. auto. }
  cbv zeta. fold (aligned_size n). pose proof (aligned_size_range n) as Ht.
  unfold find_fit. rewrite Hf, find_fit_loop_eq.
  destruct (Z.eqb_spec (segment_start st) NULL) as [E|_]; [unfold NULL in E; lia|].
  destruct fuel as [|k]; [discriminate|]. cbv zeta.
  destruct (Z.leb_spec (aligned_size n) (Header_payload st (segment_start st)));
    [lia|].
  rewrite Hn, find_fit_loop_eq, Z.eqb_refl. cbn.
  intros E. injection E as <- <-. auto.
Qed.

Lemma reachable_tiny heap_start heap_size st :
  region_ok heap_start heap_size -> heap_size < MIN_BLOCK_SIZE ->
  reachable heap_start heap_size st -> tiny st.
Proof.
  intros Hreg Hsmall Hr.
  induction Hr as [st0 st Hi | st fuel n r st' Hr IH Hn Hop
                  | st fuel ptr st' Hr IH Hv Hop
                  | st fuel ptr n r st' Hr IH Hv Hn Hop
                  | st ptr size i v Hr IH Hl Hi].
  - eapply myinit_tiny; eauto.
  - destruct (tiny_mymalloc _ _ _ _ _ IH Hop) as (_ & ->). exact IH.
  - destruct Hv as [->|(size & Hl)]; [|exfalso; eapply tiny_not_live; eauto].
    unfold myfree in Hop. rewrite Z.eqb_refl in Hop. cbn [negb] in Hop.
    injection Hop as <-. exact IH.
  - destruct Hv as [->|(size & Hl)]; [|exfalso; eapply tiny_not_live; eauto].
    unfold myrealloc in Hop. rewrite Z.eqb_refl in Hop. cbn [orb] in Hop.
    destruct (tiny_mymalloc _ _ _ _ _ IH Hop) as (_ & ->). exact IH.
  - exfalso; eapply tiny_not_live; eauto.
Qed.

(** ** The segment bounds never move *)

Lemma same_segment_refl st : same_segment st st.
Proof. repeat split. Qed.

Lemma same_segment_trans st1 st2 st3 :
  same_segment st1 st2 -> same_segment st2 st3 -> same_segment st1 st3.
Proof. unfold same_segment. intros (?&?&?) (?&?&?). repeat split; congruence. Qed.

Lemma add_block_seg b st : same_segment st (add_block b st).
Proof. unfold add_block. destruct (_ =? _); repeat split. Qed.

Lemma remove_block_seg b st : same_segment st (remove_block b st).
Proof.
  unfold remove_block.
  destruct (_ && _); [repeat split|].
  destruct (_ && _); [repeat split|].
  destruct (_ && _); repeat split.
Qed.

Lemma partition_seg b space q st : same_segment st (partition b space q st).
Proof.
  unfold partition. cbv zeta.
  eapply same_segment_trans; [|apply (same_segment_refl _)].
  destruct (add_block_seg (b + q + HEADER_SIZE)
              (set_Header_allocated (b + q + HEADER_SIZE) 0
                 (set_Header_payload (b + q + HEADER_SIZE)
                    (u32 (u64 (u64 (space - q) - HEADER_SIZE))) st))) as (H1 & H2 & H3).
  repeat split; assumption.
Qed.

Lemma find_fit_loop_seg fuel req st :
  forall h r st', find_fit_loop fuel req st h = Some (r, st') -> same_segment st st'.
Proof.
  induction fuel as [|k IH]; intros h r st'; rewrite find_fit_loop_eq;
    destruct (h =? NULL); try discriminate;
    try (intros E; injection E as _ <-; apply same_segment_refl).
  cbv zeta. destruct (req <=? Header_payload st h); [|apply IH].
  intros E. injection E as _ <-.
  eapply same_segment_trans; [|apply remove_block_seg].
  destruct (_ <=? _); [apply partition_seg | apply same_segment_refl].
Qed.

Lemma coalesce_loop_seg fuel b :
  forall st c st', coalesce_loop fuel b st c = Some st' -> same_segment st st'.
Proof.
  induction fuel as [|k IH]; intros st c st'; rewrite coalesce_loop_eq;
    destruct (_ && _); try discriminate;
    try (intros E; injection E as <-; apply same_segment_refl).
  cbv zeta. intros E. apply IH in E.
  eapply same_segment_trans; [|exact E].
  eapply same_segment_trans; [|apply remove_block_seg]. repeat split.
Qed.

Lemma mymalloc_seg fuel n st r st' :
  mymalloc fuel n st = Some (r, st') -> same_segment st st'.
Proof.
  unfold mymalloc, find_fit. destruct (_ || _).
  { intros E; injection E as _ <-; apply same_segment_refl. }
  cbv zeta. destruct (find_fit_loop _ _ _ _) as [[b st1]|] eqn:E; [|discriminate].
  apply find_fit_loop_seg in E. destruct (negb _); intros E'; injection E' as _ <-; exact E.
Qed.

Lemma myfree_seg fuel ptr st st' :
  myfree fuel ptr st = Some st' -> same_segment st st'.
Proof.
  unfold myfree, coalesce_right. destruct (negb _).
  2:{ intros E; injection E as <-; apply same_segment_refl. }
  destruct (_ =? _).
  - intros E; injection E as <-.
    destruct (add_block_seg (ptr - HEADER_SIZE) st) as (H1 & H2 & H3).
    repeat split; assumption.
  - destruct (coalesce_loop _ _ _ _) as [st1|] eqn:E; [|discriminate].
    apply coalesce_loop_seg in E. intros E'; injection E' as <-.
    eapply same_segment_trans; [exact E|].
    destruct (add_block_seg (ptr - HEADER_SIZE) st1) as (H1 & H2 & H3).
    repeat split; assumption.
Qed.

Lemma coalesce_right_seg fuel b st st' :
  coalesce_right fuel b st = Some st' -> same_segment st st'.
Proof.
  unfold coalesce_right. destruct (_ =? _).
  - intros E; injection E as <-; apply same_segment_refl.
  - apply coalesce_loop_seg.
Qed.

Lemma myrealloc_seg fuel ptr n st r st' :
  myrealloc fuel ptr n st = Some (r, st') -> same_segment st st'.
Proof.
  unfold myrealloc. destruct (_ || _); [apply mymalloc_seg|]. cbv zeta.
  destruct (_ =? _); [intros E; injection E as _ <-; apply same_segment_refl|].
  destruct (_ && _); [intros E; injection E as _ <-; apply same_segment_refl|].
  destruct (_ && _); [intros E; injection E as _ <-; apply partition_seg|].
  destruct (_ <? _); [|intros E; injection E as _ <-; apply same_segment_refl].
  destruct (coalesce_right _ _ _) as [st1|] eqn:E1; [|discriminate].
  apply coalesce_right_seg in E1.
  destruct (_ <=? _).
  { intros E; injection E as _ <-. eapply same_segment_trans; [exact E1|].
    destruct (_ <=? _); [apply partition_seg | apply same_segment_refl]. }
  destruct (mymalloc _ _ _) as [[rb st2]|] eqn:E2; [|discriminate].
  apply mymalloc_seg in E2.
  destruct (negb _).
  - destruct (myfree _ _ _) as [st4|] eqn:E4; [|discriminate].
    apply myfree_seg in E4. intros E; injection E as _ <-.
    eapply same_segment_trans; [exact E1|]. eapply same_segment_trans; [exact E2|].
    destruct E4 as (H1 & H2 & H3). repeat split; assumption.
  - intros E; injection E as _ <-. eapply same_segment_trans; eauto.
Qed.

Lemma reachable_segment heap_start heap_size st :
  reachable heap_start heap_size st ->
  segment_start st = heap_start /\ segment_end st = heap_start + heap_size.
Proof.
  intros Hr.
  induction Hr as [st0 st Hi | st fuel n r st' Hr IH Hn Hop
                  | st fuel ptr st' Hr IH Hv Hop
                  | st fuel ptr n r st' Hr IH Hv Hn Hop
                  | st ptr size i v Hr IH Hl Hi].
  - unfold myinit in Hi. destruct (_ <=? _); [discriminate|].
    injection Hi as <-. split; reflexivity.
  - apply mymalloc_seg in Hop. destruct Hop as (H1 & H2 & _). rewrite H1, H2. exact IH.
  - apply myfree_seg in Hop. destruct Hop as (H1 & H2 & _). rewrite H1, H2. exact IH.
  - apply myrealloc_seg in Hop. destruct Hop as (H1 & H2 & _). rewrite H1, H2. exact IH.
  - exact IH.
Qed.

(** ** What the walks of a state yield *)

Lemma chain_cover s L e x :
  chain s L e -> s <= x < e -> exists d, In d L /\ covers d x.
Proof.
  revert s. induction L as [|d L IH]; intros s; cbn [chain].
  - lia.
  - intros (Ha & Hs & Hc) Hx.
    destruct (Z_lt_dec x (s + footprint d)) as [Hlt|Hge].
    + exists d. split; [left; reflexivity|]. unfold covers. lia.
    + destruct (IH _ Hc ltac:(lia)) as (d' & Hin & Hcov).
      exists d'. split; [right; exact Hin | exact Hcov].
Qed.

Lemma chain_cover_unique s L e x d d' :
  chain s L e -> In d L -> In d' L -> covers d x -> covers d' x -> d' = d.
Proof.
  unfold covers. intros Hc Hd Hd' Hx Hx'.
  destruct (chain_sep _ _ _ _ _ Hc Hd Hd') as [E|[E|E]]; [auto | lia | lia].
Qed.

(** On every reachable state the physical walk yields blocks that tile the
    segment, and the free-list walk yields, without repetition, exactly the
    addresses of the blocks whose header says unallocated. *)
Lemma reachable_walks heap_start heap_size st :
  region_ok heap_start heap_size -> reachable heap_start heap_size st ->
  exists L fl,
    walk_yields st L /\ free_list_yields st fl /\
    (forall x, segment_start st <= x < segment_end st ->
       exists d, In d L /\ covers d x /\
                 forall d', In d' L -> covers d' x -> d' = d) /\
    NoDup fl /\
    (forall d, In d L -> (b_used d = false <-> In (b_addr d) fl)).
Proof.
  intros Hreg Hr.
  destruct (Z_lt_dec heap_size MIN_BLOCK_SIZE) as [Hsmall|Hbig].
  - pose proof (reachable_tiny _ _ _ Hreg Hsmall Hr) as T.
    exists [mkBlock (segment_start st) (Header_payload st (segment_start st)) false],
           [segment_start st].
    split; [|split; [|split; [|split]]].
    + intros fuel. pose proof (single_heap_walk st fuel (proj1 T)) as X.
      destruct (heap_walk fuel st (segment_start st)) as [[L stop]|];
        [exact X | subst fuel; cbn [length]; lia].
    + intros fuel. pose proof (single_free_walk st fuel (proj1 T)) as X.
      destruct (free_walk fuel st (free_list_start st)) as [l|];
        [exact X | subst fuel; cbn [length]; lia].
    + destruct T as ((Hs & He & _) & Hp). intros x Hx. eexists. split; [left; reflexivity|].
      split.
      * unfold covers, footprint. cbn [b_addr b_size]. lia.
      * intros d' [<-|[]] _. reflexivity.
    + constructor; [intros []|constructor].
    + intros d [<-|[]]. cbn [b_used b_addr]. split; [left; reflexivity | reflexivity].
  - destruct (reachable_rep _ _ _ Hreg ltac:(lia) Hr) as (L & fl & R & _).
    pose proof (rep_chain _ _ _ R) as Hc.
    exists L, fl. split; [|split; [|split; [|split]]].
    + intros fuel. apply (rep_heap_walk _ _ _ fuel R).
    + intros fuel. apply (rep_free_walk _ _ _ fuel R).
    + intros x Hx. destruct (chain_cover _ _ _ _ Hc Hx) as (d & Hd & Hcov).
      exists d. split; [exact Hd|]. split; [exact Hcov|].
      intros d' Hd' Hcov'. apply (chain_cover_unique _ _ _ x d d' Hc); assumption.
    + apply (rep_nodup _ _ _ R).
    + intros d Hd. split.
      * intros Hu. apply (rep_free _ _ _ R). exists (b_size d).
        destruct d as [a p f]. cbn [b_used b_addr b_size] in *. subst f. exact Hd.
      * intros Hin. apply (rep_free _ _ _ R) in Hin. destruct Hin as (p & Hp).
        assert (E : mkBlock (b_addr d) p false = d)
          by (apply (chain_addr_inj _ _ _ _ _ Hc Hp Hd); reflexivity).
        rewrite <- E. reflexivity.
Qed.

(** * The claims *)

(** ** Invariants of reachable states *)

(** C3 (amended).  When the alignment is positive and divides the header
    size, and the segment handed to [myinit] is a real region whose initial
    payload (length minus header) is at least the minimum payload size and a
    multiple of the alignment, then in every reachable state every block met
    by the physical walk has a payload size that is a multiple of the
    alignment and at least the minimum payload size. *)
Theorem payload_sizes_invariant heap_start heap_size st :
  0 < ALIGNMENT -> (ALIGNMENT | HEADER_SIZE) ->
  region_ok heap_start heap_size ->
  MIN_BLOCK_SIZE <= heap_size -> (ALIGNMENT | heap_size - HEADER_SIZE) ->
  reachable heap_start heap_size st ->
  exists L, walk_yields st L /\
    forall d, In d L -> b_size d mod ALIGNMENT = 0 /\ MIN_PAYLOAD_SIZE <= b_size d.
Proof.
  intros Hpos Hdiv Hreg Hmin Hal Hr.
  destruct (reachable_rep _ _ _ Hreg Hmin Hr) as (L & fl & R & T).
  exists L. split; [intros fuel; apply (rep_heap_walk _ _ _ fuel R)|].
  assert (HA : sizes_aligned L).
  { apply (trans_aligned _ _ Hpos Hdiv T). constructor; [exact Hal | constructor]. }
  intros d Hd. split.
  - unfold sizes_aligned in HA. rewrite Forall_forall in HA.
    apply Z.mod_divide; [lia | apply HA; exact Hd].
  - destruct (chain_In _ _ _ _ (rep_chain _ _ _ R) Hd) as (_ & _ & H). exact H.
Qed.

(** C4 (amended).  For a real region whose initial payload fits the 32-bit
    size field, in every reachable state the physical walk from
    [segment_start], advancing by header size plus payload size, completes,
    stops exactly on [segment_end], and its blocks cover every byte of the
    segment exactly once. *)
Theorem walk_covers_segment heap_start heap_size st :
  region_ok heap_start heap_size -> reachable heap_start heap_size st ->
  segment_start st = heap_start /\ segment_end st = heap_start + heap_size /\
  exists L, walk_yields st L /\
    forall x, heap_start <= x < heap_start + heap_size ->
      exists d, In d L /\ covers d x /\ forall d', In d' L -> covers d' x -> d' = d.
Proof.
  intros Hreg Hr. destruct (reachable_segment _ _ _ Hr) as (Es & Ee).
  split; [exact Es|]. split; [exact Ee|].
  destruct (reachable_walks _ _ _ Hreg Hr) as (L & fl & HL & _ & Hcov & _).
  exists L. split; [exact HL|]. intros x Hx. apply Hcov. rewrite Es, Ee. exact Hx.
Qed.

(** C5 (amended).  For a real region whose initial payload fits the 32-bit
    size field, in every reachable state a block of the physical walk is
    marked unallocated in its header if and only if its address is reached
    from the free-list head by next-links, and no address is reached twice. *)
Theorem free_list_matches_headers heap_start heap_size st :
  region_ok heap_start heap_size -> reachable heap_start heap_size st ->
  exists L fl,
    walk_yields st L /\ free_list_yields st fl /\ NoDup fl /\
    forall d, In d L -> (b_used d = false <-> In (b_addr d) fl).
Proof.
  intros Hreg Hr.
  destruct (reachable_walks _ _ _ Hreg Hr) as (L & fl & HL & Hfl & _ & Hnd & Hiff).
  exists L, fl. auto.
Qed.

(** ** Initialization *)

(** C6 (amended).  For a non-null start address and a length whose excess
    over the header fits the 32-bit size field, [myinit] reports non-success
    exactly when the length is at most the header size (and then leaves the
    state alone); otherwise it reports success and installs one free block
    whose payload is the length minus the header, with both links null, as
    the sole entry of the free list. *)
Theorem myinit_spec heap_start heap_size st0 :
  0 < heap_start -> 0 <= heap_size -> heap_size - HEADER_SIZE < 2 ^ 32 ->
  (fst (myinit heap_start heap_size st0) = false <-> heap_size <= HEADER_SIZE) /\
  (heap_size <= HEADER_SIZE -> snd (myinit heap_start heap_size st0) = st0) /\
  (HEADER_SIZE < heap_size ->
   let st := snd (myinit heap_start heap_size st0) in
   segment_start st = heap_start /\ segment_end st = heap_start + heap_size /\
   walk_yields st [mkBlock heap_start (heap_size - HEADER_SIZE) false] /\
   free_list_yields st [heap_start] /\
   Pointers_previous st (get_payload_ptr heap_start) = NULL /\
   Pointers_next st (get_payload_ptr heap_start) = NULL).
Proof.
  intros Hs H0 Hm. split; [|split].
  - unfold myinit. destruct (Z.leb_spec heap_size HEADER_SIZE); cbn [fst].
    + tauto.
    + split; [discriminate | lia].
  - intros Hle. unfold myinit. destruct (Z.leb_spec heap_size HEADER_SIZE); [reflexivity | lia].
  - intros Hgt st.
    destruct (myinit_single heap_start heap_size st0 Hs Hgt Hm) as (E & Hsf & Hp).
    fold st in E, Hsf, Hp.
    assert (Es : segment_start st = heap_start /\ segment_end st = heap_start + heap_size).
    { subst st. unfold myinit.
      destruct (Z.leb_spec heap_size HEADER_SIZE); [lia | split; reflexivity]. }
    destruct Es as (Es & Ee). split; [exact Es|]. split; [exact Ee|].
    assert (Hsf' := Hsf). destruct Hsf' as (_ & _ & _ & _ & Hpv & Hnx).
    rewrite Es in Hpv, Hnx.
    split; [|split; [|split; [exact Hpv | exact Hnx]]].
    + intros fuel. pose proof (single_heap_walk st fuel Hsf) as X.
      rewrite Es, Hp in X. rewrite Es.
      destruct (heap_walk fuel st heap_start) as [[L stop]|];
        [exact X | subst fuel; cbn [length]; lia].
    + intros fuel. pose proof (single_free_walk st fuel Hsf) as X. rewrite Es in X.
      destruct (free_walk fuel st (free_list_start st)) as [l|];
        [exact X | subst fuel; cbn [length]; lia].
Qed.

(** ** Allocation *)

Lemma round_up_least n a :
  0 < a -> (a | round_up n a) /\ n <= round_up n a < n + a.
Proof.
  intros Ha. unfold round_up. split; [exists ((n + (a - 1)) / a); lia|].
  pose proof (Z.div_mod (n + (a - 1)) a ltac:(lia)) as Hd.
  pose proof (Z.mod_pos_bound (n + (a - 1)) a Ha) as Hm. lia.
Qed.

(** C9.  With a power-of-two alignment and a maximum request size that
    leaves room for the rounding, [mymalloc] returns the null pointer with
    the state untouched and without consuming fuel when the count is zero
    or above the maximum; for every other count it hands [find_fit] exactly
    the count rounded up to the alignment and raised to the minimum payload
    size, and returns the payload pointer of the block found, or null. *)
Theorem mymalloc_spec fuel n st k :
  0 <= k < 64 -> ALIGNMENT = 2 ^ k -> MAX_REQUEST_SIZE + ALIGNMENT <= 2 ^ 64 ->
  0 <= n < 2 ^ 64 ->
  if (n =? 0) || (MAX_REQUEST_SIZE <? n) then mymalloc fuel n st = Some (NULL, st)
  else
    mymalloc fuel n st =
    match find_fit fuel (Z.max (round_up n ALIGNMENT) MIN_PAYLOAD_SIZE) st with
    | None => None
    | Some (block, st') =>
      Some (if block =? NULL then NULL else get_payload_ptr block, st')
    end.
Proof.
  intros Hk EA Hmax Hn. unfold mymalloc. rewrite orb_comm.
  destruct ((MAX_REQUEST_SIZE <? n) || (n =? 0)) eqn:E; [reflexivity|].
  apply orb_false_elim in E. destruct E as (E1 & E2).
  apply Z.ltb_ge in E1. apply Z.eqb_neq in E2. cbv zeta.
  assert (Hp : 0 < 2 ^ k) by (apply Z.pow_pos_nonneg; lia).
  assert (Er : align n ALIGNMENT = round_up n ALIGNMENT).
  { rewrite EA. destruct (align_round_up n k Hk) as (Ea & _); [lia | lia |].
    rewrite Ea. reflexivity. }
  rewrite Er.
  assert (Em : (if round_up n ALIGNMENT <? MIN_PAYLOAD_SIZE then MIN_PAYLOAD_SIZE
                else round_up n ALIGNMENT) = Z.max (round_up n ALIGNMENT) MIN_PAYLOAD_SIZE).
  { destruct (Z.ltb_spec (round_up n ALIGNMENT) MIN_PAYLOAD_SIZE); lia. }
  rewrite Em.
  destruct (find_fit fuel _ st) as [[block st']|]; [|reflexivity].
  destruct (block =? NULL); reflexivity.
Qed.

(** ** Resizing to zero *)

(** C10.  [myrealloc] with a new size of zero returns the null pointer and
    the very state it was given, whatever the pointer: nothing is freed,
    moved or modified, so the block of a live pointer keeps its header and
    its data. *)
Theorem myrealloc_zero fuel old_ptr st :
  myrealloc fuel old_ptr 0 st = Some (NULL, st) /\
  forall st', myrealloc fuel old_ptr 0 st = Some (NULL, st') ->
    Header_allocated st' (old_ptr - HEADER_SIZE) =
      Header_allocated st (old_ptr - HEADER_SIZE) /\
    Header_payload st' (old_ptr - HEADER_SIZE) =
      Header_payload st (old_ptr - HEADER_SIZE) /\
    free_list_start st' = free_list_start st /\
    forall x, mem st' x = mem st x.
Proof.
  assert (E : myrealloc fuel old_ptr 0 st = Some (NULL, st)).
  { unfold myrealloc, mymalloc. rewrite Z.eqb_refl, !orb_true_r. reflexivity. }
  split; [exact E|]. intros st' E'. rewrite E in E'. injection E' as <-. auto.
Qed.

(** ** The fit finder *)

Lemma find_fit_loop_skip st req :
  forall l1 prev h mid k,
  lseg (mem st) prev h l1 mid ->
  (forall c, In c l1 -> Header_payload st c < req) ->
  find_fit_loop (length l1 + k) req st h = find_fit_loop k req st mid.
Proof.
  induction l1 as [|c l1 IH]; intros prev h mid k Hl Hsm; cbn [lseg] in Hl.
  - subst h. reflexivity.
  - destruct Hl as (-> & Hnz & _ & Hl). cbn [length plus].
    rewrite find_fit_loop_eq.
    destruct (Z.eqb_spec c NULL) as [?|_]; [contradiction|]. cbv zeta.
    assert (Hc : Header_payload st c < req) by (apply Hsm; left; reflexivity).
    destruct (Z.leb_spec req (Header_payload st c)) as [?|_]; [lia|].
    unfold Pointers_next, get_payload_ptr, HEADER_SIZE. rewrite add_8_8.
    apply (IH c). { exact Hl. } intros a Ha. apply Hsm. right. exact Ha.
Qed.

(** C8.  On a represented heap and for a request of at least the minimum
    payload size, [find_fit] returns the null pointer and leaves the state
    alone when no node of the free list has a payload that covers the
    request; otherwise it returns the first node [r], in list order from the
    head, whose payload [p] covers it: when [p] leaves room for a minimum
    block behind the request the block is first split into an allocated
    front of exactly the requested size and a free remainder of
    [p - request - header] bytes that enters the free list at the head;
    otherwise the whole block is taken.  In both cases [r] leaves the free
    list and is marked allocated. *)
Theorem find_fit_first_fit st L fl req fuel :
  rep st L fl -> MIN_PAYLOAD_SIZE <= req < 2 ^ 64 ->
  ((forall c, In c fl -> Header_payload st c < req) ->
   (length fl <= fuel)%nat ->
   find_fit fuel req st = Some (NULL, st)) /\
  (forall L1 L2 l1 l2 r p,
   L = L1 ++ mkBlock r p false :: L2 -> fl = l1 ++ r :: l2 ->
   (forall c, In c l1 -> Header_payload st c < req) -> req <= p ->
   (length l1 < fuel)%nat ->
   if req + MIN_BLOCK_SIZE <=? p then
     find_fit fuel req st = Some (r, remove_block r (partition r p req st)) /\
     rep (remove_block r (partition r p req st))
         (L1 ++ mkBlock r req true ::
                mkBlock (r + req + HEADER_SIZE) (p - req - HEADER_SIZE) false :: L2)
         ((r + req + HEADER_SIZE) :: l1 ++ l2)
   else
     find_fit fuel req st = Some (r, remove_block r st) /\
     rep (remove_block r st) (L1 ++ mkBlock r p true :: L2) (l1 ++ l2)).
Proof.
  intros R Hreq. split.
  - intros Hsm Hfuel. unfold find_fit.
    replace fuel with (length fl + (fuel - length fl))%nat by lia.
    rewrite (find_fit_loop_skip st req fl NULL _ NULL _ (rep_list _ _ _ R) Hsm).
    rewrite find_fit_loop_eq, Z.eqb_refl. reflexivity.
  - intros L1 L2 l1 l2 r p EL Efl Hsm Hfit Hfuel.
    pose proof (rep_list _ _ _ R) as Hl. rewrite Efl in Hl.
    apply lseg_app in Hl. destruct Hl as (mid & Hl1 & Hl2).
    cbn [lseg] in Hl2. destruct Hl2 as (-> & Hnz & _).
    assert (Hin : In (mkBlock r p false) L)
      by (rewrite EL; apply in_or_app; right; left; reflexivity).
    destruct (hdrs_In _ _ _ (rep_hdrs _ _ _ R) Hin) as (Hp & _).
    destruct (rep_block_bounds _ _ _ _ R Hin) as (_ & _ & _ & _ & Bs).
    cbn [b_addr b_size] in *. change (Header_payload st r = p) in Hp.
    assert (Hrun : find_fit fuel req st =
              Some (r, remove_block r
                         (if req + MIN_BLOCK_SIZE <=? p
                          then partition r p req st else st))).
    { unfold find_fit.
      replace fuel with (length l1 + S (fuel - S (length l1)))%nat by lia.
      rewrite (find_fit_loop_skip st req l1 NULL _ r _ Hl1 Hsm).
      rewrite find_fit_loop_eq.
      destruct (Z.eqb_spec r NULL) as [?|_]; [contradiction|]. cbv zeta.
      rewrite !Hp. destruct (Z.leb_spec req p) as [_|?]; [|lia].
      unfold MIN_BLOCK_SIZE, MIN_PAYLOAD_SIZE in *.
      rewrite (u64_small (req + 24)) by lia. reflexivity. }
    rewrite Hrun. assert (R0 := R). rewrite EL, Efl in R0.
    destruct (Z.leb_spec (req + MIN_BLOCK_SIZE) p) as [Hsplit|Hno].
    + split; [reflexivity|].
      destruct (partition_rep _ _ _ _ _ _ req _ R0) as (R1 & _); [lia | lia |].
      apply (remove_block_rep _ _ _ _ _ ((r + req + HEADER_SIZE) :: l1) l2) in R1.
      exact (proj1 R1).
    + split; [reflexivity|]. apply remove_block_rep in R0. exact (proj1 R0).
Qed.

(** ** Resizing in place *)

(** C7.  For a live pointer to a block whose payload [old] is at least the
    aligned target size of a non-zero request, [myrealloc] returns the same
    pointer; it splits the block, shedding the excess as a new free block at
    the head of the free list and keeping the first target-size bytes of the
    payload as they were, exactly when [old] is at least the target plus the
    minimum block size; otherwise (equal sizes, or an excess below that
    threshold) the state is left as it is. *)
Theorem myrealloc_shrink st L1 L2 fl b old n fuel :
  rep st (L1 ++ mkBlock b old true :: L2) fl ->
  n <> 0 -> aligned_size n <= old ->
  if aligned_size n + MIN_BLOCK_SIZE <=? old then
    myrealloc fuel (b + HEADER_SIZE) n st =
      Some (b + HEADER_SIZE, partition b old (aligned_size n) st) /\
    rep (partition b old (aligned_size n) st)
        (L1 ++ mkBlock b (aligned_size n) true ::
               mkBlock (b + aligned_size n + HEADER_SIZE)
                       (old - aligned_size n - HEADER_SIZE) false :: L2)
        ((b + aligned_size n + HEADER_SIZE) :: fl) /\
    (forall x, b + HEADER_SIZE <= x < b + HEADER_SIZE + aligned_size n ->
               mem (partition b old (aligned_size n) st) x = mem st x)
  else
    myrealloc fuel (b + HEADER_SIZE) n st = Some (b + HEADER_SIZE, st).
Proof.
  intros R Hn Hle.
  assert (Hin : In (mkBlock b old true) (L1 ++ mkBlock b old true :: L2))
    by (apply in_or_app; right; left; reflexivity).
  destruct (rep_block_bounds _ _ _ _ R Hin) as (_ & Hpos & _ & _ & Bs).
  destruct (hdrs_In _ _ _ (rep_hdrs _ _ _ R) Hin) as (Hp & _).
  cbn [b_addr b_size] in *. change (Header_payload st b = old) in Hp.
  pose proof (aligned_size_range n) as Ht.
  assert (Hrun : myrealloc fuel (b + HEADER_SIZE) n st =
            Some (b + HEADER_SIZE,
                  if aligned_size n + MIN_BLOCK_SIZE <=? old
                  then partition b old (aligned_size n) st else st)).
  { unfold myrealloc.
    destruct (Z.eqb_spec (b + HEADER_SIZE) NULL) as [E|_];
      [unfold HEADER_SIZE, NULL in E; lia|].
    destruct (Z.eqb_spec n 0) as [?|_]; [contradiction|]. cbn [orb]. cbv zeta.
    fold (aligned_size n).
    replace (b + HEADER_SIZE - HEADER_SIZE) with b by lia. rewrite !Hp.
    unfold MIN_BLOCK_SIZE, MIN_PAYLOAD_SIZE in *.
    rewrite (u64_small (aligned_size n + 24)) by lia.
    destruct (Z.eqb_spec old (aligned_size n)) as [E|Hne].
    { destruct (Z.leb_spec (aligned_size n + 24) old); [lia | reflexivity]. }
    destruct (Z.ltb_spec (aligned_size n) old) as [_|?]; [|lia]. cbn [andb].
    destruct (Z.ltb_spec old (aligned_size n + 24));
      destruct (Z.leb_spec (aligned_size n + 24) old); try lia; reflexivity. }
  rewrite Hrun.
  destruct (Z.leb_spec (aligned_size n + MIN_BLOCK_SIZE) old) as [Hsplit|Hno];
    [|reflexivity].
  destruct (partition_rep _ _ _ _ _ _ (aligned_size n) _ R) as (R1 & Hch); [lia | lia |].
  split; [reflexivity|]. split; [exact R1|].
  intros x Hx. unfold HEADER_SIZE, MIN_BLOCK_SIZE in *.
  destruct (Hch x) as [E|[E|[E|(Hne & E)]]]; [exact E | lia | lia |].
  exfalso. pose proof (free_vs_block _ _ _ _ _ R Hin (head_in_list _ _ _ R Hne)) as X.
  unfold footprint, HEADER_SIZE in X. cbn [b_addr b_size b_used] in X.
  destruct X as [[_ ?]|[?|?]]; [discriminate | lia | lia].
Qed.

(** ** Resizing that fails *)

Lemma absorbed_nonneg s F e : chain s F e -> 0 <= absorbed F.
Proof.
  revert s. induction F as [|d F IH]; intros s; cbn [chain].
  - intros _. change (absorbed []) with 0. lia.
  - intros (_ & Hs & Hc). change (absorbed (d :: F)) with (footprint d + absorbed F).
    specialize (IH _ Hc). unfold footprint, HEADER_SIZE, MIN_PAYLOAD_SIZE in *. lia.
Qed.

Lemma mymalloc_null st L fl n fuel st' :
  rep st L fl -> mymalloc fuel n st = Some (NULL, st') -> st' = st.
Proof.
  intros R E. pose proof (mymalloc_rep st L fl n fuel R) as X. rewrite E in X.
  destruct X as [(_ & ->)|(b & Eb & _ & Hfit)]; [reflexivity|]. exfalso.
  destruct Hfit as (L1 & L2 & l1 & l2 & p & EL & _).
  assert (Hin : In (mkBlock b p false) L)
    by (rewrite EL; apply in_or_app; right; left; reflexivity).
  destruct (rep_block_bounds _ _ _ _ R Hin) as (_ & Hpos & _).
  cbn [b_addr] in Hpos. unfold NULL, HEADER_SIZE in Eb. lia.
Qed.

(** C1 (amended).  For a live pointer to a block of payload [p] that must
    grow (the aligned target exceeds [p] plus everything the free blocks [F]
    to its right can give), [myrealloc] first absorbs [F]; if the fallback
    [mymalloc] then fails, [myrealloc] returns the null pointer and the heap
    is the valid heap left by that coalescing: the block stays allocated at
    the same address, the [p] bytes of its payload are unchanged and not
    moved, its payload size has grown by the absorbed bytes and the absorbed
    blocks have left the free list.  When no free block follows the block,
    the state is unchanged altogether. *)
Theorem myrealloc_failure_keeps_block st fl L1 b p F R' n fuel :
  rep st (L1 ++ mkBlock b p true :: F ++ R') fl ->
  Forall (fun d => b_used d = false) F -> stops_here R' ->
  n <> 0 -> p + absorbed F < aligned_size n -> (length F <= fuel)%nat ->
  exists st1,
    coalesce_right fuel b st = Some st1 /\
    rep st1 (L1 ++ mkBlock b (p + absorbed F) true :: R') (remove_all F fl) /\
    (forall x, b + HEADER_SIZE <= x < b + HEADER_SIZE + p -> mem st1 x = mem st x) /\
    (F = [] -> st1 = st) /\
    forall st2, mymalloc fuel n st1 = Some (NULL, st2) ->
      myrealloc fuel (b + HEADER_SIZE) n st = Some (NULL, st1).
Proof.
  intros R HF Hs Hn Hgrow Hfuel.
  assert (Hin : In (mkBlock b p true) (L1 ++ mkBlock b p true :: F ++ R'))
    by (apply in_or_app; right; left; reflexivity).
  destruct (rep_block_bounds _ _ _ _ R Hin) as (_ & Hpos & _ & _ & Bs).
  destruct (hdrs_In _ _ _ (rep_hdrs _ _ _ R) Hin) as (Hp & _).
  cbn [b_addr b_size] in *. change (Header_payload st b = p) in Hp.
  assert (Habs : 0 <= absorbed F).
  { pose proof (rep_chain _ _ _ R) as Hc. apply chain_split in Hc.
    destruct Hc as (_ & _ & Hc). apply chain_app in Hc.
    destruct Hc as (mid & Hc & _). apply (absorbed_nonneg _ _ _ Hc). }
  pose proof (coalesce_loop_rep L1 b R' F HF Hs fuel st p fl R) as X.
  assert (Ecr : coalesce_right fuel b st = coalesce_loop fuel b st (b + p + HEADER_SIZE)).
  { unfold coalesce_right. destruct (Z.eqb_spec b NULL) as [E|_];
      [unfold NULL in E; lia|]. rewrite Hp. reflexivity. }
  destruct (coalesce_loop fuel b st (b + p + HEADER_SIZE)) as [st1|] eqn:Ecl; [|lia].
  destruct X as (R1 & Hdata & Hsame).
  exists st1. split; [exact Ecr|]. split; [exact R1|].
  split; [intros x Hx; apply Hdata; unfold HEADER_SIZE in Hx; lia|].
  split; [exact Hsame|].
  intros st2 Em. pose proof (mymalloc_null _ _ _ _ _ _ R1 Em) as ->.
  assert (Hin1 : In (mkBlock b (p + absorbed F) true)
                   (L1 ++ mkBlock b (p + absorbed F) true :: R'))
    by (apply in_or_app; right; left; reflexivity).
  destruct (hdrs_In _ _ _ (rep_hdrs _ _ _ R1) Hin1) as (Hp1 & _).
  cbn [b_addr b_size] in Hp1. change (Header_payload st1 b = p + absorbed F) in Hp1.
  pose proof (aligned_size_range n) as Ht.
  unfold myrealloc.
  destruct (Z.eqb_spec (b + HEADER_SIZE) NULL) as [E|_];
    [unfold HEADER_SIZE, NULL in E; lia|].
  destruct (Z.eqb_spec n 0) as [?|_]; [contradiction|]. cbn [orb]. cbv zeta.
  fold (aligned_size n).
  replace (b + HEADER_SIZE - HEADER_SIZE) with b by lia. rewrite !Hp.
  destruct (Z.eqb_spec p (aligned_size n)) as [?|_]; [lia|].
  destruct (Z.ltb_spec (aligned_size n) p) as [?|_]; [lia|]. cbn [andb].
  destruct (Z.ltb_spec p (aligned_size n)) as [_|?]; [|lia].
  rewrite Ecr, !Hp1.
  destruct (Z.leb_spec (aligned_size n) (p + absorbed F)) as [?|_]; [lia|].
  rewrite Em. rewrite Z.eqb_refl. reflexivity.
Qed.

(** ** Releasing two neighbours *)

Lemma remove_all_In F fl x : In x (remove_all F fl) -> In x fl.
Proof.
  revert fl. induction F as [|d F IH]; intros fl; [auto|].
  change (remove_all (d :: F) fl) with (remove_all F (remove Z.eq_dec (b_addr d) fl)).
  intros H. apply IH in H. apply in_remove in H. tauto.
Qed.

Lemma remove_all_cons_other F a fl :
  (forall d, In d F -> b_addr d <> a) ->
  remove_all F (a :: fl) = a :: remove_all F fl.
Proof.
  revert fl. induction F as [|d F IH]; intros fl Hne; [reflexivity|].
  change (remove_all (d :: F) (a :: fl))
    with (remove_all F (remove Z.eq_dec (b_addr d) (a :: fl))).
  change (remove_all (d :: F) fl) with (remove_all F (remove Z.eq_dec (b_addr d) fl)).
  cbn [remove]. destruct (Z.eq_dec (b_addr d) a) as [E|_].
  - exfalso. apply (Hne d); [left; reflexivity | exact E].
  - apply IH. intros d' Hd'. apply Hne. right. exact Hd'.
Qed.

(** C2 (amended).  Take two physically adjacent allocated blocks, the left
    one at [a] with payload [pa] and the right one at [b] with payload [pb],
    followed by the free blocks [F] (possibly none).  Releasing the right
    block and then the left block leaves one free block at [a] whose payload
    is [pa + pb] plus one header (plus the bytes of [F], which the right
    block absorbs first), with one free-list entry for that span.  Releasing
    the left block first leaves two separate free blocks and two free-list
    entries, because a released block is merged only with what follows it. *)
Theorem free_adjacent_pair st fl L1 a pa b pb F R' fuel :
  rep st (L1 ++ mkBlock a pa true :: mkBlock b pb true :: F ++ R') fl ->
  Forall (fun d => b_used d = false) F -> stops_here R' ->
  (length F < fuel)%nat ->
  (exists st1 st2,
     myfree fuel (b + HEADER_SIZE) st = Some st1 /\
     myfree fuel (a + HEADER_SIZE) st1 = Some st2 /\
     rep st2 (L1 ++ mkBlock a (pa + pb + HEADER_SIZE + absorbed F) false :: R')
         (a :: remove_all F fl)) /\
  (exists st1 st2,
     myfree fuel (a + HEADER_SIZE) st = Some st1 /\
     myfree fuel (b + HEADER_SIZE) st1 = Some st2 /\
     rep st2 (L1 ++ mkBlock a pa false :: mkBlock b (pb + absorbed F) false :: R')
         (b :: a :: remove_all F fl)).
Proof.
  intros R HF Hs Hfuel.
  pose proof (rep_chain _ _ _ R) as Hc.
  assert (Hina : In (mkBlock a pa true)
                   (L1 ++ mkBlock a pa true :: mkBlock b pb true :: F ++ R'))
    by (apply in_or_app; right; left; reflexivity).
  assert (Hinb : In (mkBlock b pb true)
                   (L1 ++ mkBlock a pa true :: mkBlock b pb true :: F ++ R'))
    by (apply in_or_app; right; right; left; reflexivity).
  split.
  - (* right, then left *)
    assert (R0 : rep st ((L1 ++ [mkBlock a pa true]) ++ mkBlock b pb true :: F ++ R') fl).
    { rewrite <- app_assoc. exact R. }
    pose proof (myfree_rep_at _ _ _ _ _ _ _ fuel R0 HF Hs) as X.
    destruct (myfree fuel (b + HEADER_SIZE) st) as [st1|]; [|lia].
    rewrite <- app_assoc in X. cbn [app] in X.
    set (B' := mkBlock b (pb + absorbed F) false) in *.
    assert (X' : rep st1 (L1 ++ mkBlock a pa true :: [B'] ++ R')
                   (b :: remove_all F fl)) by exact X.
    pose proof (myfree_rep_at _ _ _ _ _ _ _ fuel X'
                  (Forall_cons B' eq_refl (Forall_nil _)) Hs) as Y.
    destruct (myfree fuel (a + HEADER_SIZE) st1) as [st2|] eqn:E2;
      [|cbn [length] in Y; lia].
    exists st1, st2. split; [reflexivity|]. split; [exact E2|].
    change (absorbed [B']) with (footprint B' + 0) in Y.
    unfold footprint, B' in Y. cbn [b_size b_addr] in Y.
    replace (pa + (HEADER_SIZE + (pb + absorbed F) + 0))
      with (pa + pb + HEADER_SIZE + absorbed F) in Y by lia.
    change (remove_all [mkBlock b (pb + absorbed F) false] (b :: remove_all F fl))
      with (remove Z.eq_dec b (b :: remove_all F fl)) in Y.
    rewrite remove_cons, notin_remove in Y; [exact Y|].
    intros Hb. apply remove_all_In in Hb. apply (rep_free _ _ _ R) in Hb.
    destruct Hb as (p' & Hp').
    assert (E : mkBlock b p' false = mkBlock b pb true)
      by (apply (chain_addr_inj _ _ _ _ _ Hc Hp' Hinb); reflexivity).
    discriminate E.
  - (* left, then right *)
    assert (R0 : rep st (L1 ++ mkBlock a pa true :: [] ++ mkBlock b pb true :: F ++ R') fl)
      by exact R.
    pose proof (myfree_rep_at _ _ _ _ _ _ _ fuel R0 (Forall_nil _)
                  (eq_refl : stops_here (mkBlock b pb true :: F ++ R'))) as X.
    destruct (myfree fuel (a + HEADER_SIZE) st) as [st1|]; [|cbn [length] in X; lia].
    change (absorbed []) with 0 in X. rewrite Z.add_0_r in X.
    change (remove_all [] fl) with fl in X.
    assert (X' : rep st1 ((L1 ++ [mkBlock a pa false]) ++ mkBlock b pb true :: F ++ R')
                   (a :: fl)).
    { rewrite <- app_assoc. exact X. }
    pose proof (myfree_rep_at _ _ _ _ _ _ _ fuel X' HF Hs) as Y.
    destruct (myfree fuel (b + HEADER_SIZE) st1) as [st2|] eqn:E2; [|lia].
    exists st1, st2. split; [reflexivity|]. split; [exact E2|].
    rewrite <- app_assoc in Y. cbn [app] in Y.
    rewrite remove_all_cons_other in Y; [exact Y|].
    intros d Hd Ea.
    assert (HdL : In d (mkBlock b pb true :: F ++ R'))
      by (right; apply in_or_app; left; exact Hd).
    pose proof (chain_after _ _ _ _ _ _ Hc HdL) as Hlt.
    destruct (chain_In _ _ _ _ Hc Hina) as (_ & _ & Hsz).
    unfold footprint, HEADER_SIZE, MIN_PAYLOAD_SIZE in *. cbn [b_addr b_size] in *. lia.
Qed.

(** * Further properties of the code *)

(** ** A state represents one layout *)

Lemma rep_unique st L fl L' fl' :
  rep st L fl -> rep st L' fl' -> L' = L /\ fl' = fl.
Proof.
  intros R R'. split.
  - pose proof (rep_heap_walk st L fl (length L + length L') R) as X.
    pose proof (rep_heap_walk st L' fl' (length L + length L') R') as Y.
    destruct (heap_walk _ st (segment_start st)) as [[L0 stop]|]; [|lia].
    destruct X as (<- & _). destruct Y as (<- & _). reflexivity.
  - pose proof (rep_free_walk st L fl (length fl + length fl') R) as X.
    pose proof (rep_free_walk st L' fl' (length fl + length fl') R') as Y.
    destruct (free_walk _ st (free_list_start st)) as [l0|]; [|lia].
    subst fl. subst fl'. reflexivity.
Qed.

(** ** Which bytes an operation writes *)

Lemma in_free_used_disjoint s L e d x :
  chain s L e -> In d L -> b_used d = true -> covers d x -> in_free L x -> False.
Proof.
  intros Hc Hd Hu Hx (c & Hcin & Hcf & Hcx). unfold covers in *.
  destruct (chain_sep _ _ _ _ _ Hc Hd Hcin) as [E|[E|E]]; [subst c; congruence | lia | lia].
Qed.

Lemma in_free_node st L fl c x :
  rep st L fl -> In c fl -> c <= x < c + 24 -> in_free L x.
Proof.
  intros R Hc Hx. destruct (rep_free_block _ _ _ c R Hc) as (p & Hp & _).
  destruct (rep_block_bounds _ _ _ _ R Hp) as (_ & _ & _ & _ & Bs).
  exists (mkBlock c p false). split; [exact Hp|]. split; [reflexivity|].
  unfold covers, footprint, HEADER_SIZE, MIN_PAYLOAD_SIZE in *. cbn [b_addr b_size] in *. lia.
Qed.

Lemma partition_writes st L1 L2 b space f q fl x :
  rep st (L1 ++ mkBlock b space f :: L2) fl ->
  MIN_PAYLOAD_SIZE <= q -> q + MIN_BLOCK_SIZE <= space ->
  mem (partition b space q st) x = mem st x \/ covers (mkBlock b space f) x \/
  in_free (L1 ++ mkBlock b space f :: L2) x.
Proof.
  intros R Hq Hs. destruct (partition_rep _ _ _ _ _ _ q _ R Hq Hs) as (_ & Hch).
  unfold covers, footprint, HEADER_SIZE, MIN_PAYLOAD_SIZE, MIN_BLOCK_SIZE in *.
  cbn [b_addr b_size].
  destruct (Hch x) as [E|[E|[E|(Hne & E)]]]; [left; exact E | right; left; lia
                                              | right; left; lia |].
  right; right. apply (in_free_node st _ fl (free_list_start st)); [exact R | | lia].
  apply (head_in_list _ _ _ R Hne).
Qed.

Lemma remove_block_writes st L1 L2 b p l1 l2 x :
  rep st (L1 ++ mkBlock b p false :: L2) (l1 ++ b :: l2) ->
  mem (remove_block b st) x = mem st x \/ in_free (L1 ++ mkBlock b p false :: L2) x.
Proof.
  intros R. destruct (remove_block_rep _ _ _ _ _ _ _ R) as (_ & Hch).
  destruct (Hch x) as [E|[E|(c & Hc & E)]]; [left; exact E | |]; right.
  - apply (in_free_node st _ _ b x R); [apply in_or_app; right; left; reflexivity | lia].
  - apply (in_free_node st _ _ c x R); [|lia].
    apply in_app_or in Hc. apply in_or_app. destruct Hc; [left | right; right]; assumption.
Qed.

(** Splitting a block or changing a flag creates no free byte outside the
    blocks that were free and the block worked on. *)
Lemma in_free_split L1 L2 b p q f f' x :
  0 <= q -> q + HEADER_SIZE <= p ->
  in_free (L1 ++ mkBlock b q f' ::
                 mkBlock (b + q + HEADER_SIZE) (p - q - HEADER_SIZE) false :: L2) x ->
  covers (mkBlock b p f) x \/ in_free (L1 ++ mkBlock b p f :: L2) x.
Proof.
  intros Hq Hp (d & Hd & Hf & Hx). apply in_app_or in Hd.
  unfold covers, footprint, HEADER_SIZE in *.
  destruct Hd as [Hd|[<-|[<-|Hd]]]; cbn [b_addr b_size] in *.
  - right. exists d. split; [apply in_or_app; left; exact Hd | auto].
  - left. lia.
  - left. lia.
  - right. exists d. split; [apply in_or_app; right; right; exact Hd | auto].
Qed.

Lemma in_free_flag L1 L2 b p f f' x :
  in_free (L1 ++ mkBlock b p f' :: L2) x ->
  covers (mkBlock b p f) x \/ in_free (L1 ++ mkBlock b p f :: L2) x.
Proof.
  intros (d & Hd & Hf & Hx). apply in_app_or in Hd.
  destruct Hd as [Hd|[<-|Hd]].
  - right. exists d. split; [apply in_or_app; left; exact Hd | auto].
  - left. exact Hx.
  - right. exists d. split; [apply in_or_app; right; right; exact Hd | auto].
Qed.

Lemma covers_free_in L1 L2 b p x :
  covers (mkBlock b p false) x -> in_free (L1 ++ mkBlock b p false :: L2) x.
Proof.
  intros Hx. exists (mkBlock b p false).
  split; [apply in_or_app; right; left; reflexivity | auto].
Qed.

(** A successful search writes only into blocks that were free, and every
    free block of the new layout lies within a block that was free. *)
Lemma fit_result_writes st L fl req r st' :
  rep st L fl -> MIN_PAYLOAD_SIZE <= req -> fit_result st L fl req r st' ->
  exists L' fl' p,
    rep st' L' fl' /\ In (mkBlock r p true) L' /\ req <= p < req + MIN_BLOCK_SIZE /\
    In r fl /\
    (forall x, mem st' x = mem st x \/ in_free L x) /\
    (forall x, in_free L' x -> in_free L x) /\
    (forall d, In d L -> b_used d = true -> In d L').
Proof.
  intros R Hreq (L1 & L2 & l1 & l2 & p & EL & Efl & _ & _ & Hfit & Hcase).
  assert (R0 := R). rewrite EL, Efl in R0.
  assert (Hrfl : In r fl) by (rewrite Efl; apply in_or_app; right; left; reflexivity).
  assert (Hkeep : forall q f' T d, In d L -> b_used d = true ->
            In d (L1 ++ mkBlock r q f' :: T ++ L2)).
  { intros q f' T d Hd Hu. rewrite EL in Hd. apply in_app_or in Hd. apply in_or_app.
    destruct Hd as [Hd|[<-|Hd]]; [left; exact Hd | discriminate Hu |].
    right. right. apply in_or_app. right. exact Hd. }
  destruct (Z.leb_spec (req + MIN_BLOCK_SIZE) p) as [Hsplit|Hno].
  - destruct Hcase as (-> & R').
    destruct (partition_rep _ _ _ _ _ _ req _ R0) as (R1 & _);
      [exact Hreq | exact Hsplit |].
    exists (L1 ++ mkBlock r req true ::
                 mkBlock (r + req + HEADER_SIZE) (p - req - HEADER_SIZE) false :: L2),
           ((r + req + HEADER_SIZE) :: l1 ++ l2), req.
    split; [exact R'|]. split; [apply in_or_app; right; left; reflexivity|].
    split; [unfold MIN_BLOCK_SIZE; lia|]. split; [exact Hrfl|].
    unfold MIN_BLOCK_SIZE, MIN_PAYLOAD_SIZE, HEADER_SIZE in *.
    split; [|split].
    + intros x. rewrite EL.
      destruct (remove_block_writes _ _ _ _ _ ((r + req + 8) :: l1) l2 x R1) as [E|E].
      * rewrite E.
        destruct (partition_writes _ _ _ _ _ _ req _ x R0) as [E'|[E'|E']];
          [unfold MIN_PAYLOAD_SIZE; lia | unfold MIN_BLOCK_SIZE; lia
           | left; exact E' | right; apply covers_free_in; exact E' | right; exact E'].
      * right. apply (in_free_split L1 L2 r p req false false x) in E;
          [|lia | unfold HEADER_SIZE; lia].
        destruct E as [E|E]; [apply covers_free_in; exact E | exact E].
    + intros x Hx. rewrite EL.
      apply (in_free_split L1 L2 r p req false true x) in Hx;
        [|lia | unfold HEADER_SIZE; lia].
      destruct Hx as [E|E]; [apply covers_free_in; exact E | exact E].
    + intros d Hd Hu.
      apply (Hkeep req true [mkBlock (r + req + 8) (p - req - 8) false] d Hd Hu).
  - destruct Hcase as (-> & R').
    exists (L1 ++ mkBlock r p true :: L2), (l1 ++ l2), p.
    split; [exact R'|]. split; [apply in_or_app; right; left; reflexivity|].
    split; [lia|]. split; [exact Hrfl|]. split; [|split].
    + intros x. rewrite EL. apply (remove_block_writes _ _ _ _ _ _ _ x R0).
    + intros x Hx. rewrite EL. apply (in_free_flag L1 L2 r p false true x) in Hx.
      destruct Hx as [E|E]; [apply covers_free_in; exact E | exact E].
    + intros d Hd Hu. apply (Hkeep p true [] d Hd Hu).
Qed.

(** ** Rounding in [size_t] *)

Lemma pow2_bounds k : 0 <= k < 64 -> 0 < 2 ^ k < 2 ^ 64 /\ 2 ^ 64 = 2 ^ k * 2 ^ (64 - k).
Proof.
  intros Hk. split; [split; [apply Z.pow_pos_nonneg; lia | apply Z.pow_lt_mono_r; lia]|].
  rewrite <- Z.pow_add_r by lia. f_equal. lia.
Qed.

Lemma mul_le_from_lt a q c : 0 < a -> a * q < c * a + a -> a * q <= c * a.
Proof. intros Ha H. assert (q < c + 1) by nia. nia. Qed.

Lemma mul_eq_from_bounds a q c : 0 < a -> c * a <= a * q < c * a + a -> a * q = c * a.
Proof. intros Ha H. assert (q < c + 1) by nia. assert (c - 1 < q) by nia. nia. Qed.

Lemma mul_step a q t : 0 < a -> a * q < a * t -> a * q + a <= a * t.
Proof. intros Ha H. assert (q < t) by nia. nia. Qed.

(** X1.  For a power-of-two multiple and a size that leaves room for the
    rounding in [size_t], [align] returns the least multiple of [mult] that
    is at least [size]. *)
Theorem align_least_multiple size k :
  0 <= k < 64 -> 0 <= size -> size + 2 ^ k <= 2 ^ 64 ->
  (2 ^ k | align size (2 ^ k)) /\ size <= align size (2 ^ k) /\
  forall m, (2 ^ k | m) -> size <= m -> align size (2 ^ k) <= m.
Proof.
  intros Hk H0 Hs. destruct (align_round_up size k Hk H0 Hs) as (E & Hlo & Hhi).
  destruct (pow2_bounds k Hk) as ((Hp & _) & _).
  split; [rewrite E; exists ((size + (2 ^ k - 1)) / 2 ^ k); lia|].
  split; [exact Hlo|]. intros m (c & ->) Hm. rewrite E in *.
  apply mul_le_from_lt; lia.
Qed.

(** X2.  [align] leaves a size alone exactly when it is a multiple already,
    and rounding twice is rounding once. *)
Theorem align_fixes_multiples size k :
  0 <= k < 64 -> 0 <= size -> size + 2 ^ k <= 2 ^ 64 ->
  (align size (2 ^ k) = size <-> (2 ^ k | size)) /\
  align (align size (2 ^ k)) (2 ^ k) = align size (2 ^ k).
Proof.
  intros Hk H0 Hs. destruct (align_round_up size k Hk H0 Hs) as (E & Hlo & Hhi).
  destruct (pow2_bounds k Hk) as ((Hp & Hlt) & E64).
  assert (Hfix : forall s, 0 <= s -> s + 2 ^ k <= 2 ^ 64 -> (2 ^ k | s) ->
            align s (2 ^ k) = s).
  { intros s Hs0 Hs1 (c & ->).
    destruct (align_round_up (c * 2 ^ k) k Hk Hs0 Hs1) as (E' & Hlo' & Hhi').
    rewrite E' in *. apply mul_eq_from_bounds; lia. }
  split; [split|].
  - intros <-. rewrite E. exists ((size + (2 ^ k - 1)) / 2 ^ k). lia.
  - apply Hfix; assumption.
  - apply Hfix; [lia | | rewrite E; exists ((size + (2 ^ k - 1)) / 2 ^ k); lia].
    rewrite E in *. rewrite E64 in *. apply mul_step; lia.
Qed.

Lemma align_top_wraps size k :
  0 <= k < 64 -> 2 ^ 64 - 2 ^ k < size < 2 ^ 64 -> align size (2 ^ k) = 0.
Proof.
  intros Hk Hs. destruct (pow2_bounds k Hk) as ((Hp & Hlt) & E64).
  rewrite align_pow2 by exact Hk.
  assert (E : u64 (size + (2 ^ k - 1)) = size + (2 ^ k - 1) - 2 ^ 64).
  { unfold u64. symmetry. apply (Z.mod_unique _ _ 1); lia. }
  rewrite E, Z.div_small by lia. lia.
Qed.

(** X3.  Within [mult - 1] of the top of [size_t] the addition in [align]
    wraps around: the result is 0, which is below the size, not a multiple
    above it. *)
Theorem align_wraps_to_zero size k :
  0 <= k < 64 -> 2 ^ 64 - 2 ^ k < size < 2 ^ 64 ->
  align size (2 ^ k) = 0 /\ align size (2 ^ k) < size.
Proof.
  intros Hk Hs. destruct (pow2_bounds k Hk) as ((Hp & Hlt) & _).
  rewrite (align_top_wraps size k Hk Hs). split; [reflexivity | lia].
Qed.

(** ** The size field at initialization *)

(** X4.  [myinit] keeps the length of the region in a [size_t] but the payload
    of the first block in 32 bits: for every length above the header size it
    succeeds, sets [segment_end] to the end of the region, and records as
    payload the length minus the header reduced modulo 2^32.  Once that
    difference reaches 2^32 the first block therefore ends before
    [segment_end]. *)
Theorem myinit_payload_field heap_start heap_size st0 :
  HEADER_SIZE < heap_size < 2 ^ 64 ->
  fst (myinit heap_start heap_size st0) = true /\
  segment_end (snd (myinit heap_start heap_size st0)) = heap_start + heap_size /\
  Header_payload (snd (myinit heap_start heap_size st0)) heap_start =
    (heap_size - HEADER_SIZE) mod 2 ^ 32 /\
  Header_allocated (snd (myinit heap_start heap_size st0)) heap_start = 0 /\
  (2 ^ 32 <= heap_size - HEADER_SIZE ->
   heap_start + HEADER_SIZE +
     Header_payload (snd (myinit heap_start heap_size st0)) heap_start <
   segment_end (snd (myinit heap_start heap_size st0))).
Proof.
  intros Hs. unfold myinit, HEADER_SIZE in *.
  destruct (Z.leb_spec heap_size 8) as [?|_]; [lia|]. cbv zeta. cbn [fst snd].
  assert (Ev : u32 (u64 (heap_size - 8)) = (heap_size - 8) mod 2 ^ 32).
  { unfold u32, u64. rewrite (Z.mod_small (heap_size - 8) (2 ^ 64)) by lia. reflexivity. }
  rewrite Ev.
  pose proof (Z.mod_pos_bound (heap_size - 8) (2 ^ 32) ltac:(lia)) as Hm.
  unfold_state. mem_simpl.
  split; [reflexivity|]. split; [reflexivity|]. split; [reflexivity|].
  split; [reflexivity|]. intros Hbig. lia.
Qed.

(** ** The free list as a stack with removal *)

Lemma byte_of_Z_of_byte c t : byte_of_Z (Z_of_byte c + 256 * t) = c.
Proof.
  unfold byte_of_Z. pose proof (Z_of_byte_range c) as Hr.
  replace ((Z_of_byte c + 256 * t) mod 256) with (Z_of_byte c)
    by (apply (Z.mod_unique _ _ t); lia).
  unfold Z_of_byte. rewrite N2Z.id, Byte.of_to_N. reflexivity.
Qed.

(** Storing what is there changes nothing. *)
Lemma store_load_id n :
  forall m m' a x, (forall y, m' y = m y) -> store n m' a (load n m a) x = m x.
Proof.
  induction n as [|n IH]; intros m m' a x Hm; cbn [store load]; [apply Hm|].
  pose proof (Z_of_byte_range (m a)) as Hr.
  replace ((Z_of_byte (m a) + 256 * load n m (a + 1)) / 256) with (load n m (a + 1))
    by (apply (Z.div_unique _ _ _ (Z_of_byte (m a))); lia).
  apply IH. intros y. rewrite byte_of_Z_of_byte.
  destruct (Z.eqb_spec y a) as [->|_]; [reflexivity | apply Hm].
Qed.

Lemma rep_ext st st' L fl :
  rep st L fl -> (forall x, mem st' x = mem st x) ->
  segment_start st' = segment_start st -> segment_end st' = segment_end st ->
  free_list_start st' = free_list_start st ->
  rep st' L fl.
Proof.
  intros R Hm Es Ee Ef. constructor; rewrite ?Es, ?Ee, ?Ef; try apply R.
  - eapply hdrs_frame; [apply (rep_hdrs _ _ _ R)|]. intros; apply Hm.
  - eapply lseg_frame; [apply (rep_list _ _ _ R)|]. intros; apply Hm.
Qed.

Lemma add_block_rep st L1 L2 b p fl :
  rep st (L1 ++ mkBlock b p true :: L2) fl ->
  rep (add_block b st) (L1 ++ mkBlock b p false :: L2) (b :: fl).
Proof.
  intros R. apply free_block_rep in R.
  apply (rep_ext _ _ _ _ R); try reflexivity.
  intros x. symmetry. unfold set_Header_allocated, with_mem. cbn [mem].
  assert (E : load 4 (mem (add_block b st)) (b + 4) = 0).
  { unfold add_block, set_free_list_start, set_Header_allocated, with_mem. cbn [mem].
    rewrite load_store_same. reflexivity. }
  pose proof (store_load_id 4 (mem (add_block b st)) (mem (add_block b st)) (b + 4) x
                (fun _ => eq_refl)) as X.
  rewrite E in X. exact X.
Qed.

(** X5.  [add_block] pushes an allocated block of a valid heap on the front
    of the free list: the result is a valid heap in which the block is free,
    the list walk yields the block followed by the former entries in their
    order, and the payload of the block beyond its two link fields is
    untouched. *)
Theorem add_block_pushes_front st L1 L2 b p fl :
  rep st (L1 ++ mkBlock b p true :: L2) fl ->
  rep (add_block b st) (L1 ++ mkBlock b p false :: L2) (b :: fl) /\
  free_list_yields (add_block b st) (b :: fl) /\
  Pointers_previous (add_block b st) (get_payload_ptr b) = NULL /\
  Pointers_next (add_block b st) (get_payload_ptr b) = hd NULL fl /\
  (forall x, b + 24 <= x < b + HEADER_SIZE + p -> mem (add_block b st) x = mem st x).
Proof.
  intros R. pose proof (add_block_rep _ _ _ _ _ _ R) as R'.
  split; [exact R'|]. split; [intros fuel; apply (rep_free_walk _ _ _ fuel R')|].
  pose proof (rep_list _ _ _ R') as Hl. cbn [lseg] in Hl.
  destruct Hl as (_ & _ & Hp & Hl).
  unfold Pointers_previous, Pointers_next, get_payload_ptr, HEADER_SIZE.
  rewrite add_8_8. split; [exact Hp|]. split.
  - destruct fl as [|c fl]; cbn [lseg hd] in *; [exact Hl | apply (proj1 Hl)].
  - intros x Hx.
    assert (Hin : In (mkBlock b p true) (L1 ++ mkBlock b p true :: L2))
      by (apply in_or_app; right; left; reflexivity).
    destruct (rep_block_bounds _ _ _ _ R Hin) as (_ & B2 & _ & B4 & B5).
    unfold footprint, HEADER_SIZE in *. cbn [b_addr b_size] in *.
    assert (X := add_block_spec b st). cbv zeta in X.
    feed X; [lia | apply (rep_head_range _ _ _ R) | |].
    { intros Hne. pose proof (free_vs_block _ _ _ _ _ R Hin (head_in_list _ _ _ R Hne)) as Y.
      unfold footprint, HEADER_SIZE in Y. cbn [b_addr b_size b_used] in Y.
      destruct Y as [[_ ?]|[?|?]]; [discriminate | lia | lia]. }
    destruct X as (_ & _ & _ & _ & _ & _ & _ & M).
    destruct (M x) as [E|[E|(Hne & E)]]; [exact E | lia |]. exfalso.
    pose proof (free_vs_block _ _ _ _ _ R Hin (head_in_list _ _ _ R Hne)) as Y.
    unfold footprint, HEADER_SIZE in Y. cbn [b_addr b_size b_used] in Y.
    destruct Y as [[_ ?]|[?|?]]; [discriminate | lia | lia].
Qed.

(** X6.  [remove_block] unlinks a free block of a valid heap wherever it
    stands in the free list: the result is a valid heap in which the block
    is allocated, the list walk yields the other entries in their former
    order, and the payload of the block, its stale links included, is
    untouched. *)
Theorem remove_block_unlinks st L1 L2 b p l1 l2 :
  rep st (L1 ++ mkBlock b p false :: L2) (l1 ++ b :: l2) ->
  rep (remove_block b st) (L1 ++ mkBlock b p true :: L2) (l1 ++ l2) /\
  free_list_yields (remove_block b st) (l1 ++ l2) /\
  (forall x, b + HEADER_SIZE <= x < b + HEADER_SIZE + p ->
             mem (remove_block b st) x = mem st x).
Proof.
  intros R. destruct (remove_block_rep _ _ _ _ _ _ _ R) as (R' & Hch).
  split; [exact R'|]. split; [intros fuel; apply (rep_free_walk _ _ _ fuel R')|].
  intros x Hx. unfold HEADER_SIZE in Hx.
  destruct (Hch x) as [E|[E|(c & Hc & E)]]; [exact E | lia |]. exfalso.
  assert (Hin : In (mkBlock b p true) (L1 ++ mkBlock b p true :: L2))
    by (apply in_or_app; right; left; reflexivity).
  pose proof (free_vs_block _ _ _ _ _ R' Hin Hc) as Y.
  unfold footprint, HEADER_SIZE in Y. cbn [b_addr b_size b_used] in Y.
  destruct Y as [[_ ?]|[?|?]]; [discriminate | lia | lia].
Qed.

(** X7.  Pushing an allocated block on the free list and unlinking it again
    gives back the same layout and the same free list, order included. *)
Theorem add_then_remove_block st L1 L2 b p fl :
  rep st (L1 ++ mkBlock b p true :: L2) fl ->
  rep (remove_block b (add_block b st)) (L1 ++ mkBlock b p true :: L2) fl /\
  free_list_yields (remove_block b (add_block b st)) fl.
Proof.
  intros R. apply add_block_rep in R.
  destruct (remove_block_rep _ _ _ _ _ [] fl R) as (R' & _). cbn [app] in R'.
  split; [exact R' | intros fuel; apply (rep_free_walk _ _ _ fuel R')].
Qed.

(** ** What [mymalloc] hands out *)

Lemma aligned_size_ge n k :
  0 <= k < 64 -> ALIGNMENT = 2 ^ k -> 0 <= n -> n + ALIGNMENT <= 2 ^ 64 ->
  n <= aligned_size n.
Proof.
  intros Hk EA H0 Hn. unfold aligned_size. rewrite EA in *.
  destruct (align_round_up n k Hk H0 Hn) as (_ & Hlo & _).
  destruct (Z.ltb_spec (align n (2 ^ k)) MIN_PAYLOAD_SIZE); lia.
Qed.

Lemma mymalloc_served fuel n st r st' :
  mymalloc fuel n st = Some (r, st') -> r <> NULL -> n <= MAX_REQUEST_SIZE /\ n <> 0.
Proof.
  unfold mymalloc. intros E Hr.
  destruct (Z.ltb_spec MAX_REQUEST_SIZE n) as [?|?]; cbn [orb] in E.
  { injection E as <- _. contradiction. }
  destruct (Z.eqb_spec n 0) as [?|?]; [|auto].
  injection E as <- _. contradiction.
Qed.

Lemma used_not_listed st L fl b p : rep st L fl -> In (mkBlock b p true) L -> ~ In b fl.
Proof.
  intros R Hin Hfl. apply (rep_free _ _ _ R) in Hfl. destruct Hfl as (p' & Hp').
  assert (E : mkBlock b p' false = mkBlock b p true)
    by (apply (chain_addr_inj _ _ _ _ _ (rep_chain _ _ _ R) Hp' Hin); reflexivity).
  discriminate E.
Qed.

(** X8.  A successful [mymalloc] on a valid heap returns the payload pointer
    of a block that was on the free list and has left it; the block is
    allocated in the valid heap that results, lies inside the segment, and
    its payload holds the request: at least the aligned size, and less than
    the aligned size plus the minimum block size. *)
Theorem mymalloc_block st L fl n fuel r st' k :
  rep st L fl ->
  0 <= k < 64 -> ALIGNMENT = 2 ^ k -> MAX_REQUEST_SIZE + ALIGNMENT <= 2 ^ 64 ->
  0 <= n ->
  mymalloc fuel n st = Some (r, st') -> r <> NULL ->
  exists L' fl' p,
    rep st' L' fl' /\
    In (r - HEADER_SIZE) fl /\ ~ In (r - HEADER_SIZE) fl' /\
    In (mkBlock (r - HEADER_SIZE) p true) L' /\
    n <= aligned_size n <= p /\ p < aligned_size n + MIN_BLOCK_SIZE /\
    segment_start st + HEADER_SIZE <= r /\ r + p <= segment_end st.
Proof.
  intros R Hk EA Hmax H0 E Hr.
  destruct (mymalloc_served _ _ _ _ _ E Hr) as (Hn & _).
  pose proof (mymalloc_seg _ _ _ _ _ E) as (Es & Ee & _).
  pose proof (mymalloc_rep st L fl n fuel R) as X. rewrite E in X.
  destruct X as [(-> & _)|(b & -> & _ & Hfit)]; [contradiction|].
  pose proof (aligned_size_range n) as Ht.
  destruct (fit_result_writes _ _ _ _ _ _ R (proj1 Ht) Hfit)
    as (L' & fl' & p & R' & Hin & Hp & Hfl & _).
  replace (b + HEADER_SIZE - HEADER_SIZE) with b by lia.
  exists L', fl', p. split; [exact R'|]. split; [exact Hfl|].
  split; [apply (used_not_listed _ _ _ _ _ R' Hin)|]. split; [exact Hin|].
  pose proof (aligned_size_ge n k Hk EA H0 ltac:(lia)) as Hge.
  destruct (rep_block_bounds _ _ _ _ R' Hin) as (B1 & _ & B3 & _).
  unfold footprint, HEADER_SIZE in *. cbn [b_addr b_size] in *. lia.
Qed.

(** X9.  [mymalloc] writes only into blocks that were free: on a valid heap
    every block that was allocated before the call is a block of the
    resulting valid heap, with the same header and the same payload bytes. *)
Theorem mymalloc_keeps_allocated st L fl n fuel r st' :
  rep st L fl -> mymalloc fuel n st = Some (r, st') ->
  exists L' fl',
    rep st' L' fl' /\
    forall d, In d L -> b_used d = true -> In d L' /\ block_kept st st' d.
Proof.
  intros R E.
  pose proof (mymalloc_rep st L fl n fuel R) as X. rewrite E in X.
  destruct X as [(_ & ->)|(b & _ & _ & Hfit)].
  - exists L, fl. split; [exact R|]. intros d Hd _. split; [exact Hd|]. intros x _. reflexivity.
  - destruct (fit_result_writes _ _ _ _ _ _ R (proj1 (aligned_size_range n)) Hfit)
      as (L' & fl' & p & R' & _ & _ & _ & Hw & _ & Hkeep).
    exists L', fl'. split; [exact R'|]. intros d Hd Hu. split; [apply Hkeep; assumption|].
    intros x Hx. destruct (Hw x) as [Ex|Ex]; [exact Ex|]. exfalso.
    apply (in_free_used_disjoint _ _ _ d x (rep_chain _ _ _ R) Hd Hu Hx Ex).
Qed.

(** X10.  On a valid heap, with fuel for the whole free list, [mymalloc] of a
    servable count returns; it returns the null pointer exactly when every
    free block has a payload below the aligned size, and then the state is
    the one it was given. *)
Theorem mymalloc_fails_iff_no_fit st L fl n fuel :
  rep st L fl -> 0 < n <= MAX_REQUEST_SIZE -> (length fl <= fuel)%nat ->
  exists r st',
    mymalloc fuel n st = Some (r, st') /\
    (r = NULL <-> forall d, In d L -> b_used d = false -> b_size d < aligned_size n) /\
    (r = NULL -> st' = st).
Proof.
  intros R Hn Hfuel. pose proof (aligned_size_range n) as Ht.
  pose proof (find_fit_loop_rep st L fl (aligned_size n) R Ht
                fl [] NULL (free_list_start st) fuel eq_refl (rep_list _ _ _ R)) as X.
  feed X; [intros c []|].
  assert (Erun : mymalloc fuel n st =
            match find_fit_loop fuel (aligned_size n) st (free_list_start st) with
            | None => None
            | Some (block, st') =>
              if negb (block =? NULL) then Some (get_payload_ptr block, st')
              else Some (NULL, st')
            end).
  { unfold mymalloc. destruct (Z.ltb_spec MAX_REQUEST_SIZE n) as [?|_]; [lia|].
    destruct (Z.eqb_spec n 0) as [?|_]; [lia|]. reflexivity. }
  rewrite Erun.
  destruct (find_fit_loop fuel (aligned_size n) st (free_list_start st)) as [[b st']|];
    [|lia].
  destruct X as [(-> & -> & Hsm)|(Hb & Hfit)].
  - rewrite Z.eqb_refl. cbn [negb]. exists NULL, st. split; [reflexivity|].
    split; [|auto]. split; [|auto]. intros _ d Hd Hu.
    destruct (hdrs_In _ _ _ (rep_hdrs _ _ _ R) Hd) as (Hp & _).
    rewrite <- Hp. apply Hsm. apply (rep_free _ _ _ R). exists (b_size d).
    destruct d as [a q f]. cbn [b_used b_addr b_size] in *. subst f. exact Hd.
  - destruct (Z.eqb_spec b NULL) as [?|_]; [contradiction|]. cbn [negb].
    exists (get_payload_ptr b), st'. split; [reflexivity|].
    destruct Hfit as (L1 & L2 & l1 & l2 & p & EL & _ & _ & _ & Hfit & _).
    assert (Hin : In (mkBlock b p false) L)
      by (rewrite EL; apply in_or_app; right; left; reflexivity).
    destruct (rep_block_bounds _ _ _ _ R Hin) as (_ & Hpos & _).
    cbn [b_addr] in Hpos.
    assert (Hne : get_payload_ptr b <> NULL)
      by (unfold get_payload_ptr, HEADER_SIZE, NULL; lia).
    split; [|contradiction]. split; [contradiction|].
    intros Hsm. specialize (Hsm _ Hin eq_refl). cbn [b_size] in Hsm. lia.
Qed.


(** ** Addresses *)





(** ** What [myfree] writes *)

Lemma coalesce_step_writes st L1 L2 b p c pc fl x :
  rep st (L1 ++ mkBlock b p true :: mkBlock c pc false :: L2) fl ->
  let st1 :=
    set_Header_payload b
      (u32 (Header_payload st b + u32 (Header_payload st c + HEADER_SIZE))) st in
  mem (remove_block c st1) x = mem st x \/ b <= x < b + 4 \/
  in_free (L1 ++ mkBlock b p true :: mkBlock c pc false :: L2) x.
Proof.
  intros R st1.
  set (L := L1 ++ mkBlock b p true :: mkBlock c pc false :: L2) in *.
  pose proof (rep_sep_list _ _ _ R) as Hsep.
  assert (Hinb : In (mkBlock b p true) L) by (apply in_or_app; right; left; reflexivity).
  assert (Hinc : In (mkBlock c pc false) L)
    by (apply in_or_app; right; right; left; reflexivity).
  assert (Hcfl : In c fl) by (apply (rep_free _ _ _ R); exists pc; exact Hinc).
  destruct (in_split _ _ Hcfl) as (l1 & l2 & Efl).
  assert (Hfb : forall a, In a fl -> a + 24 <= b \/ b + 8 + p <= a).
  { intros a Ha. pose proof (free_vs_block _ _ _ _ _ R Hinb Ha) as X.
    unfold footprint, HEADER_SIZE in X. cbn [b_addr b_size b_used] in X.
    destruct X as [[_ ?]|[?|?]]; [discriminate | lia | lia]. }
  destruct (rep_block_bounds _ _ _ _ R Hinb) as (_ & _ & _ & _ & Bb5).
  unfold MIN_PAYLOAD_SIZE in Bb5. cbn [b_size] in Bb5.
  assert (Hl1 : lseg (mem st1) NULL (free_list_start st1) (l1 ++ c :: l2) NULL).
  { rewrite <- Efl. eapply lseg_frame; [apply (rep_list _ _ _ R)|].
    intros a y Ha Hy. subst st1. unfold set_Header_payload, with_mem. cbn [mem].
    apply store_outside. specialize (Hfb a Ha). lia. }
  assert (Hsep1 : sep_list (l1 ++ c :: l2)) by (rewrite <- Efl; exact Hsep).
  destruct (remove_block_lseg c st1 l1 l2 Hl1 Hsep1) as (_ & _ & _ & _ & Hch).
  destruct (Hch x) as [E|[E|(a & Ha & E)]].
  - rewrite E. subst st1. unfold set_Header_payload, with_mem. cbn [mem].
    destruct (store_cases 4 (mem st) b
                (u32 (Header_payload st b + u32 (Header_payload st c + HEADER_SIZE))) x)
      as [E'|E']; [left; exact E' | right; left; lia].
  - right; right. apply (in_free_node st L fl c x R Hcfl). lia.
  - right; right. apply (in_free_node st L fl a x R); [|lia].
    rewrite Efl. apply in_app_or in Ha. apply in_or_app.
    destruct Ha; [left | right; right]; assumption.
Qed.

Lemma coalesce_loop_writes L1 b R' F :
  Forall (fun d => b_used d = false) F -> stops_here R' ->
  forall fuel st p fl st',
  rep st (L1 ++ mkBlock b p true :: F ++ R') fl ->
  coalesce_loop fuel b st (b + p + HEADER_SIZE) = Some st' ->
  forall x, mem st' x = mem st x \/ b <= x < b + 4 \/
            in_free (L1 ++ mkBlock b p true :: F ++ R') x.
Proof.
  intros HF Hstop. induction HF as [|d F Hd HF IH]; intros fuel st p fl st' R E x.
  - pose proof (coalesce_loop_rep L1 b R' [] (Forall_nil _) Hstop fuel st p fl R) as X.
    rewrite E in X. destruct X as (_ & _ & Hsame). rewrite (Hsame eq_refl).
    left; reflexivity.
  - rewrite coalesce_loop_eq in E. destruct d as [c pc fc]. cbn [b_used] in Hd. subst fc.
    cbn [app] in R.
    destruct (coalesce_step _ _ _ _ _ _ _ _ R) as (R2 & Ec & Hpc & Ee & _).
    assert (Hinc : In (mkBlock c pc false)
                     (L1 ++ mkBlock b p true :: mkBlock c pc false :: F ++ R'))
      by (apply in_or_app; right; right; left; reflexivity).
    destruct (rep_block_bounds _ _ _ _ R Hinc) as (_ & _ & Bc & _ & Bs).
    destruct (hdrs_In _ _ _ (rep_hdrs _ _ _ R) Hinc) as (_ & Hfl).
    unfold footprint, HEADER_SIZE, MIN_PAYLOAD_SIZE in Bc, Bs.
    cbn [b_addr b_size b_used flag] in *.
    assert (Hcond : (b + p + HEADER_SIZE <? segment_end st) &&
                    (Header_allocated st (b + p + HEADER_SIZE) =? 0) = true).
    { rewrite <- Ec. unfold Header_allocated. rewrite Hfl.
      apply andb_true_intro. split; [apply Z.ltb_lt; lia | reflexivity]. }
    rewrite Hcond in E. destruct fuel as [|k]; [discriminate E|].
    cbv zeta in E. rewrite <- Ec in E. rewrite Hpc in E.
    replace (c + pc + HEADER_SIZE) with (b + (p + pc + HEADER_SIZE) + HEADER_SIZE) in E
      by (unfold HEADER_SIZE in *; lia).
    specialize (IH k _ _ _ _ R2 E x).
    pose proof (coalesce_step_writes _ _ _ _ _ _ _ _ x R) as W. cbv zeta in W.
    cbn [app].
    destruct IH as [E1|[E1|(d & Hdin & Hdf & Hdx)]].
    + rewrite E1. exact W.
    + right; left. exact E1.
    + right; right. exists d. split; [|auto].
      apply in_app_or in Hdin. apply in_or_app.
      destruct Hdin as [Hdin|[<-|Hdin]]; [left; exact Hdin | discriminate Hdf |].
      right. right. right. exact Hdin.
Qed.

Lemma myfree_writes st fl L1 b p F R' fuel st' x :
  rep st (L1 ++ mkBlock b p true :: F ++ R') fl ->
  Forall (fun d => b_used d = false) F -> stops_here R' ->
  myfree fuel (b + HEADER_SIZE) st = Some st' ->
  mem st' x = mem st x \/ b <= x < b + 24 \/
  in_free (L1 ++ mkBlock b p true :: F ++ R') x.
Proof.
  intros R HF Hs.
  assert (Hin : In (mkBlock b p true) (L1 ++ mkBlock b p true :: F ++ R'))
    by (apply in_or_app; right; left; reflexivity).
  destruct (rep_block_bounds _ _ _ _ R Hin) as (_ & Hpos & _ & B4 & B5).
  destruct (hdrs_In _ _ _ (rep_hdrs _ _ _ R) Hin) as (Hp & _).
  cbn [b_addr b_size] in *.
  unfold myfree, coalesce_right.
  replace (b + HEADER_SIZE - HEADER_SIZE) with b by lia.
  destruct (Z.eqb_spec (b + HEADER_SIZE) NULL) as [E|_];
    [unfold HEADER_SIZE, NULL in E; lia|].
  destruct (Z.eqb_spec b NULL) as [E|_]; [unfold NULL in E; lia|].
  cbn [negb]. unfold Header_payload. rewrite Hp.
  pose proof (coalesce_loop_rep L1 b R' F HF Hs fuel st p fl R) as X.
  destruct (coalesce_loop fuel b st (b + p + HEADER_SIZE)) as [st1|] eqn:E1;
    [|discriminate].
  destruct X as (R1 & _ & _). intros E. injection E as <-.
  pose proof (coalesce_loop_writes L1 b R' F HF Hs fuel st p fl st1 R E1 x) as W.
  assert (Hin1 : In (mkBlock b (p + absorbed F) true)
                   (L1 ++ mkBlock b (p + absorbed F) true :: R'))
    by (apply in_or_app; right; left; reflexivity).
  assert (Hhead : free_list_start st1 <> NULL ->
            In (free_list_start st1) fl /\
            (free_list_start st1 + 24 <= b \/ b + 24 <= free_list_start st1)).
  { intros Hne. pose proof (head_in_list _ _ _ R1 Hne) as Hh.
    split; [apply (remove_all_In _ _ _ Hh)|].
    pose proof (free_vs_block _ _ _ _ _ R1 Hin1 Hh) as Y.
    destruct (rep_block_bounds _ _ _ _ R1 Hin1) as (_ & _ & _ & _ & B6).
    unfold footprint, HEADER_SIZE, MIN_PAYLOAD_SIZE in *. cbn [b_addr b_size b_used] in *.
    destruct Y as [[_ ?]|[?|?]]; [discriminate | lia | lia]. }
  assert (X := add_block_spec b st1). cbv zeta in X.
  unfold footprint, HEADER_SIZE, MIN_PAYLOAD_SIZE in B4, B5. cbn [b_addr b_size] in B4, B5.
  feed X; [lia | apply (rep_head_range _ _ _ R1) | intros Hne; apply (Hhead Hne) |].
  destruct X as (_ & _ & _ & _ & _ & _ & _ & M).
  assert (M4 : mem (set_Header_allocated b 0 (add_block b st1)) x =
               mem (add_block b st1) x \/ b + 4 <= x < b + 8).
  { unfold set_Header_allocated, with_mem. cbn [mem].
    destruct (store_cases 4 (mem (add_block b st1)) (b + 4) 0 x) as [E|E];
      [left; exact E | right; lia]. }
  destruct M4 as [E4|E4]; [rewrite E4 | right; left; lia].
  destruct (M x) as [E|[E|(Hne & E)]].
  - rewrite E. destruct W as [W|[W|W]]; [left; exact W | right; left; lia | right; right; exact W].
  - right; left. lia.
  - right; right. destruct (Hhead Hne) as (Hh & _).
    apply (in_free_node st _ fl (free_list_start st1) x R Hh). lia.
Qed.

Lemma myfree_kept st fl L1 b p F R' fuel st' d :
  rep st (L1 ++ mkBlock b p true :: F ++ R') fl ->
  Forall (fun d => b_used d = false) F -> stops_here R' ->
  myfree fuel (b + HEADER_SIZE) st = Some st' ->
  In d (L1 ++ mkBlock b p true :: F ++ R') -> b_used d = true -> b_addr d <> b ->
  In d (L1 ++ mkBlock b (p + absorbed F) false :: R') /\ block_kept st st' d.
Proof.
  intros R HF Hs E Hd Hu Hne.
  assert (Hin : In (mkBlock b p true) (L1 ++ mkBlock b p true :: F ++ R'))
    by (apply in_or_app; right; left; reflexivity).
  pose proof (rep_chain _ _ _ R) as Hc. split.
  - apply in_app_or in Hd. apply in_or_app.
    destruct Hd as [Hd|[<-|Hd]]; [left; exact Hd | cbn [b_addr] in Hne; contradiction |].
    right. right. apply in_app_or in Hd. destruct Hd as [Hd|Hd]; [|exact Hd].
    rewrite Forall_forall in HF. rewrite (HF d Hd) in Hu. discriminate Hu.
  - intros x Hx.
    destruct (myfree_writes _ _ _ _ _ _ _ _ _ x R HF Hs E) as [W|[W|W]]; [exact W | |].
    + exfalso. destruct (chain_In _ _ _ _ Hc Hin) as (_ & _ & Hz).
      destruct (chain_sep _ _ _ _ _ Hc Hd Hin) as [Ed|[Ed|Ed]];
        [subst d; cbn [b_addr] in Hne; contradiction | |];
        unfold covers, footprint, HEADER_SIZE, MIN_PAYLOAD_SIZE in *;
        cbn [b_addr b_size] in *; lia.
    + exfalso. apply (in_free_used_disjoint _ _ _ d x Hc Hd Hu Hx W).
Qed.

(** X14.  [myfree] of a live pointer on a valid heap, with fuel for the
    blocks of the heap, returns a valid heap in which the block is free,
    has absorbed the run [F] of free blocks that followed it, and heads the
    free list, from which the absorbed blocks are gone.  It writes only into
    the header and the two link fields of the released block and into blocks
    that were free: every other allocated block keeps its header and its
    payload bytes. *)
Theorem myfree_releases st L fl b p fuel :
  rep st L fl -> In (mkBlock b p true) L -> (length L <= fuel)%nat ->
  exists st' L1 F R',
    myfree fuel (b + HEADER_SIZE) st = Some st' /\
    L = L1 ++ mkBlock b p true :: F ++ R' /\
    Forall (fun d => b_used d = false) F /\ stops_here R' /\
    rep st' (L1 ++ mkBlock b (p + absorbed F) false :: R') (b :: remove_all F fl) /\
    (forall d, In d L -> b_used d = true -> b_addr d <> b ->
               In d (L1 ++ mkBlock b (p + absorbed F) false :: R') /\
               block_kept st st' d) /\
    (forall x, b + 24 <= x < b + HEADER_SIZE + p -> mem st' x = mem st x).
Proof.
  intros R Hin Hfuel. pose proof (myfree_rep _ _ _ _ _ fuel R Hin) as X.
  destruct (myfree fuel (b + HEADER_SIZE) st) as [st'|] eqn:E; [|lia].
  destruct X as (L1 & F & R' & EL & HF & Hs & R1).
  exists st', L1, F, R'. split; [reflexivity|]. split; [exact EL|].
  split; [exact HF|]. split; [exact Hs|]. split; [exact R1|].
  assert (R0 := R). rewrite EL in R0.
  assert (Hc : chain (segment_start st) L (segment_end st)) by apply (rep_chain _ _ _ R).
  split.
  - intros d Hd Hu Hne. rewrite EL in Hd.
    apply (myfree_kept _ _ _ _ _ _ _ _ _ d R0 HF Hs E Hd Hu Hne).
  - intros x Hx.
    destruct (myfree_writes _ _ _ _ _ _ _ _ _ x R0 HF Hs E) as [W|[W|W]];
      [exact W | lia |].
    exfalso. rewrite <- EL in W.
    apply (in_free_used_disjoint _ _ _ (mkBlock b p true) x Hc Hin eq_refl); [|exact W].
    unfold covers, footprint, HEADER_SIZE in *. cbn [b_addr b_size]. lia.
Qed.

(** ** Releasing and allocating in turn *)

Lemma absorbed_run_nonneg st L1 d F R' fl :
  rep st (L1 ++ d :: F ++ R') fl -> 0 <= absorbed F.
Proof.
  intros R. pose proof (rep_chain _ _ _ R) as Hc. apply chain_split in Hc.
  destruct Hc as (_ & _ & Hc). apply chain_app in Hc.
  destruct Hc as (mid & Hc & _). apply (absorbed_nonneg _ _ _ Hc).
Qed.

(** X15.  A released block is the first to be reused: after [myfree] of a
    live pointer, [mymalloc] of any servable count whose aligned size fits
    the payload the block had returns that same pointer. *)
Theorem free_then_malloc_reuses st L fl b p n fuel :
  rep st L fl -> In (mkBlock b p true) L -> (length L <= fuel)%nat ->
  0 < n <= MAX_REQUEST_SIZE -> aligned_size n <= p ->
  exists st1 st2,
    myfree fuel (b + HEADER_SIZE) st = Some st1 /\
    mymalloc fuel n st1 = Some (b + HEADER_SIZE, st2).
Proof.
  intros R Hin Hfuel Hn Hfit. pose proof (myfree_rep _ _ _ _ _ fuel R Hin) as X.
  destruct (myfree fuel (b + HEADER_SIZE) st) as [st1|] eqn:E; [|lia].
  destruct X as (L1 & F & R' & EL & HF & Hs & R1).
  assert (R0 := R). rewrite EL in R0.
  pose proof (absorbed_run_nonneg _ _ _ _ _ _ R0) as Habs.
  assert (Hin1 : In (mkBlock b (p + absorbed F) false)
                   (L1 ++ mkBlock b (p + absorbed F) false :: R'))
    by (apply in_or_app; right; left; reflexivity).
  destruct (hdrs_In _ _ _ (rep_hdrs _ _ _ R1) Hin1) as (Hp & _).
  destruct (rep_block_bounds _ _ _ _ R1 Hin1) as (_ & Hpos & _ & _ & Bs).
  cbn [b_addr b_size] in *.
  pose proof (rep_list _ _ _ R1) as Hl. cbn [lseg] in Hl. destruct Hl as (Eh & _).
  pose proof (aligned_size_range n) as Ht.
  exists st1. eexists. split; [reflexivity|]. unfold mymalloc.
  destruct (Z.ltb_spec MAX_REQUEST_SIZE n) as [?|_]; [lia|].
  destruct (Z.eqb_spec n 0) as [?|_]; [lia|]. cbn [orb]. cbv zeta.
  fold (aligned_size n). unfold find_fit. rewrite Eh, find_fit_loop_eq.
  destruct (Z.eqb_spec b NULL) as [Eb|_]; [unfold NULL in Eb; lia|].
  destruct fuel as [|k]; [rewrite EL, length_app in Hfuel; cbn [length] in Hfuel; lia|].
  cbv zeta. unfold Header_payload. rewrite Hp.
  destruct (Z.leb_spec (aligned_size n) (p + absorbed F)) as [_|?]; [|lia].
  destruct (Z.eqb_spec b NULL) as [Eb|_]; [unfold NULL in Eb; lia|]. cbn [negb].
  reflexivity.
Qed.

Lemma chain_split_eq s e L1 b L2 L1' b' L2' :
  chain s (L1 ++ b :: L2) e -> L1 ++ b :: L2 = L1' ++ b' :: L2' ->
  b_addr b = b_addr b' -> L1 = L1' /\ b = b' /\ L2 = L2'.
Proof.
  intros Hc E Ha.
  assert (Hb : In b (L1 ++ b :: L2)) by (apply in_or_app; right; left; reflexivity).
  assert (Hb' : In b' (L1 ++ b :: L2))
    by (rewrite E; apply in_or_app; right; left; reflexivity).
  pose proof (chain_addr_inj _ _ _ _ _ Hc Hb Hb' Ha) as <-.
  assert (Hpos : forall d, In d (L1 ++ b :: L2) -> 0 < footprint d).
  { intros d Hd. destruct (chain_In _ _ _ _ Hc Hd) as (_ & _ & Hz).
    unfold footprint, HEADER_SIZE, MIN_PAYLOAD_SIZE in *. lia. }
  clear Hb'. revert s L1' Hc E Hb Hpos.
  induction L1 as [|a L1 IH]; intros s L1' Hc E Hb Hpos; destruct L1' as [|a' L1'];
    cbn [app] in *.
  - injection E as E. auto.
  - injection E as <- E. exfalso.
    assert (Hin : In b L2) by (rewrite E; apply in_or_app; right; left; reflexivity).
    pose proof (chain_after s [] b L2 e b Hc Hin) as X.
    specialize (Hpos b (or_introl eq_refl)). lia.
  - injection E as <- E. exfalso.
    assert (Hin : In a (L1 ++ a :: L2)) by (apply in_or_app; right; left; reflexivity).
    pose proof (chain_after s [] a (L1 ++ a :: L2) e a Hc Hin) as X.
    specialize (Hpos a (or_introl eq_refl)). lia.
  - injection E as <- E. cbn [chain] in Hc. destruct Hc as (_ & _ & Hc).
    destruct (IH _ L1' Hc E) as (-> & _ & ->);
      [apply in_or_app; right; left; reflexivity
      | intros d Hd; apply Hpos; right; exact Hd |].
    auto.
Qed.

(** X16.  Allocating and releasing at once restores the heap: when
    [mymalloc] takes the free block at [r], whose right neighbour is
    allocated or absent, [myfree] of the pointer it returned gives back the
    same layout, the split undone; on the free list the block has moved to
    the front and the other entries keep their order. *)
Theorem malloc_then_free_restores st L1 L2 fl r p n fuel st1 :
  rep st (L1 ++ mkBlock r p false :: L2) fl -> stops_here L2 ->
  mymalloc fuel n st = Some (r + HEADER_SIZE, st1) -> (1 <= fuel)%nat ->
  exists st2,
    myfree fuel (r + HEADER_SIZE) st1 = Some st2 /\
    rep st2 (L1 ++ mkBlock r p false :: L2) (r :: remove Z.eq_dec r fl).
Proof.
  intros R Hs E Hfuel.
  assert (Hin : In (mkBlock r p false) (L1 ++ mkBlock r p false :: L2))
    by (apply in_or_app; right; left; reflexivity).
  destruct (rep_block_bounds _ _ _ _ R Hin) as (_ & Hpos & _).
  cbn [b_addr] in Hpos.
  pose proof (mymalloc_rep st _ fl n fuel R) as X. rewrite E in X.
  destruct X as [(E0 & _)|(b & Eb & _ & Hfit)];
    [unfold HEADER_SIZE, NULL in E0; lia|].
  assert (b = r) by lia. subst b.
  destruct Hfit as (L1' & L2' & l1 & l2 & p' & EL & Efl & _ & _ & Hle & Hcase).
  destruct (chain_split_eq _ _ _ _ _ _ _ _ (rep_chain _ _ _ R) EL eq_refl)
    as (<- & Ep & <-).
  injection Ep as <-.
  assert (Hrm : remove Z.eq_dec r fl = l1 ++ l2).
  { rewrite Efl. apply remove_app_mid. rewrite <- Efl. apply (rep_nodup _ _ _ R). }
  rewrite Hrm.
  destruct (Z.leb_spec (aligned_size n + MIN_BLOCK_SIZE) p) as [Hsplit|Hno].
  - destruct Hcase as (_ & R1).
    set (c := r + aligned_size n + HEADER_SIZE) in *.
    set (D := mkBlock c (p - aligned_size n - HEADER_SIZE) false) in *.
    assert (R1' : rep st1 (L1 ++ mkBlock r (aligned_size n) true :: [D] ++ L2)
                    (c :: l1 ++ l2)) by exact R1.
    pose proof (myfree_rep_at _ _ _ _ _ _ _ fuel R1'
                  (Forall_cons D eq_refl (Forall_nil _)) Hs) as Y.
    destruct (myfree fuel (r + HEADER_SIZE) st1) as [st2|]; [|cbn [length] in Y; lia].
    exists st2. split; [reflexivity|].
    change (absorbed [D]) with (footprint D + 0) in Y.
    unfold footprint, D in Y. cbn [b_size] in Y.
    replace (aligned_size n + (HEADER_SIZE + (p - aligned_size n - HEADER_SIZE) + 0))
      with p in Y by lia.
    change (remove_all [mkBlock c (p - aligned_size n - HEADER_SIZE) false]
                       (c :: l1 ++ l2))
      with (remove Z.eq_dec c (c :: l1 ++ l2)) in Y.
    rewrite remove_cons, notin_remove in Y; [exact Y|].
    pose proof (rep_nodup _ _ _ R1) as Hnd. apply NoDup_cons_iff in Hnd. apply Hnd.
  - destruct Hcase as (_ & R1).
    assert (R1' : rep st1 (L1 ++ mkBlock r p true :: [] ++ L2) (l1 ++ l2)) by exact R1.
    pose proof (myfree_rep_at _ _ _ _ _ _ _ fuel R1' (Forall_nil _) Hs) as Y.
    destruct (myfree fuel (r + HEADER_SIZE) st1) as [st2|]; [|cbn [length] in Y; lia].
    exists st2. split; [reflexivity|].
    change (absorbed []) with 0 in Y. rewrite Z.add_0_r in Y. exact Y.
Qed.

Lemma find_fit_loop_cycle st b req :
  b <> NULL -> Header_payload st b < req ->
  Pointers_next st (get_payload_ptr b) = b ->
  forall fuel, find_fit_loop fuel req st b = None.
Proof.
  intros Hb Hp Hn. induction fuel as [|k IH]; rewrite find_fit_loop_eq;
    destruct (Z.eqb_spec b NULL) as [?|_]; try contradiction; [reflexivity|].
  cbv zeta. destruct (Z.leb_spec req (Header_payload st b)) as [?|_]; [lia|].
  rewrite Hn. exact IH.
Qed.

(** X17.  Releasing a block a second time, while it is still the head of
    the free list, makes the block its own successor: the free list becomes
    a cycle, and from then on every request that the block cannot hold makes
    [mymalloc] search without end (no amount of fuel gives a result). *)
Theorem double_free_self_loop st L1 R' b p fl fuel :
  rep st (L1 ++ mkBlock b p false :: R') (b :: fl) -> stops_here R' ->
  exists st',
    myfree fuel (b + HEADER_SIZE) st = Some st' /\
    free_list_start st' = b /\
    Pointers_next st' (get_payload_ptr b) = b /\
    forall fuel' n, 0 < n <= MAX_REQUEST_SIZE -> p < aligned_size n ->
      mymalloc fuel' n st' = None.
Proof.
  intros R Hstop.
  assert (Hin : In (mkBlock b p false) (L1 ++ mkBlock b p false :: R'))
    by (apply in_or_app; right; left; reflexivity).
  destruct (rep_block_bounds _ _ _ _ R Hin) as (_ & Hpos & _ & B4 & B5).
  destruct (hdrs_In _ _ _ (rep_hdrs _ _ _ R) Hin) as (Hp & _).
  pose proof (rep_list _ _ _ R) as Hl. cbn [lseg] in Hl. destruct Hl as (Eh & _).
  cbn [b_addr b_size] in *.
  assert (Hcond : (b + p + HEADER_SIZE <? segment_end st) &&
                  (Header_allocated st (b + p + HEADER_SIZE) =? 0) = false).
  { pose proof (rep_chain _ _ _ R) as Hc. apply chain_split in Hc.
    destruct Hc as (_ & _ & Hc). unfold footprint in Hc. cbn [b_addr b_size] in Hc.
    destruct R' as [|d R'']; cbn [chain] in Hc.
    - apply andb_false_intro1. apply Z.ltb_ge. lia.
    - apply andb_false_intro2. destruct Hc as (Ha & _). cbn [stops_here] in Hstop.
      assert (Hd : In d (L1 ++ mkBlock b p false :: d :: R''))
        by (apply in_or_app; right; right; left; reflexivity).
      destruct (hdrs_In _ _ _ (rep_hdrs _ _ _ R) Hd) as (_ & Hfl).
      unfold Header_allocated. replace (b + p + HEADER_SIZE) with (b_addr d) by lia.
      rewrite Hfl, Hstop. reflexivity. }
  assert (Erun : myfree fuel (b + HEADER_SIZE) st =
                 Some (set_Header_allocated b 0 (add_block b st))).
  { unfold myfree, coalesce_right.
    replace (b + HEADER_SIZE - HEADER_SIZE) with b by lia.
    destruct (Z.eqb_spec (b + HEADER_SIZE) NULL) as [E|_];
      [unfold HEADER_SIZE, NULL in E; lia|].
    destruct (Z.eqb_spec b NULL) as [E|_]; [unfold NULL in E; lia|].
    cbn [negb]. unfold Header_payload. rewrite Hp.
    rewrite coalesce_loop_eq, Hcond. reflexivity. }
  exists (set_Header_allocated b 0 (add_block b st)).
  split; [exact Erun|].
  unfold footprint, HEADER_SIZE, MIN_PAYLOAD_SIZE in B4, B5. cbn [b_addr b_size] in B4, B5.
  assert (Enx : Pointers_next (set_Header_allocated b 0 (add_block b st))
                  (get_payload_ptr b) = b).
  { unfold add_block. rewrite Eh.
    destruct (Z.eqb_spec b NULL) as [E|_]; [unfold NULL in E; lia|].
    unfold_state. mem_simpl. reflexivity. }
  assert (Epl : Header_payload (set_Header_allocated b 0 (add_block b st)) b = p).
  { unfold add_block. rewrite Eh.
    destruct (Z.eqb_spec b NULL) as [E|_]; [unfold NULL in E; lia|].
    unfold_state. mem_simpl. exact Hp. }
  split; [reflexivity|]. split; [exact Enx|].
  intros fuel' n Hn Hbig. unfold mymalloc.
  destruct (Z.ltb_spec MAX_REQUEST_SIZE n) as [?|_]; [lia|].
  destruct (Z.eqb_spec n 0) as [?|_]; [lia|]. cbn [orb]. cbv zeta.
  fold (aligned_size n). unfold find_fit.
  change (free_list_start (set_Header_allocated b 0 (add_block b st))) with b.
  rewrite find_fit_loop_cycle; [reflexivity | unfold NULL; lia | lia | exact Enx].
Qed.

(** ** Releasing every block *)

Lemma rep_no_free_used st L : rep st L [] -> Forall (fun d => b_used d = true) L.
Proof.
  intros R. apply Forall_forall. intros d Hd. destruct (b_used d) eqn:E; [reflexivity|].
  exfalso. apply (proj2 (rep_free _ _ _ R (b_addr d))).
  exists (b_size d). destruct d as [a q f]. cbn [b_used b_addr b_size] in *. subst f. exact Hd.
Qed.

(** Releasing allocated blocks from the highest address down, above a tail
    [T] that is empty or one free block: each release absorbs the tail. *)
Lemma free_all_descending fuel :
  (1 <= fuel)%nat ->
  forall Lp st T flT,
  rep st (Lp ++ T) flT -> Forall (fun d => b_used d = true) Lp ->
  (T = [] /\ flT = []) \/ (exists u q, T = [mkBlock u q false] /\ flT = [u]) ->
  Lp ++ T <> [] ->
  exists st',
    free_all fuel (payload_ptrs (rev Lp)) st = Some st' /\
    rep st' [mkBlock (segment_start st)
                     (segment_end st - segment_start st - HEADER_SIZE) false]
        [segment_start st].
Proof.
  intros Hfuel Lp. induction Lp as [|d Lp IH] using rev_ind; intros st T flT R Hu HT Hne.
  - cbn [app rev payload_ptrs map free_all] in *.
    destruct HT as [(-> & _)|(u & q & -> & ->)]; [contradiction|].
    exists st. split; [reflexivity|].
    pose proof (rep_chain _ _ _ R) as Hc. cbn [chain] in Hc.
    destruct Hc as (Ha & _ & He). unfold footprint in He. cbn [b_addr b_size] in *.
    subst u. replace (segment_end st - segment_start st - HEADER_SIZE) with q by lia.
    exact R.
  - rewrite rev_app_distr. cbn [rev app payload_ptrs map free_all].
    apply Forall_app in Hu. destruct Hu as (Hu & Hd).
    apply Forall_cons_iff in Hd. destruct Hd as (Hd & _).
    destruct d as [b p f]. cbn [b_used b_addr] in *. subst f.
    rewrite <- app_assoc in R. cbn [app] in R.
    assert (HF : Forall (fun d => b_used d = false) T).
    { destruct HT as [(-> & _)|(u & q & -> & _)]; repeat constructor. }
    assert (R0 : rep st (Lp ++ mkBlock b p true :: T ++ []) flT)
      by (rewrite app_nil_r; exact R).
    pose proof (myfree_rep_at _ _ _ _ _ _ _ fuel R0 HF I) as X.
    unfold get_payload_ptr.
    destruct (myfree fuel (b + HEADER_SIZE) st) as [st1|] eqn:E.
    2:{ destruct HT as [(-> & _)|(u & q & -> & _)]; cbn [length] in X; lia. }
    destruct (myfree_seg _ _ _ _ E) as (Es & Ee & _).
    assert (Hfl : remove_all T flT = []).
    { destruct HT as [(-> & ->)|(u & q & -> & ->)]; [reflexivity|].
      change (remove_all [mkBlock u q false] [u]) with (remove Z.eq_dec u [u]).
      cbn [remove]. destruct (Z.eq_dec u u); [reflexivity | contradiction]. }
    rewrite Hfl in X.
    destruct (IH st1 [mkBlock b (p + absorbed T) false] [b] X Hu) as (st' & Erun & R').
    { right. eauto. }
    { intros H. apply app_eq_nil in H. destruct H as (_ & H). discriminate H. }
    exists st'. split; [exact Erun|]. rewrite Es, Ee in R'. exact R'.
Qed.

(** Releasing allocated blocks from the lowest address up, behind blocks
    that are free already: nothing follows a released block but allocated
    blocks, so nothing is merged. *)
Lemma free_all_ascending fuel :
  forall La Lf st fl,
  rep st (Lf ++ La) fl -> Forall (fun d => b_used d = true) La ->
  exists st',
    free_all fuel (payload_ptrs La) st = Some st' /\
    rep st' (Lf ++ map released La) (rev (map b_addr La) ++ fl).
Proof.
  induction La as [|d La IH]; intros Lf st fl R Hu.
  - exists st. split; [reflexivity|]. exact R.
  - apply Forall_cons_iff in Hu. destruct Hu as (Hd & Hu).
    destruct d as [b p f]. cbn [b_used] in Hd. subst f.
    cbn [payload_ptrs map free_all b_addr rev]. unfold get_payload_ptr.
    assert (Hs : stops_here La).
    { destruct La as [|e La']; [exact I|]. cbn [stops_here].
      apply Forall_cons_iff in Hu. apply (proj1 Hu). }
    assert (R0 : rep st (Lf ++ mkBlock b p true :: [] ++ La) fl) by exact R.
    pose proof (myfree_rep_at _ _ _ _ _ _ _ fuel R0 (Forall_nil _) Hs) as X.
    destruct (myfree fuel (b + HEADER_SIZE) st) as [st1|]; [|cbn [length] in X; lia].
    change (absorbed []) with 0 in X. rewrite Z.add_0_r in X.
    change (remove_all [] fl) with fl in X.
    assert (X' : rep st1 ((Lf ++ [mkBlock b p false]) ++ La) (b :: fl))
      by (rewrite <- app_assoc; exact X).
    destruct (IH _ _ _ X' Hu) as (st' & Erun & R').
    exists st'. split; [exact Erun|].
    rewrite <- app_assoc in R'. cbn [app] in R'. rewrite <- app_assoc. exact R'.
Qed.

(** X18.  Releasing every block from the highest address down gives back
    the initial heap: on a valid heap in which every block is allocated,
    calling [myfree] on the payload pointers in descending address order
    leaves a single free block that spans the segment behind its header, as
    the only entry of the free list. *)
Theorem free_descending_merges_all st L fuel :
  rep st L [] -> L <> [] -> (1 <= fuel)%nat ->
  exists st',
    free_all fuel (payload_ptrs (rev L)) st = Some st' /\
    rep st' [mkBlock (segment_start st)
                     (segment_end st - segment_start st - HEADER_SIZE) false]
        [segment_start st].
Proof.
  intros R Hne Hfuel.
  apply (free_all_descending fuel Hfuel L st [] []).
  - rewrite app_nil_r. exact R.
  - apply (rep_no_free_used _ _ R).
  - left. auto.
  - rewrite app_nil_r. exact Hne.
Qed.

(** X19.  Releasing every block from the lowest address up merges nothing:
    on a valid heap in which every block is allocated, calling [myfree] on
    the payload pointers in ascending address order leaves every block free
    with the payload size it had, and a free list that holds them all, the
    last one released first. *)
Theorem free_ascending_merges_nothing st L fuel :
  rep st L [] ->
  exists st',
    free_all fuel (payload_ptrs L) st = Some st' /\
    rep st' (map released L) (rev (map b_addr L)).
Proof.
  intros R.
  destruct (free_all_ascending fuel L [] st [] R (rep_no_free_used _ _ R))
    as (st' & Erun & R').
  exists st'. split; [exact Erun|]. rewrite app_nil_r in R'. exact R'.
Qed.

(** ** Resizing: growth, moves and what is left alone *)

(** The run of [myrealloc] when the aligned target fits the block as it is. *)
Lemma myrealloc_fit_run st L1 L2 fl b old n fuel :
  rep st (L1 ++ mkBlock b old true :: L2) fl -> n <> 0 -> aligned_size n <= old ->
  myrealloc fuel (b + HEADER_SIZE) n st =
    Some (b + HEADER_SIZE,
          if aligned_size n + MIN_BLOCK_SIZE <=? old
          then partition b old (aligned_size n) st else st).
Proof.
  intros R Hn Hle.
  assert (Hin : In (mkBlock b old true) (L1 ++ mkBlock b old true :: L2))
    by (apply in_or_app; right; left; reflexivity).
  destruct (rep_block_bounds _ _ _ _ R Hin) as (_ & Hpos & _ & _ & Bs).
  destruct (hdrs_In _ _ _ (rep_hdrs _ _ _ R) Hin) as (Hp & _).
  cbn [b_addr b_size] in *. change (Header_payload st b = old) in Hp.
  pose proof (aligned_size_range n) as Ht.
  unfold myrealloc.
  destruct (Z.eqb_spec (b + HEADER_SIZE) NULL) as [E|_];
    [unfold HEADER_SIZE, NULL in E; lia|].
  destruct (Z.eqb_spec n 0) as [?|_]; [contradiction|]. cbn [orb]. cbv zeta.
  fold (aligned_size n).
  replace (b + HEADER_SIZE - HEADER_SIZE) with b by lia. rewrite !Hp.
  unfold MIN_BLOCK_SIZE, MIN_PAYLOAD_SIZE in *.
  rewrite (u64_small (aligned_size n + 24)) by lia.
  destruct (Z.eqb_spec old (aligned_size n)) as [E|Hne].
  { destruct (Z.leb_spec (aligned_size n + 24) old); [lia | reflexivity]. }
  destruct (Z.ltb_spec (aligned_size n) old) as [_|?]; [|lia]. cbn [andb].
  destruct (Z.ltb_spec old (aligned_size n + 24));
    destruct (Z.leb_spec (aligned_size n + 24) old); try lia; reflexivity.
Qed.

(** The run of [myrealloc] when the block must grow. *)
Lemma myrealloc_grow_run st fl L1 b p F R' n fuel :
  rep st (L1 ++ mkBlock b p true :: F ++ R') fl ->
  Forall (fun d => b_used d = false) F -> stops_here R' ->
  n <> 0 -> p < aligned_size n ->
  myrealloc fuel (b + HEADER_SIZE) n st =
  match coalesce_loop fuel b st (b + p + HEADER_SIZE) with
  | None => None
  | Some st1 =>
    if aligned_size n <=? p + absorbed F then
      Some (b + HEADER_SIZE,
            if aligned_size n + MIN_BLOCK_SIZE <=? p + absorbed F
            then partition b (p + absorbed F) (aligned_size n) st1 else st1)
    else
      match mymalloc fuel n st1 with
      | None => None
      | Some (realloc_block, st2) =>
        if realloc_block =? NULL then Some (NULL, st2)
        else
          match myfree fuel (b + HEADER_SIZE)
                  (with_mem (copy_bytes (mem st2) realloc_block (b + HEADER_SIZE) p) st2)
          with
          | None => None
          | Some st4 => Some (realloc_block, st4)
          end
      end
  end.
Proof.
  intros R HF Hs Hn Hlt.
  assert (Hin : In (mkBlock b p true) (L1 ++ mkBlock b p true :: F ++ R'))
    by (apply in_or_app; right; left; reflexivity).
  destruct (rep_block_bounds _ _ _ _ R Hin) as (_ & Hpos & _ & _ & Bs).
  destruct (hdrs_In _ _ _ (rep_hdrs _ _ _ R) Hin) as (Hp & _).
  cbn [b_addr b_size] in *. change (Header_payload st b = p) in Hp.
  pose proof (aligned_size_range n) as Ht.
  unfold myrealloc.
  destruct (Z.eqb_spec (b + HEADER_SIZE) NULL) as [E|_];
    [unfold HEADER_SIZE, NULL in E; lia|].
  destruct (Z.eqb_spec n 0) as [?|_]; [contradiction|]. cbn [orb]. cbv zeta.
  fold (aligned_size n).
  replace (b + HEADER_SIZE - HEADER_SIZE) with b by lia. rewrite !Hp.
  destruct (Z.eqb_spec p (aligned_size n)) as [?|_]; [lia|].
  destruct (Z.ltb_spec (aligned_size n) p) as [?|_]; [lia|]. cbn [andb].
  destruct (Z.ltb_spec p (aligned_size n)) as [_|?]; [|lia].
  unfold coalesce_right. destruct (Z.eqb_spec b NULL) as [E|_]; [unfold NULL in E; lia|].
  rewrite !Hp.
  pose proof (coalesce_loop_rep L1 b R' F HF Hs fuel st p fl R) as X.
  destruct (coalesce_loop fuel b st (b + p + HEADER_SIZE)) as [st1|]; [|reflexivity].
  destruct X as (R1 & _ & _).
  assert (Hin1 : In (mkBlock b (p + absorbed F) true)
                   (L1 ++ mkBlock b (p + absorbed F) true :: R'))
    by (apply in_or_app; right; left; reflexivity).
  destruct (rep_block_bounds _ _ _ _ R1 Hin1) as (_ & _ & _ & _ & Bs1).
  destruct (hdrs_In _ _ _ (rep_hdrs _ _ _ R1) Hin1) as (Hp1 & _).
  cbn [b_addr b_size] in *. change (Header_payload st1 b = p + absorbed F) in Hp1.
  rewrite !Hp1.
  destruct (Z.leb_spec (aligned_size n) (p + absorbed F)) as [Hfit|Hsmall].
  - unfold MIN_BLOCK_SIZE, MIN_PAYLOAD_SIZE in *.
    rewrite (u64_small (aligned_size n + 24)) by lia. reflexivity.
  - destruct (mymalloc fuel n st1) as [[rb st2]|]; [|reflexivity].
    destruct (rb =? NULL); reflexivity.
Qed.

(** X20.  Growth in place: when the aligned target exceeds the payload of a
    live block but not the payload plus the run [F] of free blocks that
    follows it, [myrealloc] absorbs the run and returns the same pointer.
    The block is then cut back to the target, the rest becoming a free block
    at the head of the free list, when that rest can stand as a block of its
    own; otherwise the block keeps everything absorbed.  The old payload
    bytes stay where they are. *)
Theorem myrealloc_grow_in_place st fl L1 b p F R' n fuel :
  rep st (L1 ++ mkBlock b p true :: F ++ R') fl ->
  Forall (fun d => b_used d = false) F -> stops_here R' ->
  n <> 0 -> p < aligned_size n <= p + absorbed F -> (length F <= fuel)%nat ->
  exists st',
    myrealloc fuel (b + HEADER_SIZE) n st = Some (b + HEADER_SIZE, st') /\
    (if aligned_size n + MIN_BLOCK_SIZE <=? p + absorbed F then
       rep st' (L1 ++ mkBlock b (aligned_size n) true ::
                      mkBlock (b + aligned_size n + HEADER_SIZE)
                              (p + absorbed F - aligned_size n - HEADER_SIZE) false :: R')
           ((b + aligned_size n + HEADER_SIZE) :: remove_all F fl)
     else
       rep st' (L1 ++ mkBlock b (p + absorbed F) true :: R') (remove_all F fl)) /\
    (forall x, b + HEADER_SIZE <= x < b + HEADER_SIZE + p -> mem st' x = mem st x).
Proof.
  intros R HF Hs Hn (Hlt & Hfit) Hfuel.
  rewrite (myrealloc_grow_run _ _ _ _ _ _ _ _ fuel R HF Hs Hn Hlt).
  pose proof (coalesce_loop_rep L1 b R' F HF Hs fuel st p fl R) as X.
  destruct (coalesce_loop fuel b st (b + p + HEADER_SIZE)) as [st1|]; [|lia].
  destruct X as (R1 & Hdata & _).
  destruct (Z.leb_spec (aligned_size n) (p + absorbed F)) as [_|?]; [|lia].
  eexists. split; [reflexivity|].
  pose proof (aligned_size_range n) as Ht.
  destruct (Z.leb_spec (aligned_size n + MIN_BLOCK_SIZE) (p + absorbed F)) as [Hsplit|Hno].
  - destruct (partition_rep _ _ _ _ _ _ (aligned_size n) _ R1) as (R2 & Hch);
      [lia | lia |].
    split; [exact R2|]. intros x Hx. unfold HEADER_SIZE in Hx.
    rewrite <- (Hdata x) by lia.
    assert (Hin1 : In (mkBlock b (p + absorbed F) true)
                     (L1 ++ mkBlock b (p + absorbed F) true :: R'))
      by (apply in_or_app; right; left; reflexivity).
    destruct (Hch x) as [E|[E|[E|(Hne & E)]]]; [exact E | lia | lia |].
    exfalso. pose proof (free_vs_block _ _ _ _ _ R1 Hin1 (head_in_list _ _ _ R1 Hne)) as Y.
    unfold footprint, HEADER_SIZE in Y. cbn [b_addr b_size b_used] in Y.
    pose proof (absorbed_run_nonneg _ _ _ _ _ _ R) as Habs.
    destruct Y as [[_ ?]|[?|?]]; [discriminate | lia | lia].
  - split; [exact R1|]. intros x Hx. apply Hdata. unfold HEADER_SIZE in Hx. lia.
Qed.

(** The fallback of [myrealloc]: a fresh block, the copy, the release. *)
Lemma myrealloc_move st1 Lc fl1 b p1 p n fuel rb st2 st4 :
  rep st1 Lc fl1 -> In (mkBlock b p1 true) Lc -> 0 <= p <= p1 -> p1 < aligned_size n ->
  mymalloc fuel n st1 = Some (rb, st2) -> rb <> NULL ->
  myfree fuel (b + HEADER_SIZE)
    (with_mem (copy_bytes (mem st2) rb (b + HEADER_SIZE) p) st2) = Some st4 ->
  exists L4 fl4 q,
    rep st4 L4 (b :: fl4) /\
    rb <> b + HEADER_SIZE /\
    In (mkBlock (rb - HEADER_SIZE) q true) L4 /\ aligned_size n <= q /\
    (forall i, 0 <= i < p -> mem st4 (rb + i) = mem st1 (b + HEADER_SIZE + i)) /\
    (forall d, In d Lc -> b_used d = true -> b_addr d <> b ->
               In d L4 /\ block_kept st1 st4 d).
Proof.
  intros R1 Hin1 Hp Hsmall E2 Hrb E4.
  pose proof (rep_chain _ _ _ R1) as Hc1.
  pose proof (mymalloc_rep st1 Lc fl1 n fuel R1) as X. rewrite E2 in X.
  destruct X as [(? & _)|(c & -> & _ & Hfit)]; [contradiction|].
  pose proof (aligned_size_range n) as Ht.
  destruct (fit_result_writes _ _ _ _ _ _ R1 (proj1 Ht) Hfit)
    as (L2 & fl2 & q & R2 & Hinc & Hq & Hcfl & W2 & _ & Hkeep2).
  pose proof (rep_chain _ _ _ R2) as Hc2.
  assert (Hcb : c <> b).
  { intros ->. apply (used_not_listed _ _ _ _ _ R1 Hin1 Hcfl). }
  set (st3 := with_mem (copy_bytes (mem st2) (c + HEADER_SIZE) (b + HEADER_SIZE) p) st2) in *.
  assert (R3 : rep st3 L2 fl2).
  { apply rep_frame_payload; [exact R2|]. intros x.
    destruct (copy_bytes_cases (mem st2) (c + HEADER_SIZE) (b + HEADER_SIZE) p x) as [E|E];
      [left; exact E|].
    right. exists c, q. split; [exact Hinc|]. unfold HEADER_SIZE in E. lia. }
  assert (Hin3 : In (mkBlock b p1 true) L2) by (apply Hkeep2; [exact Hin1 | reflexivity]).
  pose proof (myfree_rep st3 L2 fl2 b p1 fuel R3 Hin3) as X. rewrite E4 in X.
  destruct X as (La & F4 & R4 & EL2 & HF4 & Hs4 & R4').
  assert (R3' := R3). rewrite EL2 in R3'.
  assert (Hkeep4 : forall d, In d L2 -> b_used d = true -> b_addr d <> b ->
            In d (La ++ mkBlock b (p1 + absorbed F4) false :: R4) /\ block_kept st3 st4 d).
  { intros d Hd Hu Hne. rewrite EL2 in Hd.
    apply (myfree_kept _ _ _ _ _ _ _ _ _ d R3' HF4 Hs4 E4 Hd Hu Hne). }
  assert (Hst2 : forall d x, In d Lc -> b_used d = true -> covers d x ->
            mem st2 x = mem st1 x).
  { intros d x Hd Hu Hx. destruct (W2 x) as [E|E]; [exact E|]. exfalso.
    apply (in_free_used_disjoint _ _ _ d x Hc1 Hd Hu Hx E). }
  exists (La ++ mkBlock b (p1 + absorbed F4) false :: R4), (remove_all F4 fl2), q.
  split; [exact R4'|]. split; [lia|].
  replace (c + HEADER_SIZE - HEADER_SIZE) with c by lia.
  destruct (Hkeep4 _ Hinc eq_refl Hcb) as (Hinc4 & Hkc).
  split; [exact Hinc4|]. split; [lia|]. split.
  - intros i Hi. rewrite Hkc
      by (unfold covers, footprint, HEADER_SIZE; cbn [b_addr b_size]; lia).
    unfold st3, with_mem. cbn [mem]. unfold copy_bytes.
    destruct (Z.leb_spec (c + HEADER_SIZE) (c + HEADER_SIZE + i)) as [_|?]; [|lia].
    destruct (Z.ltb_spec (c + HEADER_SIZE + i) (c + HEADER_SIZE + p)) as [_|?]; [|lia].
    cbn [andb]. replace (b + HEADER_SIZE + (c + HEADER_SIZE + i - (c + HEADER_SIZE)))
      with (b + HEADER_SIZE + i) by lia.
    apply (Hst2 (mkBlock b p1 true) _ Hin1 eq_refl).
    unfold covers, footprint, HEADER_SIZE. cbn [b_addr b_size]. lia.
  - intros d Hd Hu Hne.
    destruct (Hkeep4 d (Hkeep2 d Hd Hu) Hu Hne) as (Hd4 & Hkd).
    split; [exact Hd4|]. intros x Hx. rewrite (Hkd x Hx).
    transitivity (mem st2 x); [|apply (Hst2 d x Hd Hu Hx)].
    unfold st3, with_mem. cbn [mem].
    destruct (copy_bytes_cases (mem st2) (c + HEADER_SIZE) (b + HEADER_SIZE) p x) as [E|E];
      [exact E|].
    exfalso.
    assert (Hdc : b_addr d <> c).
    { intros Ed. destruct d as [a q' f]. cbn [b_addr b_used] in *. subst a f.
      apply (used_not_listed _ _ _ _ _ R1 Hd Hcfl). }
    destruct (chain_sep _ _ _ _ _ Hc2 (Hkeep2 d Hd Hu) Hinc) as [Ed|[Ed|Ed]];
      [subst d; cbn [b_addr] in Hdc; contradiction | |];
      unfold covers, footprint, HEADER_SIZE in *; cbn [b_addr b_size] in *; lia.
Qed.

(** X21.  A resize that moves: when the aligned target exceeds what the
    block and the free run [F] behind it can give and [myrealloc] returns a
    non-null pointer, that pointer refers to another block, allocated in the
    valid heap that results and at least as large as the target; the first
    [p] bytes of the new payload are the [p] payload bytes of the old block,
    and the old block has been released to the head of the free list. *)
Theorem myrealloc_moves_data st fl L1 b p F R' n fuel r st' :
  rep st (L1 ++ mkBlock b p true :: F ++ R') fl ->
  Forall (fun d => b_used d = false) F -> stops_here R' ->
  p + absorbed F < aligned_size n ->
  myrealloc fuel (b + HEADER_SIZE) n st = Some (r, st') -> r <> NULL ->
  exists L' fl' q,
    rep st' L' (b :: fl') /\
    r <> b + HEADER_SIZE /\
    In (mkBlock (r - HEADER_SIZE) q true) L' /\ aligned_size n <= q /\
    forall i, 0 <= i < p -> mem st' (r + i) = mem st (b + HEADER_SIZE + i).
Proof.
  intros R HF Hs Hsmall E Hr.
  assert (Hn : n <> 0).
  { intros ->. unfold myrealloc, mymalloc in E. rewrite Z.eqb_refl, !orb_true_r in E.
    injection E as <- _. contradiction. }
  pose proof (absorbed_run_nonneg _ _ _ _ _ _ R) as Habs.
  assert (Hin : In (mkBlock b p true) (L1 ++ mkBlock b p true :: F ++ R'))
    by (apply in_or_app; right; left; reflexivity).
  destruct (rep_block_bounds _ _ _ _ R Hin) as (_ & _ & _ & _ & Bs).
  unfold MIN_PAYLOAD_SIZE in Bs. cbn [b_size] in Bs.
  rewrite (myrealloc_grow_run _ _ _ _ _ _ _ _ fuel R HF Hs Hn ltac:(lia)) in E.
  pose proof (coalesce_loop_rep L1 b R' F HF Hs fuel st p fl R) as X.
  destruct (coalesce_loop fuel b st (b + p + HEADER_SIZE)) as [st1|]; [|discriminate E].
  destruct X as (R1 & Hdata & _).
  destruct (Z.leb_spec (aligned_size n) (p + absorbed F)) as [?|_]; [lia|].
  destruct (mymalloc fuel n st1) as [[rb st2]|] eqn:E2; [|discriminate E].
  destruct (Z.eqb_spec rb NULL) as [->|Hrb].
  { injection E as <- _. contradiction. }
  destruct (myfree fuel (b + HEADER_SIZE) _) as [st4|] eqn:E4; [|discriminate E].
  injection E as <- <-.
  assert (Hin1 : In (mkBlock b (p + absorbed F) true)
                   (L1 ++ mkBlock b (p + absorbed F) true :: R'))
    by (apply in_or_app; right; left; reflexivity).
  destruct (myrealloc_move _ _ _ _ _ p _ _ _ _ _ R1 Hin1 ltac:(lia) Hsmall E2 Hrb E4)
    as (L4 & fl4 & q & R4 & Hne & Hinq & Hq & Hcopy & _).
  exists L4, fl4, q. split; [exact R4|]. split; [exact Hne|]. split; [exact Hinq|].
  split; [exact Hq|]. intros i Hi. rewrite (Hcopy i Hi). apply Hdata.
  unfold HEADER_SIZE. lia.
Qed.

(** X22.  Whatever it does to the block it is given, [myrealloc] leaves the
    other allocated blocks alone: each of them is a block of the valid heap
    that results, with the same header and the same payload bytes. *)
Theorem myrealloc_keeps_others st L fl b p n fuel r st' :
  rep st L fl -> In (mkBlock b p true) L ->
  myrealloc fuel (b + HEADER_SIZE) n st = Some (r, st') ->
  exists L' fl',
    rep st' L' fl' /\
    forall d, In d L -> b_used d = true -> b_addr d <> b ->
              In d L' /\ block_kept st st' d.
Proof.
  intros R Hin E.
  assert (Hsame : exists L' fl', rep st L' fl' /\
            forall d, In d L -> b_used d = true -> b_addr d <> b ->
                      In d L' /\ block_kept st st d).
  { exists L, fl. split; [exact R|]. intros d Hd _ _.
    split; [exact Hd | intros x _; reflexivity]. }
  destruct (Z.eq_dec n 0) as [->|Hn].
  { unfold myrealloc, mymalloc in E. rewrite Z.eqb_refl, !orb_true_r in E.
    injection E as _ <-. exact Hsame. }
  pose proof (aligned_size_range n) as Ht.
  pose proof (rep_chain _ _ _ R) as Hc.
  destruct (in_split _ _ Hin) as (L1 & Rest & EL).
  assert (Hdisj : forall T q f d x, chain (segment_start st) T (segment_end st) ->
            In (mkBlock b q f) T -> In d T -> b_addr d <> b ->
            covers d x -> covers (mkBlock b q f) x -> False).
  { intros T q f d x HcT Hb Hd Hne Hx Hbx.
    destruct (chain_sep _ _ _ _ _ HcT Hd Hb) as [Ed|[Ed|Ed]];
      [subst d; cbn [b_addr] in Hne; contradiction | |];
      unfold covers in *; cbn [b_addr] in *; lia. }
  destruct (Z_le_dec (aligned_size n) p) as [Hle|Hgt].
  - (* the block is large enough as it is *)
    assert (R0 := R). rewrite EL in R0.
    rewrite (myrealloc_fit_run _ _ _ _ _ _ _ fuel R0 Hn Hle) in E. injection E as _ <-.
    destruct (Z.leb_spec (aligned_size n + MIN_BLOCK_SIZE) p) as [Hsplit|_];
      [|exact Hsame].
    destruct (partition_rep _ _ _ _ _ _ (aligned_size n) _ R0) as (R1 & _); [lia | lia |].
    eexists _, _. split; [exact R1|]. intros d Hd Hu Hne. split.
    + rewrite EL in Hd. apply in_app_or in Hd. apply in_or_app.
      destruct Hd as [Hd|[<-|Hd]]; [left; exact Hd | cbn [b_addr] in Hne; contradiction |].
      right. right. right. exact Hd.
    + intros x Hx.
      destruct (partition_writes _ _ _ _ _ _ (aligned_size n) _ x R0) as [W|[W|W]];
        [lia | lia | exact W | |]; exfalso.
      * apply (Hdisj L p true d x Hc Hin Hd Hne Hx W).
      * rewrite <- EL in W. apply (in_free_used_disjoint _ _ _ d x Hc Hd Hu Hx W).
  - (* the block must grow *)
    destruct (free_prefix Rest) as (F & R' & -> & HF & Hs).
    assert (R0 := R). rewrite EL in R0.
    rewrite (myrealloc_grow_run _ _ _ _ _ _ _ _ fuel R0 HF Hs Hn ltac:(lia)) in E.
    pose proof (coalesce_loop_rep L1 b R' F HF Hs fuel st p fl R0) as X.
    destruct (coalesce_loop fuel b st (b + p + HEADER_SIZE)) as [st1|] eqn:E1;
      [|discriminate E].
    destruct X as (R1 & _ & _).
    set (Lc := L1 ++ mkBlock b (p + absorbed F) true :: R') in *.
    assert (Hin1 : In (mkBlock b (p + absorbed F) true) Lc)
      by (apply in_or_app; right; left; reflexivity).
    pose proof (rep_chain _ _ _ R1) as Hc1.
    assert (Es1 : segment_start st1 = segment_start st /\ segment_end st1 = segment_end st).
    { destruct (coalesce_loop_seg _ _ _ _ _ E1) as (H1 & H2 & _). auto. }
    assert (K1 : forall d, In d L -> b_used d = true -> b_addr d <> b ->
              In d Lc /\ block_kept st st1 d).
    { intros d Hd Hu Hne. split.
      - rewrite EL in Hd. apply in_app_or in Hd. apply in_or_app.
        destruct Hd as [Hd|[<-|Hd]]; [left; exact Hd | cbn [b_addr] in Hne; contradiction |].
        right. right. apply in_app_or in Hd. destruct Hd as [Hd|Hd]; [|exact Hd].
        rewrite Forall_forall in HF. rewrite (HF d Hd) in Hu. discriminate Hu.
      - intros x Hx.
        destruct (coalesce_loop_writes L1 b R' F HF Hs fuel st p fl st1 R0 E1 x)
          as [W|[W|W]]; [exact W | |]; exfalso.
        + apply (Hdisj L p true d x Hc Hin Hd Hne Hx).
          unfold covers, footprint, HEADER_SIZE. cbn [b_addr b_size].
          destruct (rep_block_bounds _ _ _ _ R Hin) as (_ & _ & _ & _ & Bs).
          unfold MIN_PAYLOAD_SIZE in Bs. cbn [b_size] in Bs. lia.
        + rewrite <- EL in W. apply (in_free_used_disjoint _ _ _ d x Hc Hd Hu Hx W). }
    destruct (Z.leb_spec (aligned_size n) (p + absorbed F)) as [Hfit|Hsmall].
    + injection E as _ <-.
      destruct (Z.leb_spec (aligned_size n + MIN_BLOCK_SIZE) (p + absorbed F))
        as [Hsplit|_]; [|exists Lc, (remove_all F fl); split; [exact R1 | exact K1]].
      destruct (partition_rep _ _ _ _ _ _ (aligned_size n) _ R1) as (R2 & _);
        [lia | lia |].
      eexists _, _. split; [exact R2|]. intros d Hd Hu Hne.
      destruct (K1 d Hd Hu Hne) as (Hd1 & Hk1). split.
      * unfold Lc in Hd1. apply in_app_or in Hd1. apply in_or_app.
        destruct Hd1 as [Hd1|[<-|Hd1]];
          [left; exact Hd1 | cbn [b_addr] in Hne; contradiction |].
        right. right. right. exact Hd1.
      * intros x Hx. rewrite <- (Hk1 x Hx).
        destruct (partition_writes _ _ _ _ _ _ (aligned_size n) _ x R1) as [W|[W|W]];
          [lia | lia | exact W | |]; exfalso.
        -- rewrite <- (proj1 Es1), <- (proj2 Es1) in Hdisj.
           apply (Hdisj Lc (p + absorbed F) true d x Hc1 Hin1 Hd1 Hne Hx W).
        -- apply (in_free_used_disjoint _ _ _ d x Hc1 Hd1 Hu Hx W).
    + destruct (mymalloc fuel n st1) as [[rb st2]|] eqn:E2; [|discriminate E].
      destruct (Z.eqb_spec rb NULL) as [->|Hrb].
      * injection E as _ <-. pose proof (mymalloc_null _ _ _ _ _ _ R1 E2) as ->.
        exists Lc, (remove_all F fl). split; [exact R1 | exact K1].
      * destruct (myfree fuel (b + HEADER_SIZE) _) as [st4|] eqn:E4; [|discriminate E].
        injection E as _ <-.
        pose proof (absorbed_run_nonneg _ _ _ _ _ _ R0) as Habs.
        destruct (rep_block_bounds _ _ _ _ R Hin) as (_ & _ & _ & _ & Bs).
        unfold MIN_PAYLOAD_SIZE in Bs. cbn [b_size] in Bs.
        destruct (myrealloc_move _ _ _ _ _ p _ _ _ _ _ R1 Hin1 ltac:(lia) Hsmall E2 Hrb E4)
          as (L4 & fl4 & q & R4 & _ & _ & _ & _ & K4).
        exists L4, (b :: fl4). split; [exact R4|]. intros d Hd Hu Hne.
        destruct (K1 d Hd Hu Hne) as (Hd1 & Hk1).
        destruct (K4 d Hd1 Hu Hne) as (Hd4 & Hk4).
        split; [exact Hd4|]. intros x Hx. rewrite (Hk4 x Hx). apply (Hk1 x Hx).
Qed.

(** X23.  [myrealloc] rounds the new size before it looks at any limit: for
    a size within [ALIGNMENT - 1] of the top of [size_t] the rounding wraps
    to 0, the target becomes the minimum payload size, and the call reports
    success in place for every live block: it returns the old pointer, and
    cuts a block of 40 bytes or more back to 16. *)
Theorem myrealloc_huge_size st L1 L2 fl b old n fuel k :
  rep st (L1 ++ mkBlock b old true :: L2) fl ->
  0 <= k < 64 -> ALIGNMENT = 2 ^ k -> 2 ^ 64 - ALIGNMENT < n < 2 ^ 64 ->
  aligned_size n = MIN_PAYLOAD_SIZE /\
  myrealloc fuel (b + HEADER_SIZE) n st =
    Some (b + HEADER_SIZE,
          if MIN_PAYLOAD_SIZE + MIN_BLOCK_SIZE <=? old
          then partition b old MIN_PAYLOAD_SIZE st else st).
Proof.
  intros R Hk EA Hn.
  assert (Et : aligned_size n = MIN_PAYLOAD_SIZE).
  { unfold aligned_size. rewrite EA in *. rewrite (align_top_wraps n k Hk Hn).
    reflexivity. }
  split; [exact Et|].
  assert (Hin : In (mkBlock b old true) (L1 ++ mkBlock b old true :: L2))
    by (apply in_or_app; right; left; reflexivity).
  destruct (rep_block_bounds _ _ _ _ R Hin) as (_ & _ & _ & _ & Bs). cbn [b_size] in Bs.
  destruct (pow2_bounds k Hk) as ((Hp & Hlt) & _).
  rewrite (myrealloc_fit_run _ _ _ _ _ _ n fuel R); [rewrite Et; reflexivity | lia | lia].
Qed.

(** ** Termination *)


Lemma reachable_segment_size heap_start heap_size st :
  reachable heap_start heap_size st -> segment_size st = heap_size.
Proof.
  intros Hr.
  induction Hr as [st0 st Hi | st fuel n r st' Hr IH Hn Hop
                  | st fuel ptr st' Hr IH Hv Hop
                  | st fuel ptr n r st' Hr IH Hv Hn Hop
                  | st ptr size i v Hr IH Hl Hi].
  - unfold myinit in Hi. destruct (_ <=? _); [discriminate|].
    injection Hi as <-. reflexivity.
  - apply mymalloc_seg in Hop. destruct Hop as (_ & _ & H). rewrite H. exact IH.
  - apply myfree_seg in Hop. destruct Hop as (_ & _ & H). rewrite H. exact IH.
  - apply myrealloc_seg in Hop. destruct Hop as (_ & _ & H). rewrite H. exact IH.
  - exact IH.
Qed.



(** ** The checks of [validate_heap] *)

Lemma count_in_free_list_eq fuel st b h found :
  count_in_free_list fuel st b h found =
  if h =? NULL then Some found
  else
    match fuel with
    | O => None
    | S k =>
      count_in_free_list k st b (Pointers_next st (get_payload_ptr h))
        (if h =? b then int_of_u32 (u32 (found + 1)) else found)
    end.
Proof. destruct fuel; reflexivity. Qed.

Lemma validate_heap_loop_eq fuel list_fuel st s total :
  validate_heap_loop fuel list_fuel st s total =
  if s <? segment_end st then
    match fuel with
    | O => None
    | S k =>
      match
        (if Header_allocated st s =? 0
         then count_in_free_list list_fuel st s (free_list_start st) 0
         else Some 0)
      with
      | None => None
      | Some found =>
        if (Header_allocated st s =? 0) && (found =? 0) then
          Some (false,
                [Printf "Allocation status incorrect or not added properly to free list: %p\n"
                        [s]])
        else if (Header_allocated st s =? 0) && (1 <? found) then
          Some (false, [Printf "In list multiple times: %p\n" [s]])
        else
          match validate_heap_loop k list_fuel st (s + Header_payload st s + HEADER_SIZE)
                  (u64 (total + u32 (Header_payload st s + HEADER_SIZE))) with
          | None => None
          | Some (ok, out') =>
            Some (ok,
                  (if (Header_payload st s <? 8) || (segment_size st <? Header_payload st s)
                   then [Printf "Block payload size incorrect: %p\n" [s]]
                   else []) ++ out')
          end
      end
    end
  else if segment_size st <? total then
    Some (false,
          [Printf "Blocks have more collective space than segment\n" [];
           Printf "Allocated: %zu\n" [total];
           Printf "Segment size: %zu" [segment_size st]])
  else Some (true, []).
Proof. destruct fuel; reflexivity. Qed.

Lemma count_in_free_list_lseg st b :
  forall l prev h fuel found,
  lseg (mem st) prev h l NULL -> 0 <= found ->
  found + Z.of_nat (count_occ Z.eq_dec l b) < 2 ^ 31 ->
  match count_in_free_list fuel st b h found with
  | Some r => r = found + Z.of_nat (count_occ Z.eq_dec l b)
  | None => (fuel < length l)%nat
  end.
Proof.
  induction l as [|c l IH]; intros prev h fuel found Hl H0 Hb;
    rewrite count_in_free_list_eq; cbn [lseg] in Hl.
  - subst h. rewrite Z.eqb_refl. cbn [count_occ]. lia.
  - destruct Hl as (-> & Hnz & _ & Hl).
    destruct (Z.eqb_spec c NULL) as [?|_]; [contradiction|].
    destruct fuel as [|k]; [cbn [length]; lia|].
    unfold Pointers_next, get_payload_ptr, HEADER_SIZE. rewrite add_8_8.
    cbn [count_occ] in *. destruct (Z.eq_dec c b) as [->|Hne].
    + rewrite Z.eqb_refl. rewrite Nat2Z.inj_succ in Hb.
      assert (E : int_of_u32 (u32 (found + 1)) = found + 1).
      { unfold int_of_u32, u32. rewrite Z.mod_small by lia.
        destruct (Z.ltb_spec (found + 1) (2 ^ 31)); lia. }
      rewrite E. specialize (IH b (load 8 (mem st) (b + 16)) k (found + 1) Hl).
      feed IH; [lia | lia |].
      destruct (count_in_free_list k st b _ (found + 1)) as [r|];
        [rewrite IH, Nat2Z.inj_succ; lia | cbn [length]; lia].
    + destruct (Z.eqb_spec c b) as [?|_]; [contradiction|].
      specialize (IH c (load 8 (mem st) (c + 16)) k found Hl H0 Hb).
      destruct (count_in_free_list k st b _ found) as [r|];
        [exact IH | cbn [length]; lia].
Qed.

Lemma count_occ_NoDup (l : list Z) b :
  NoDup l -> count_occ Z.eq_dec l b = if existsb (Z.eqb b) l then 1%nat else 0%nat.
Proof.
  intros Hnd. destruct (existsb (Z.eqb b) l) eqn:E.
  - apply existsb_exists in E. destruct E as (x & Hx & Ex). apply Z.eqb_eq in Ex. subst x.
    pose proof (proj1 (NoDup_count_occ Z.eq_dec l) Hnd b) as Hle.
    pose proof (proj1 (count_occ_In Z.eq_dec l b) Hx). lia.
  - apply count_occ_not_In. intros Hin.
    assert (X : existsb (Z.eqb b) l = true)
      by (apply existsb_exists; exists b; split; [exact Hin | apply Z.eqb_refl]).
    congruence.
Qed.

(** On a layout with its headers and a duplicate-free list, the checks stop
    at the first unallocated block that is not on the list, and pass when
    there is none. *)
Lemma validate_heap_loop_spec st fl list_fuel :
  lseg (mem st) NULL (free_list_start st) fl NULL -> NoDup fl ->
  (length fl <= list_fuel)%nat -> Z.of_nat (length fl) < 2 ^ 31 ->
  segment_size st < 2 ^ 64 ->
  forall L2 s fuel total,
  chain s L2 (segment_end st) -> hdrs (mem st) L2 ->
  (forall d, In d L2 -> b_size d <= segment_size st) ->
  0 <= total -> total + (segment_end st - s) <= segment_size st ->
  match validate_heap_loop fuel list_fuel st s total with
  | Some r =>
    r = match first_unlisted L2 fl with
        | Some d =>
          (false,
           [Printf "Allocation status incorrect or not added properly to free list: %p\n"
                   [b_addr d]])
        | None => (true, [])
        end
  | None => (fuel < length L2)%nat
  end.
Proof.
  intros Hl Hnd Hlf Hlen Hss.
  induction L2 as [|d L2 IH]; intros s fuel total Hc Hh Hsz H0 Htot;
    rewrite validate_heap_loop_eq; cbn [chain] in Hc.
  - subst s. rewrite Z.ltb_irrefl.
    destruct (Z.ltb_spec (segment_size st) total) as [?|_]; [lia | reflexivity].
  - destruct Hc as (Ha & Hs & Hc). pose proof (chain_le _ _ _ Hc) as Hle.
    apply Forall_cons_iff in Hh. destruct Hh as ((Hp & Hf) & Hh).
    pose proof (load4_range (mem st) (b_addr d)) as Hr. rewrite Hp in Hr.
    pose proof (Hsz d (or_introl eq_refl)) as Hd.
    unfold footprint, HEADER_SIZE, MIN_PAYLOAD_SIZE in *.
    destruct (Z.ltb_spec s (segment_end st)) as [_|?]; [|lia].
    destruct fuel as [|k]; [cbn [length]; lia|].
    unfold Header_payload, Header_allocated. rewrite <- Ha, Hp, Hf.
    assert (Eu : 0 <= u32 (b_size d + 8) <= b_size d + 8).
    { unfold u32. pose proof (Z.mod_pos_bound (b_size d + 8) (2 ^ 32) ltac:(lia)).
      pose proof (Z.mod_le (b_size d + 8) (2 ^ 32) ltac:(lia) ltac:(lia)). lia. }
    rewrite (u64_small (total + u32 (b_size d + 8))) by lia.
    destruct (Z.ltb_spec (b_size d) 8) as [?|_]; [lia|].
    destruct (Z.ltb_spec (segment_size st) (b_size d)) as [?|_]; [lia|]. cbn [orb app].
    specialize (IH (b_addr d + b_size d + 8) k (total + u32 (b_size d + 8))).
    feed IH.
    { replace (b_addr d + b_size d + 8) with (b_addr d + (8 + b_size d)) by lia.
      rewrite Ha. exact Hc. }
    { exact Hh. }
    { intros e He. apply Hsz. right. exact He. }
    { lia. }
    { lia. }
    unfold first_unlisted. cbn [find]. fold (first_unlisted L2 fl).
    destruct (b_used d) eqn:Eu'; cbn [flag negb andb].
    + change (1 =? 0) with false. cbn [andb].
      destruct (validate_heap_loop k list_fuel st _ _) as [[ok out']|];
        [exact IH | cbn [length]; lia].
    + rewrite Z.eqb_refl. cbn [andb].
      pose proof (count_occ_NoDup fl (b_addr d) Hnd) as Hco.
      pose proof (count_in_free_list_lseg st (b_addr d) fl NULL _ list_fuel 0 Hl
                    ltac:(lia)) as X.
      feed X.
      { rewrite Hco. destruct (existsb _ fl); cbn; lia. }
      destruct (count_in_free_list list_fuel st (b_addr d) (free_list_start st) 0)
        as [found|]; [|lia].
      subst found. rewrite Hco.
      destruct (existsb (Z.eqb (b_addr d)) fl); cbn [negb].
      * change (0 + Z.of_nat 1 =? 0) with false. change (1 <? 0 + Z.of_nat 1) with false.
        destruct (validate_heap_loop k list_fuel st _ _) as [[ok out']|];
          [exact IH | cbn [length]; lia].
      * reflexivity.
Qed.


Lemma find_first_true {A : Type} (f : A -> bool) l1 a l2 :
  (forall x, In x l1 -> f x = false) -> f a = true -> find f (l1 ++ a :: l2) = Some a.
Proof.
  induction l1 as [|c l1 IH]; intros H Ha; cbn [find app]; [rewrite Ha; reflexivity|].
  rewrite (H c (or_introl eq_refl)). apply IH; [|exact Ha].
  intros x Hx. apply H. right. exact Hx.
Qed.

Lemma listed_iff l b : existsb (Z.eqb b) l = true <-> In b l.
Proof.
  rewrite existsb_exists. split.
  - intros (x & Hx & E). apply Z.eqb_eq in E. subst x. exact Hx.
  - intros H. exists b. split; [exact H | apply Z.eqb_refl].
Qed.

Lemma rep_list_short st L fl : rep st L fl -> Z.of_nat (length fl) < 2 ^ 31.
Proof.
  intros R. pose proof (rep_free_length _ _ _ R) as H1.
  pose proof (chain_length _ _ _ (rep_chain _ _ _ R)) as H2.
  pose proof (rep_small _ _ _ R) as H3.
  unfold MIN_BLOCK_SIZE, HEADER_SIZE in *. lia.
Qed.


(** X26.  A block payload below 8 bytes is reported but not refused: on a
    region of 9 to 15 bytes, which [myinit] accepts, the checks of
    [validate_heap] print that the payload size of the single block is
    incorrect and still report a well-formed heap. *)
Theorem validate_heap_checks_small_payload heap_start heap_size st fuel :
  region_ok heap_start heap_size -> reachable heap_start heap_size st ->
  heap_size < MIN_PAYLOAD_SIZE ->
  validate_heap_checks (S fuel) st =
    Some (true, [Printf "Block payload size incorrect: %p\n" [heap_start]]).
Proof.
  intros Hreg Hr Hsmall.
  destruct (reachable_segment _ _ _ Hr) as (Es & Ee).
  pose proof (reachable_segment_size _ _ _ Hr) as Ez.
  assert (T : tiny st)
    by (apply (reachable_tiny _ _ _ Hreg); [unfold MIN_BLOCK_SIZE, MIN_PAYLOAD_SIZE in *; lia
                                           | exact Hr]).
  destruct T as ((Hs & He & Ha & Hf & _ & Hn) & _).
  pose proof (load4_range (mem st) (segment_start st)) as Hl.
  fold (Header_payload st (segment_start st)) in Hl.
  unfold HEADER_SIZE, MIN_PAYLOAD_SIZE in *.
  assert (Ep : Header_payload st (segment_start st) = heap_size - 8) by lia.
  unfold validate_heap_checks. rewrite validate_heap_loop_eq.
  destruct (Z.ltb_spec (segment_start st) (segment_end st)) as [_|?]; [|lia].
  rewrite Ha, Z.eqb_refl, Hf, count_in_free_list_eq.
  destruct (Z.eqb_spec (segment_start st) NULL) as [E|_]; [unfold NULL in E; lia|].
  rewrite Z.eqb_refl, Hn, count_in_free_list_eq, Z.eqb_refl.
  change (int_of_u32 (u32 (0 + 1))) with 1. cbn [andb Z.eqb Z.ltb Z.compare Pos.compare
                                                   Pos.compare_cont].
  rewrite validate_heap_loop_eq, Ep.
  replace (segment_start st + (heap_size - 8) + HEADER_SIZE) with (segment_end st)
    by (unfold HEADER_SIZE; lia).
  rewrite Z.ltb_irrefl.
  unfold HEADER_SIZE. replace (heap_size - 8 + 8) with heap_size by lia.
  rewrite (u32_small heap_size) by lia. rewrite (u64_small (0 + heap_size)) by lia.
  rewrite Ez, Es.
  destruct (Z.ltb_spec heap_size (0 + heap_size)) as [?|_]; [lia|].
  destruct (Z.ltb_spec (heap_size - 8) 8) as [_|?]; [|lia]. reflexivity.
Qed.

(** X27.  The checks of [validate_heap] detect an unallocated block that is
    missing from the free list: clear the allocated flag of any allocated
    block of a valid heap without linking the block, and the checks stop at
    that block with the first message and report a malformed heap. *)
Theorem validate_heap_checks_detect st L1 L2 fl b p fuel :
  rep st (L1 ++ mkBlock b p true :: L2) fl ->
  segment_size st = segment_end st - segment_start st ->
  (length (L1 ++ mkBlock b p true :: L2) <= fuel)%nat ->
  validate_heap_checks fuel (set_Header_allocated b 0 st) =
    Some (false,
          [Printf "Allocation status incorrect or not added properly to free list: %p\n"
                  [b]]).
Proof.
  intros R Ez Hfuel. set (L := L1 ++ mkBlock b p true :: L2) in *.
  set (st' := set_Header_allocated b 0 st).
  pose proof (rep_chain _ _ _ R) as Hc.
  assert (Hin : In (mkBlock b p true) L) by (apply in_or_app; right; left; reflexivity).
  assert (Hm : forall x, mem st' x = mem st x \/ b + 4 <= x < b + 8).
  { intros x. unfold st', set_Header_allocated, with_mem. cbn [mem].
    destruct (store_cases 4 (mem st) (b + 4) 0 x) as [E|E]; [left; exact E | right; lia]. }
  assert (Hl : lseg (mem st') NULL (free_list_start st') fl NULL).
  { eapply lseg_frame; [apply (rep_list _ _ _ R)|]. intros c x Hcfl Hx.
    destruct (Hm x) as [E|E]; [exact E|]. exfalso.
    destruct (rep_free_block _ _ _ c R Hcfl) as (pc & Hpc & _).
    apply (links_not_header _ _ _ (mkBlock b p true) c pc false x Hc Hin Hpc);
      [cbn [b_addr]; lia | exact Hx]. }
  assert (Hh : hdrs (mem st') (L1 ++ mkBlock b p false :: L2)).
  { pose proof (rep_hdrs _ _ _ R) as Hh. unfold L in Hh. apply hdrs_app in Hh.
    destruct Hh as (Hh1 & Hh2). apply Forall_cons_iff in Hh2.
    destruct Hh2 as ((Hp & _) & Hh2). cbn [b_addr b_size] in Hp.
    assert (Hother : forall d x, In d L -> b_addr d <> b ->
              b_addr d <= x < b_addr d + HEADER_SIZE -> mem st' x = mem st x).
    { intros d x Hd Hne Hx. destruct (Hm x) as [E|E]; [exact E|]. exfalso.
      destruct (chain_In _ _ _ _ Hc Hd) as (_ & _ & Hz).
      destruct (chain_In _ _ _ _ Hc Hin) as (_ & _ & Hz').
      destruct (chain_sep _ _ _ _ _ Hc Hd Hin) as [Ed|[Ed|Ed]];
        [subst d; cbn [b_addr] in Hne; contradiction | |];
        unfold footprint, HEADER_SIZE, MIN_PAYLOAD_SIZE in *; cbn [b_addr b_size] in *; lia. }
    apply hdrs_app. split; [|constructor; [split|]].
    - eapply hdrs_frame; [exact Hh1|]. intros d x Hd Hx.
      apply (Hother d x); [apply in_or_app; left; exact Hd | | exact Hx].
      pose proof (chain_before _ _ _ _ _ _ Hc Hd) as Hlt.
      destruct (chain_In _ _ _ _ Hc (in_or_app _ _ d (or_introl Hd))) as (_ & _ & Hz).
      unfold footprint, HEADER_SIZE, MIN_PAYLOAD_SIZE in *. cbn [b_addr] in Hlt. lia.
    - cbn [b_addr b_size]. rewrite <- Hp. apply load_ext. intros x Hx.
      destruct (Hm x) as [E|E]; [exact E | lia].
    - cbn [b_addr b_used flag]. unfold st', set_Header_allocated, with_mem. cbn [mem].
      rewrite load4_same. reflexivity.
    - eapply hdrs_frame; [exact Hh2|]. intros d x Hd Hx.
      apply (Hother d x); [apply in_or_app; right; right; exact Hd | | exact Hx].
      pose proof (chain_after _ _ _ _ _ _ Hc Hd) as Hlt.
      unfold footprint, HEADER_SIZE in *. cbn [b_addr b_size] in Hlt.
      destruct (chain_In _ _ _ _ Hc Hin) as (_ & _ & Hz).
      unfold MIN_PAYLOAD_SIZE in Hz. cbn [b_size] in Hz. lia. }
  assert (Hc' : chain (segment_start st') (L1 ++ mkBlock b p false :: L2) (segment_end st')).
  { apply chain_split in Hc. apply chain_split. exact Hc. }
  pose proof (rep_free_length _ _ _ R) as Hfl.
  pose proof (rep_start _ _ _ R) as Hst. pose proof (rep_end _ _ _ R) as Hen.
  pose proof (chain_le _ _ _ Hc) as Hle.
  pose proof (validate_heap_loop_spec st' fl fuel Hl (rep_nodup _ _ _ R)
                ltac:(lia) (rep_list_short _ _ _ R)) as X.
  feed X; [change (segment_size st') with (segment_size st); lia|].
  specialize (X _ (segment_start st') fuel 0 Hc' Hh).
  feed X.
  { intros d Hd. change (segment_size st') with (segment_size st).
    assert (Hd' : exists f, In (mkBlock (b_addr d) (b_size d) f) L).
    { apply in_app_or in Hd. destruct Hd as [Hd|[<-|Hd]].
      - exists (b_used d). destruct d. apply in_or_app. left. exact Hd.
      - exists true. exact Hin.
      - exists (b_used d). destruct d. apply in_or_app. right. right. exact Hd. }
    destruct Hd' as (f & Hd').
    destruct (rep_block_bounds _ _ _ _ R Hd') as (B1 & _ & B3 & _).
    unfold footprint, HEADER_SIZE in B3. cbn [b_addr b_size] in *. lia. }
  { lia. }
  { change (segment_size st') with (segment_size st).
    change (segment_end st') with (segment_end st).
    change (segment_start st') with (segment_start st). lia. }
  unfold validate_heap_checks. fold st'.
  destruct (validate_heap_loop fuel fuel st' (segment_start st') 0) as [r|].
  2:{ rewrite length_app in X. cbn [length] in X. unfold L in Hfuel.
      rewrite length_app in Hfuel. cbn [length] in Hfuel. lia. }
  rewrite X. unfold first_unlisted. rewrite find_first_true; [reflexivity | |].
  - intros d Hd. destruct (b_used d) eqn:Eu; [reflexivity|]. cbn [negb andb].
    assert (Hin' : In (b_addr d) fl).
    { apply (rep_free _ _ _ R). exists (b_size d).
      destruct d as [a q f]. cbn [b_used b_addr b_size] in *. subst f.
      apply in_or_app. left. exact Hd. }
    apply listed_iff in Hin'. rewrite Hin'. reflexivity.
  - cbn [b_used b_addr negb andb].
    destruct (existsb (Z.eqb b) fl) eqn:E; [|reflexivity]. exfalso.
    apply listed_iff in E. apply (used_not_listed _ _ _ _ _ R Hin E).
Qed.

(** ** What [dump_heap] prints *)

Lemma dump_blocks_eq fuel st s last :
  dump_blocks fuel st s last =
  if s <=? last then
    match fuel with
    | O => None
    | S k =>
      match dump_blocks k st (s + Header_payload st s + HEADER_SIZE) last with
      | None => None
      | Some out =>
        Some (Printf "=========================\n" [] ::
              Printf "Block ptr: %p\n" [s] ::
              Printf "Payload size: %u\n" [Header_payload st s] ::
              Printf "Allocated: %i\n" [int_of_u32 (Header_allocated st s)] ::
              Printf "Next block: %p\n" [s + Header_payload st s + HEADER_SIZE] :: out)
      end
    end
  else Some [].
Proof. destruct fuel; reflexivity. Qed.

Lemma dump_free_blocks_eq fuel st c :
  dump_free_blocks fuel st c =
  if c =? NULL then Some []
  else
    match fuel with
    | O => None
    | S k =>
      match dump_free_blocks k st (Pointers_next st (get_payload_ptr c)) with
      | None => None
      | Some out =>
        Some (Printf "========================\n" [] ::
              Printf "Free Block: %p\n" [c] ::
              Printf "Payload: %u\n" [Header_payload st c] ::
              Printf "Previous free: %p\n" [Pointers_previous st (get_payload_ptr c)] ::
              Printf "Next free: %p\n" [Pointers_next st (get_payload_ptr c)] :: out)
      end
    end.
Proof. destruct fuel; reflexivity. Qed.

Lemma dump_blocks_chain st L :
  forall s fuel,
  chain s L (segment_end st) -> hdrs (mem st) L ->
  match dump_blocks fuel st s (segment_end st - MIN_BLOCK_SIZE) with
  | Some out => out = flat_map block_lines L
  | None => (fuel < length L)%nat
  end.
Proof.
  induction L as [|d L IH]; intros s fuel Hc Hh; rewrite dump_blocks_eq;
    cbn [chain] in Hc; unfold MIN_BLOCK_SIZE.
  - subst s. destruct (Z.leb_spec (segment_end st) (segment_end st - 24)); [lia|].
    reflexivity.
  - destruct Hc as (Ha & Hs & Hc). pose proof (chain_le _ _ _ Hc) as Hle.
    apply Forall_cons_iff in Hh. destruct Hh as ((Hp & Hf) & Hh).
    unfold footprint, HEADER_SIZE, MIN_PAYLOAD_SIZE in *.
    destruct (Z.leb_spec s (segment_end st - 24)) as [_|?]; [|lia].
    destruct fuel as [|k]; [cbn [length]; lia|].
    unfold Header_payload, Header_allocated. rewrite <- Ha, Hp, Hf.
    specialize (IH (b_addr d + b_size d + 8) k).
    feed IH.
    { replace (b_addr d + b_size d + 8) with (b_addr d + (8 + b_size d)) by lia.
      rewrite Ha. exact Hc. }
    { exact Hh. }
    unfold MIN_BLOCK_SIZE in IH.
    destruct (dump_blocks k st (b_addr d + b_size d + 8) (segment_end st - 24)) as [out|];
      [|cbn [length]; lia].
    subst out. cbn [flat_map]. unfold block_lines at 2. cbn [app].
    unfold HEADER_SIZE. destruct (b_used d); reflexivity.
Qed.

Lemma size_at_In s L e c p f :
  chain s L e -> In (mkBlock c p f) L -> size_at L c = p.
Proof.
  intros Hc Hin. unfold size_at.
  destruct (find (fun d => b_addr d =? c) L) as [d|] eqn:E.
  - apply find_some in E. destruct E as (Hd & Ea). apply Z.eqb_eq in Ea.
    assert (X : d = mkBlock c p f) by (apply (chain_addr_inj _ _ _ _ _ Hc Hd Hin); exact Ea).
    rewrite X. reflexivity.
  - pose proof (find_none _ _ E _ Hin) as X. cbn [b_addr] in X.
    rewrite Z.eqb_refl in X. discriminate X.
Qed.

Lemma dump_free_blocks_lseg st L fl :
  rep st L fl ->
  forall l prev h fuel,
  lseg (mem st) prev h l NULL -> (forall c, In c l -> In c fl) ->
  match dump_free_blocks fuel st h with
  | Some out => out = free_lines L prev l
  | None => (fuel < length l)%nat
  end.
Proof.
  intros R. induction l as [|c l IH]; intros prev h fuel Hl Hsub;
    rewrite dump_free_blocks_eq; cbn [lseg] in Hl.
  - subst h. rewrite Z.eqb_refl. reflexivity.
  - destruct Hl as (-> & Hnz & Hpv & Hl).
    destruct (Z.eqb_spec c NULL) as [?|_]; [contradiction|].
    destruct fuel as [|k]; [cbn [length]; lia|].
    unfold Pointers_next, Pointers_previous, get_payload_ptr, HEADER_SIZE.
    rewrite add_8_8.
    specialize (IH c (load 8 (mem st) (c + 16)) k Hl).
    feed IH; [intros a Ha; apply Hsub; right; exact Ha|].
    destruct (dump_free_blocks k st (load 8 (mem st) (c + 16))) as [out|];
      [|cbn [length]; lia].
    subst out. cbn [free_lines]. rewrite Hpv.
    destruct (rep_free_block _ _ _ c R (Hsub c (or_introl eq_refl))) as (p & Hp & _).
    destruct (hdrs_In _ _ _ (rep_hdrs _ _ _ R) Hp) as (Hpl & _). cbn [b_addr b_size] in Hpl.
    unfold Header_payload. rewrite Hpl, (size_at_In _ _ _ _ _ _ (rep_chain _ _ _ R) Hp).
    assert (En : load 8 (mem st) (c + 16) = hd NULL l).
    { destruct l as [|c' l]; cbn [lseg hd] in *; [exact Hl | apply (proj1 Hl)]. }
    rewrite En. reflexivity.
Qed.

(** X28.  On a valid heap, with fuel for its blocks, [dump_heap] prints, for
    mode 0 or 2, the title and then five lines for every block of the layout
    in address order: pointer, payload size, allocated flag and the address of
    the next block; then the blank lines; then, for mode 1 or 2, the title and
    five lines for every entry of the free list in list order: pointer,
    payload size, and as previous and next free block its neighbours in the
    list, null at the two ends.  Any other mode prints the blank lines only. *)
Theorem dump_heap_prints st L fl fuel mode :
  rep st L fl -> (length L <= fuel)%nat ->
  dump_heap fuel mode st =
    Some ((if (mode =? 0) || (mode =? 2)
           then Printf "Block by block\n" [] :: flat_map block_lines L else []) ++
          Printf "\n\n" [] ::
          (if (mode =? 1) || (mode =? 2)
           then Printf "Free block list\n" [] :: free_lines L NULL fl else [])).
Proof.
  intros R Hfuel. pose proof (rep_free_length _ _ _ R) as Hfl. unfold dump_heap. cbv zeta.
  pose proof (dump_blocks_chain st L (segment_start st) fuel (rep_chain _ _ _ R)
                (rep_hdrs _ _ _ R)) as X.
  pose proof (dump_free_blocks_lseg st L fl R fl NULL (free_list_start st) fuel
                (rep_list _ _ _ R) (fun c H => H)) as Y.
  destruct (dump_blocks fuel st (segment_start st) (segment_end st - MIN_BLOCK_SIZE))
    as [out1|]; [|lia].
  destruct (dump_free_blocks fuel st (free_list_start st)) as [out2|]; [|lia].
  subst out1 out2.
  destruct ((mode =? 0) || (mode =? 2)); destruct ((mode =? 1) || (mode =? 2)); reflexivity.
Qed.

(** X29.  On a region shorter than the minimum block size, which [myinit]
    accepts when it exceeds the header, the block-by-block part of
    [dump_heap] prints no block at all although the heap consists of one
    block: the loop runs up to [segment_end - MIN_BLOCK_SIZE], which lies
    before the start of the segment. *)
Theorem dump_heap_short_segment heap_start heap_size st fuel :
  region_ok heap_start heap_size -> reachable heap_start heap_size st ->
  heap_size < MIN_BLOCK_SIZE -> MIN_BLOCK_SIZE <= heap_start + heap_size ->
  walk_yields st [mkBlock heap_start (heap_size - HEADER_SIZE) false] /\
  dump_heap fuel 0 st = Some [Printf "Block by block\n" []; Printf "\n\n" []].
Proof.
  intros Hreg Hr Hsmall Hend.
  destruct (reachable_segment _ _ _ Hr) as (Es & Ee).
  pose proof (reachable_tiny _ _ _ Hreg Hsmall Hr) as T.
  split.
  - intros k. pose proof (single_heap_walk st k (proj1 T)) as X.
    destruct T as ((_ & He & _) & _). unfold HEADER_SIZE in *.
    assert (Ep : Header_payload st (segment_start st) = heap_size - 8) by lia.
    rewrite Ep, Es in X. rewrite Es.
    destruct (heap_walk k st heap_start) as [[L stop]|];
      [exact X | subst k; cbn [length]; lia].
  - unfold dump_heap. cbv zeta. rewrite Z.eqb_refl. cbn [orb].
    change ((0 =? 1) || (0 =? 2)) with false. cbv iota.
    rewrite dump_blocks_eq.
    destruct (Z.leb_spec (segment_start st) (segment_end st - MIN_BLOCK_SIZE)) as [?|_];
      [lia|]. reflexivity.
Qed.

End Allocator.

(** * Concrete heaps *)

(** The configuration of the course header: 8-byte alignment, requests of
    at most 2^30 bytes. *)
Definition ALIGNMENT8 : Z := 8.
Definition MAX_REQUEST_1G : Z := 2 ^ 30.

(** Memory before [myinit]: all bytes zero, all globals null. *)
Definition zero_heap : heap := mkHeap (fun _ => x00) 0 0 0 0.

(** Memory before [myinit] when every byte holds 0xFF. *)
Definition ff_heap : heap := mkHeap (fun _ => xff) 0 0 0 0.

(** The state inside a result, or the state before the call if the fuel ran out. *)
Definition state_of {A : Type} (r : option (A * heap)) (st : heap) : heap :=
  match r with
  | Some (_, st') => st'
  | None => st
  end.

Definition state_after (r : option heap) (st : heap) : heap :=
  match r with
  | Some st' => st'
  | None => st
  end.

Definition pointer_of (r : option (Z * heap)) : option Z := option_map fst r.

(** A segment of 1008 bytes at address 4096: one free block of payload 1000;
    the same segment after [mymalloc(16)]; and after [mymalloc(100)] instead. *)
Definition heap_1000 : heap := snd (myinit 4096 1008 zero_heap).
Definition heap_16 : heap := remove_block 4096 (partition 4096 1000 16 heap_1000).
Definition heap_104 : heap := remove_block 4096 (partition 4096 1000 104 heap_1000).

(** A segment of 56 bytes at address 4096: one free block of payload 48;
    the same heap after [mymalloc(16)] (block A at 4096, pointer 4104); after
    a second [mymalloc(16)] (block B at 4120, pointer 4128, which takes the
    whole remainder of 24 bytes); and after releasing A, then B. *)
Definition heap_48 : heap := snd (myinit 4096 56 zero_heap).
Definition heap_48_a : heap :=
  state_of (mymalloc ALIGNMENT8 MAX_REQUEST_1G 4 16 heap_48) heap_48.
Definition heap_48_ab : heap :=
  state_of (mymalloc ALIGNMENT8 MAX_REQUEST_1G 4 16 heap_48_a) heap_48_a.
Definition heap_48_freed_a : heap := state_after (myfree 4 4104 heap_48_ab) heap_48_ab.
Definition heap_48_freed_ab : heap :=
  state_after (myfree 4 4128 heap_48_freed_a) heap_48_freed_a.

(** A segment of 36 bytes at address 4096. *)
Definition heap_36 : heap := snd (myinit 4096 36 zero_heap).

(** Segments of 2^32 + 32 bytes at address 4096: one over memory full of
    0xFF, one over zero memory with four 0xFF bytes at offset 32. *)
Definition heap_4g : heap := snd (myinit 4096 4294967328 ff_heap).
Definition heap_4g_sparse : heap :=
  snd (myinit 4096 4294967328
         (mkHeap (fun x => if (4128 <=? x) && (x <? 4132) then xff else x00) 0 0 0 0)).

(** The 1008-byte segment after two calls [mymalloc(16)]: blocks A at 4096
    and B at 4120 allocated, the rest free; and the same after
    [myrealloc(A, 100)], which cannot grow A in place. *)
Definition heap_16_16 : heap := remove_block 4120 (partition 4120 976 16 heap_16).
Definition heap_moved : heap :=
  state_of (myrealloc ALIGNMENT8 MAX_REQUEST_1G 4 4104 100 heap_16_16) heap_16_16.

(** A segment of 12 bytes at address 4096. *)
Definition heap_12 : heap := snd (myinit 4096 12 zero_heap).

Lemma heap_1000_rep : rep heap_1000 [mkBlock 4096 1000 false] [4096].
Proof.
  apply (myinit_rep 4096 1008 zero_heap); unfold MIN_BLOCK_SIZE, HEADER_SIZE; lia.
Qed.

Lemma heap_1000_reachable : reachable ALIGNMENT8 MAX_REQUEST_1G 4096 1008 heap_1000.
Proof. apply (reach_init _ _ _ _ zero_heap). reflexivity. Qed.

Lemma heap_16_rep :
  rep heap_16 [mkBlock 4096 16 true; mkBlock 4120 976 false] [4120].
Proof.
  destruct (partition_rep heap_1000 [] [] 4096 1000 false 16 [4096] heap_1000_rep)
    as (R1 & _); [unfold MIN_PAYLOAD_SIZE; lia | unfold MIN_BLOCK_SIZE; lia |].
  apply (remove_block_rep _ [] _ 4096 16 [4120] []) in R1. exact (proj1 R1).
Qed.

Lemma heap_16_malloc :
  mymalloc ALIGNMENT8 MAX_REQUEST_1G 4 16 heap_1000 = Some (4104, heap_16).
Proof. reflexivity. Qed.

Lemma heap_16_reachable : reachable ALIGNMENT8 MAX_REQUEST_1G 4096 1008 heap_16.
Proof.
  apply (reach_malloc _ _ _ _ heap_1000 4%nat 16 4104).
  - exact heap_1000_reachable.
  - lia.
  - exact heap_16_malloc.
Qed.

Lemma heap_104_rep :
  rep heap_104 [mkBlock 4096 104 true; mkBlock 4208 888 false] [4208].
Proof.
  destruct (partition_rep heap_1000 [] [] 4096 1000 false 104 [4096] heap_1000_rep)
    as (R1 & _); [unfold MIN_PAYLOAD_SIZE; lia | unfold MIN_BLOCK_SIZE; lia |].
  apply (remove_block_rep _ [] _ 4096 104 [4208] []) in R1. exact (proj1 R1).
Qed.

Lemma heap_48_rep : rep heap_48 [mkBlock 4096 48 false] [4096].
Proof.
  apply (myinit_rep 4096 56 zero_heap); unfold MIN_BLOCK_SIZE, HEADER_SIZE; lia.
Qed.

Lemma heap_48_a_rep :
  rep heap_48_a [mkBlock 4096 16 true; mkBlock 4120 24 false] [4120].
Proof.
  destruct (partition_rep heap_48 [] [] 4096 48 false 16 [4096] heap_48_rep)
    as (R1 & _); [unfold MIN_PAYLOAD_SIZE; lia | unfold MIN_BLOCK_SIZE; lia |].
  apply (remove_block_rep _ [] _ 4096 16 [4120] []) in R1. exact (proj1 R1).
Qed.

Lemma heap_48_ab_rep :
  rep heap_48_ab [mkBlock 4096 16 true; mkBlock 4120 24 true] [].
Proof.
  pose proof (remove_block_rep heap_48_a [mkBlock 4096 16 true] [] 4120 24 [] []
                heap_48_a_rep) as R1.
  exact (proj1 R1).
Qed.

(** * Counterexamples to the claims as stated *)

(** C1 as stated fails: on the 56-byte heap with A allocated (payload 16) and
    its right neighbour free (payload 24), [myrealloc(A, 100)] must grow
    beyond what coalescing provides (48 < 104) and the fallback allocation
    fails; the call returns null, but the heap is not unchanged: A's header
    now records a payload of 48 and the free list has lost its only entry. *)
Lemma myrealloc_failure_changes_heap :
  live heap_48_a 4104 16 /\
  pointer_of (myrealloc ALIGNMENT8 MAX_REQUEST_1G 4 4104 100 heap_48_a) = Some NULL /\
  Header_payload heap_48_a 4096 = 16 /\
  free_walk 4 heap_48_a (free_list_start heap_48_a) = Some [4120] /\
  let st' := state_of (myrealloc ALIGNMENT8 MAX_REQUEST_1G 4 4104 100 heap_48_a) heap_48_a in
  Header_payload st' 4096 = 48 /\
  free_walk 4 st' (free_list_start st') = Some [] /\
  pointer_of (mymalloc ALIGNMENT8 MAX_REQUEST_1G 4 100 st') = Some NULL.
Proof.
  split.
  { exists 4%nat, [mkBlock 4096 16 true; mkBlock 4120 24 false], 4152.
    split; [vm_compute; reflexivity | left; reflexivity]. }
  repeat split; vm_compute; reflexivity.
Qed.

(** C2 as stated fails for the order left-then-right: on the 56-byte heap
    with A (payload 16) and B (payload 24) allocated and adjacent, releasing
    A and then B leaves two free blocks of payloads 16 and 24 and two
    free-list entries, not one block of payload 16 + 24 + 8. *)
Lemma free_left_then_right_two_blocks :
  heap_walk 4 heap_48_ab (segment_start heap_48_ab) =
    Some ([mkBlock 4096 16 true; mkBlock 4120 24 true], segment_end heap_48_ab) /\
  myfree 4 4104 heap_48_ab = Some heap_48_freed_a /\
  myfree 4 4128 heap_48_freed_a = Some heap_48_freed_ab /\
  heap_walk 4 heap_48_freed_ab (segment_start heap_48_freed_ab) =
    Some ([mkBlock 4096 16 false; mkBlock 4120 24 false], segment_end heap_48_freed_ab) /\
  free_walk 4 heap_48_freed_ab (free_list_start heap_48_freed_ab) = Some [4120; 4096].
Proof. repeat split; vm_compute; reflexivity. Qed.

(** C3 as stated fails: [myinit] does not round the segment it is given.  On
    a segment of 36 bytes the state it installs, reachable by definition, has
    a single block whose payload size is 28, which is not a multiple of the
    alignment 8. *)
Lemma unaligned_payload_reachable :
  reachable ALIGNMENT8 MAX_REQUEST_1G 4096 36 heap_36 /\
  heap_walk 1 heap_36 (segment_start heap_36) =
    Some ([mkBlock 4096 28 false], segment_end heap_36) /\
  ~ (28 mod ALIGNMENT8 = 0 /\ MIN_PAYLOAD_SIZE <= 28).
Proof.
  split; [apply (reach_init _ _ _ _ zero_heap); reflexivity|].
  split; [vm_compute; reflexivity|].
  intros [H _]. vm_compute in H. discriminate H.
Qed.

(** C4 as stated fails: the header stores the payload size in 32 bits.  On a
    segment of 2^32 + 32 bytes whose bytes all hold 0xFF before [myinit],
    the first header records a payload of 24 instead of 2^32 + 24; the
    physical walk then reads the bytes at offset 32 as a header and stops 7
    bytes beyond [segment_end]. *)
Lemma walk_overshoots_segment_end :
  reachable ALIGNMENT8 MAX_REQUEST_1G 4096 4294967328 heap_4g /\
  segment_start heap_4g = 4096 /\ segment_end heap_4g = 4294971424 /\
  forall fuel,
    match heap_walk fuel heap_4g (segment_start heap_4g) with
    | Some (_, stop) => stop = 4294971431
    | None => (fuel < 2)%nat
    end.
Proof.
  split; [apply (reach_init _ _ _ _ ff_heap); reflexivity|].
  split; [reflexivity|]. split; [reflexivity|].
  change (segment_start heap_4g) with 4096.
  intros [|[|k]].
  - vm_compute. lia.
  - vm_compute. lia.
  - rewrite (heap_walk_step heap_4g 4096 24 0 (S k)) by (vm_compute; reflexivity).
    rewrite (heap_walk_step heap_4g (4096 + 24 + HEADER_SIZE) 4294967295 4294967295 k)
      by (vm_compute; reflexivity).
    rewrite heap_walk_stop by (vm_compute; intros H; discriminate H).
    reflexivity.
Qed.

(** C5 as stated fails for the same reason.  On a segment of 2^32 + 32 bytes
    whose bytes are zero except for four 0xFF bytes at offset 32, the
    physical walk after [myinit] meets at offset 32 a block whose header
    says unallocated, and that block is not on the free list, whose only
    entry is the first block. *)
Lemma unallocated_block_off_free_list :
  reachable ALIGNMENT8 MAX_REQUEST_1G 4096 4294967328 heap_4g_sparse /\
  (forall fuel,
     match heap_walk fuel heap_4g_sparse (segment_start heap_4g_sparse) with
     | Some (L, _) => In (mkBlock 4128 4294967295 false) L
     | None => (fuel < 2)%nat
     end) /\
  (forall fuel,
     match free_walk fuel heap_4g_sparse (free_list_start heap_4g_sparse) with
     | Some l => l = [4096] /\ ~ In 4128 l
     | None => (fuel < 1)%nat
     end).
Proof.
  split.
  { apply (reach_init _ _ _ _
             (mkHeap (fun x => if (4128 <=? x) && (x <? 4132) then xff else x00) 0 0 0 0)).
    reflexivity. }
  split.
  - change (segment_start heap_4g_sparse) with 4096.
    intros [|[|k]].
    + vm_compute. lia.
    + vm_compute. lia.
    + rewrite (heap_walk_step heap_4g_sparse 4096 24 0 (S k)) by (vm_compute; reflexivity).
      rewrite (heap_walk_step heap_4g_sparse (4096 + 24 + HEADER_SIZE) 4294967295 0 k)
        by (vm_compute; reflexivity).
      rewrite heap_walk_stop by (vm_compute; intros H; discriminate H).
      right. left. reflexivity.
  - change (free_list_start heap_4g_sparse) with 4096.
    intros [|k].
    + vm_compute. lia.
    + rewrite (free_walk_step heap_4g_sparse 4096 NULL k);
        [| unfold NULL; lia | vm_compute; reflexivity].
      rewrite free_walk_null. split; [reflexivity|].
      intros [H|[]]. discriminate H.
Qed.

(** C6 as stated fails: a length of 8 bytes holds one header, yet [myinit]
    reports non-success. *)
Lemma myinit_rejects_one_header :
  HEADER_SIZE <= 8 /\ fst (myinit 4096 8 zero_heap) = false.
Proof. split; [unfold HEADER_SIZE; lia | reflexivity]. Qed.

(** * The theorems at concrete heaps *)

Lemma myrealloc_failure_witness :
  rep heap_16 [mkBlock 4096 16 true; mkBlock 4120 976 false] [4120] /\
  16 + absorbed [mkBlock 4120 976 false] < aligned_size ALIGNMENT8 2000 /\
  exists st1,
    coalesce_right 4 4096 heap_16 = Some st1 /\
    rep st1 [mkBlock 4096 1000 true] [] /\
    (forall x, 4104 <= x < 4120 -> mem st1 x = mem heap_16 x) /\
    ([mkBlock 4120 976 false] = [] -> st1 = heap_16) /\
    forall st2,
      mymalloc ALIGNMENT8 MAX_REQUEST_1G 4 2000 st1 = Some (NULL, st2) ->
      myrealloc ALIGNMENT8 MAX_REQUEST_1G 4 4104 2000 heap_16 = Some (NULL, st1).
Proof.
  split; [exact heap_16_rep|]. split; [vm_compute; reflexivity|].
  apply (myrealloc_failure_keeps_block ALIGNMENT8 MAX_REQUEST_1G heap_16 [4120] []
           4096 16 [mkBlock 4120 976 false] [] 2000 4).
  - exact heap_16_rep.
  - repeat constructor.
  - exact I.
  - lia.
  - vm_compute. reflexivity.
  - simpl. lia.
Defined.

Lemma free_adjacent_pair_witness :
  rep heap_48_ab [mkBlock 4096 16 true; mkBlock 4120 24 true] [] /\
  (exists st1 st2,
     myfree 4 4128 heap_48_ab = Some st1 /\ myfree 4 4104 st1 = Some st2 /\
     rep st2 [mkBlock 4096 48 false] [4096]) /\
  (exists st1 st2,
     myfree 4 4104 heap_48_ab = Some st1 /\ myfree 4 4128 st1 = Some st2 /\
     rep st2 [mkBlock 4096 16 false; mkBlock 4120 24 false] [4120; 4096]).
Proof.
  split; [exact heap_48_ab_rep|].
  apply (free_adjacent_pair heap_48_ab [] [] 4096 16 4120 24 [] [] 4).
  - exact heap_48_ab_rep.
  - constructor.
  - exact I.
  - simpl. lia.
Defined.

Lemma payload_sizes_invariant_witness :
  reachable ALIGNMENT8 MAX_REQUEST_1G 4096 1008 heap_16 /\
  exists L, walk_yields heap_16 L /\
    forall d, In d L -> b_size d mod ALIGNMENT8 = 0 /\ MIN_PAYLOAD_SIZE <= b_size d.
Proof.
  split; [exact heap_16_reachable|].
  apply (payload_sizes_invariant ALIGNMENT8 MAX_REQUEST_1G 4096 1008 heap_16).
  - unfold ALIGNMENT8. lia.
  - exists 1. reflexivity.
  - unfold region_ok, HEADER_SIZE. lia.
  - unfold MIN_BLOCK_SIZE. lia.
  - exists 125. reflexivity.
  - exact heap_16_reachable.
Defined.

Lemma walk_covers_segment_witness :
  region_ok 4096 1008 /\
  reachable ALIGNMENT8 MAX_REQUEST_1G 4096 1008 heap_16 /\
  segment_start heap_16 = 4096 /\ segment_end heap_16 = 4096 + 1008 /\
  exists L, walk_yields heap_16 L /\
    forall x, 4096 <= x < 4096 + 1008 ->
      exists d, In d L /\ covers d x /\ forall d', In d' L -> covers d' x -> d' = d.
Proof.
  assert (Hreg : region_ok 4096 1008) by (unfold region_ok, HEADER_SIZE; lia).
  split; [exact Hreg|]. split; [exact heap_16_reachable|].
  exact (walk_covers_segment ALIGNMENT8 MAX_REQUEST_1G 4096 1008 heap_16 Hreg
           heap_16_reachable).
Defined.

Lemma free_list_matches_headers_witness :
  region_ok 4096 1008 /\
  reachable ALIGNMENT8 MAX_REQUEST_1G 4096 1008 heap_16 /\
  exists L fl,
    walk_yields heap_16 L /\ free_list_yields heap_16 fl /\ NoDup fl /\
    forall d, In d L -> (b_used d = false <-> In (b_addr d) fl).
Proof.
  assert (Hreg : region_ok 4096 1008) by (unfold region_ok, HEADER_SIZE; lia).
  split; [exact Hreg|]. split; [exact heap_16_reachable|].
  exact (free_list_matches_headers ALIGNMENT8 MAX_REQUEST_1G 4096 1008 heap_16 Hreg
           heap_16_reachable).
Defined.

Lemma myinit_spec_witness :
  (fst (myinit 4096 1008 zero_heap) = false <-> 1008 <= HEADER_SIZE) /\
  walk_yields heap_1000 [mkBlock 4096 1000 false] /\
  free_list_yields heap_1000 [4096] /\
  Pointers_previous heap_1000 (get_payload_ptr 4096) = NULL /\
  Pointers_next heap_1000 (get_payload_ptr 4096) = NULL.
Proof.
  destruct (myinit_spec 4096 1008 zero_heap) as (H1 & _ & H3);
    [lia | lia | unfold HEADER_SIZE; lia |].
  split; [exact H1|].
  destruct H3 as (_ & _ & Hw & Hf & Hp & Hn); [unfold HEADER_SIZE; lia|].
  split; [exact Hw|]. split; [exact Hf|]. split; [exact Hp | exact Hn].
Defined.

Lemma myrealloc_shrink_witness :
  rep heap_104 [mkBlock 4096 104 true; mkBlock 4208 888 false] [4208] /\
  aligned_size ALIGNMENT8 16 = 16 /\
  myrealloc ALIGNMENT8 MAX_REQUEST_1G 4 4104 16 heap_104 =
    Some (4104, partition 4096 104 16 heap_104) /\
  rep (partition 4096 104 16 heap_104)
      [mkBlock 4096 16 true; mkBlock 4120 80 false; mkBlock 4208 888 false]
      [4120; 4208] /\
  (forall x, 4104 <= x < 4120 ->
             mem (partition 4096 104 16 heap_104) x = mem heap_104 x).
Proof.
  split; [exact heap_104_rep|]. split; [reflexivity|].
  apply (myrealloc_shrink ALIGNMENT8 MAX_REQUEST_1G heap_104 []
           [mkBlock 4208 888 false] [4208] 4096 104 16 4).
  - exact heap_104_rep.
  - lia.
  - vm_compute. intros H. discriminate H.
Defined.

Lemma find_fit_first_fit_witness :
  rep heap_1000 [mkBlock 4096 1000 false] [4096] /\
  find_fit 4 16 heap_1000 = Some (4096, heap_16) /\
  rep heap_16 [mkBlock 4096 16 true; mkBlock 4120 (1000 - 16 - HEADER_SIZE) false] [4120].
Proof.
  split; [exact heap_1000_rep|].
  assert (Hreq : MIN_PAYLOAD_SIZE <= 16 < 2 ^ 64) by (unfold MIN_PAYLOAD_SIZE; lia).
  apply (proj2 (find_fit_first_fit heap_1000 [mkBlock 4096 1000 false] [4096] 16 4
                  heap_1000_rep Hreq) [] [] [] [] 4096 1000).
  - reflexivity.
  - reflexivity.
  - intros c [].
  - lia.
  - simpl. lia.
Defined.

Lemma mymalloc_spec_witness :
  ALIGNMENT8 = 2 ^ 3 /\ MAX_REQUEST_1G + ALIGNMENT8 <= 2 ^ 64 /\
  mymalloc ALIGNMENT8 MAX_REQUEST_1G 4 16 heap_1000 =
  match find_fit 4 (Z.max (round_up 16 ALIGNMENT8) MIN_PAYLOAD_SIZE) heap_1000 with
  | None => None
  | Some (block, st') =>
    Some (if block =? NULL then NULL else get_payload_ptr block, st')
  end.
Proof.
  split; [reflexivity|]. split; [unfold MAX_REQUEST_1G, ALIGNMENT8; lia|].
  apply (mymalloc_spec ALIGNMENT8 MAX_REQUEST_1G 4 16 heap_1000 3).
  - lia.
  - reflexivity.
  - unfold MAX_REQUEST_1G, ALIGNMENT8. lia.
  - lia.
Defined.

(** * The further properties at concrete heaps *)

Lemma heap_16_16_rep :
  rep heap_16_16
      [mkBlock 4096 16 true; mkBlock 4120 16 true; mkBlock 4144 952 false] [4144].
Proof.
  destruct (partition_rep heap_16 [mkBlock 4096 16 true] [] 4120 976 false 16 [4120]
              heap_16_rep) as (R1 & _);
    [unfold MIN_PAYLOAD_SIZE; lia | unfold MIN_BLOCK_SIZE; lia |].
  apply (remove_block_rep _ [mkBlock 4096 16 true] _ 4120 16 [4144] []) in R1.
  exact (proj1 R1).
Qed.


Lemma heap_12_reachable : reachable ALIGNMENT8 MAX_REQUEST_1G 4096 12 heap_12.
Proof. apply (reach_init _ _ _ _ zero_heap). reflexivity. Qed.

Lemma align_least_multiple_witness :
  13 + 2 ^ 3 <= 2 ^ 64 /\
  (2 ^ 3 | align 13 (2 ^ 3)) /\ 13 <= align 13 (2 ^ 3) /\
  forall m, (2 ^ 3 | m) -> 13 <= m -> align 13 (2 ^ 3) <= m.
Proof. split; [lia|]. apply (align_least_multiple 13 3); lia. Defined.

Lemma align_fixes_multiples_witness :
  16 + 2 ^ 3 <= 2 ^ 64 /\
  (align 16 (2 ^ 3) = 16 <-> (2 ^ 3 | 16)) /\
  align (align 16 (2 ^ 3)) (2 ^ 3) = align 16 (2 ^ 3).
Proof. split; [lia|]. apply (align_fixes_multiples 16 3); lia. Defined.

Lemma align_wraps_to_zero_witness :
  2 ^ 64 - 2 ^ 3 < 2 ^ 64 - 1 < 2 ^ 64 /\
  align (2 ^ 64 - 1) (2 ^ 3) = 0 /\ align (2 ^ 64 - 1) (2 ^ 3) < 2 ^ 64 - 1.
Proof. split; [lia|]. apply (align_wraps_to_zero (2 ^ 64 - 1) 3); lia. Defined.

Lemma add_block_pushes_front_witness :
  rep heap_16 [mkBlock 4096 16 true; mkBlock 4120 976 false] [4120] /\
  rep (add_block 4096 heap_16) [mkBlock 4096 16 false; mkBlock 4120 976 false]
      [4096; 4120] /\
  free_list_yields (add_block 4096 heap_16) [4096; 4120] /\
  Pointers_previous (add_block 4096 heap_16) (get_payload_ptr 4096) = NULL /\
  Pointers_next (add_block 4096 heap_16) (get_payload_ptr 4096) = 4120 /\
  (forall x, 4096 + 24 <= x < 4096 + HEADER_SIZE + 16 ->
             mem (add_block 4096 heap_16) x = mem heap_16 x).
Proof.
  split; [exact heap_16_rep|].
  exact (add_block_pushes_front heap_16 [] [mkBlock 4120 976 false] 4096 16 [4120]
           heap_16_rep).
Defined.

Lemma remove_block_unlinks_witness :
  rep heap_16_16
      [mkBlock 4096 16 true; mkBlock 4120 16 true; mkBlock 4144 952 false] [4144] /\
  rep (remove_block 4144 heap_16_16)
      [mkBlock 4096 16 true; mkBlock 4120 16 true; mkBlock 4144 952 true] [] /\
  free_list_yields (remove_block 4144 heap_16_16) [] /\
  (forall x, 4144 + HEADER_SIZE <= x < 4144 + HEADER_SIZE + 952 ->
             mem (remove_block 4144 heap_16_16) x = mem heap_16_16 x).
Proof.
  split; [exact heap_16_16_rep|].
  exact (remove_block_unlinks heap_16_16 [mkBlock 4096 16 true; mkBlock 4120 16 true] []
           4144 952 [] [] heap_16_16_rep).
Defined.

Lemma add_then_remove_block_witness :
  rep heap_16 [mkBlock 4096 16 true; mkBlock 4120 976 false] [4120] /\
  rep (remove_block 4096 (add_block 4096 heap_16))
      [mkBlock 4096 16 true; mkBlock 4120 976 false] [4120] /\
  free_list_yields (remove_block 4096 (add_block 4096 heap_16)) [4120].
Proof.
  split; [exact heap_16_rep|].
  exact (add_then_remove_block heap_16 [] [mkBlock 4120 976 false] 4096 16 [4120]
           heap_16_rep).
Defined.

Lemma mymalloc_block_witness :
  rep heap_1000 [mkBlock 4096 1000 false] [4096] /\
  mymalloc ALIGNMENT8 MAX_REQUEST_1G 4 16 heap_1000 = Some (4104, heap_16) /\
  exists L' fl' p,
    rep heap_16 L' fl' /\
    In (4104 - HEADER_SIZE) [4096] /\ ~ In (4104 - HEADER_SIZE) fl' /\
    In (mkBlock (4104 - HEADER_SIZE) p true) L' /\
    16 <= aligned_size ALIGNMENT8 16 <= p /\
    p < aligned_size ALIGNMENT8 16 + MIN_BLOCK_SIZE /\
    segment_start heap_1000 + HEADER_SIZE <= 4104 /\ 4104 + p <= segment_end heap_1000.
Proof.
  split; [exact heap_1000_rep|]. split; [exact heap_16_malloc|].
  apply (mymalloc_block ALIGNMENT8 MAX_REQUEST_1G heap_1000 [mkBlock 4096 1000 false]
           [4096] 16 4 4104 heap_16 3).
  - exact heap_1000_rep.
  - lia.
  - reflexivity.
  - unfold MAX_REQUEST_1G, ALIGNMENT8. lia.
  - lia.
  - exact heap_16_malloc.
  - unfold NULL. lia.
Defined.

Lemma mymalloc_keeps_allocated_witness :
  rep heap_48_a [mkBlock 4096 16 true; mkBlock 4120 24 false] [4120] /\
  mymalloc ALIGNMENT8 MAX_REQUEST_1G 4 16 heap_48_a = Some (4128, heap_48_ab) /\
  exists L' fl',
    rep heap_48_ab L' fl' /\
    forall d, In d [mkBlock 4096 16 true; mkBlock 4120 24 false] -> b_used d = true ->
              In d L' /\ block_kept heap_48_a heap_48_ab d.
Proof.
  split; [exact heap_48_a_rep|]. split; [reflexivity|].
  apply (mymalloc_keeps_allocated ALIGNMENT8 MAX_REQUEST_1G heap_48_a
           [mkBlock 4096 16 true; mkBlock 4120 24 false] [4120] 16 4 4128 heap_48_ab).
  - exact heap_48_a_rep.
  - reflexivity.
Defined.

Lemma mymalloc_fails_iff_no_fit_witness :
  rep heap_48_a [mkBlock 4096 16 true; mkBlock 4120 24 false] [4120] /\
  exists r st',
    mymalloc ALIGNMENT8 MAX_REQUEST_1G 4 100 heap_48_a = Some (r, st') /\
    (r = NULL <->
     forall d, In d [mkBlock 4096 16 true; mkBlock 4120 24 false] -> b_used d = false ->
               b_size d < aligned_size ALIGNMENT8 100) /\
    (r = NULL -> st' = heap_48_a).
Proof.
  split; [exact heap_48_a_rep|].
  apply (mymalloc_fails_iff_no_fit ALIGNMENT8 MAX_REQUEST_1G heap_48_a
           [mkBlock 4096 16 true; mkBlock 4120 24 false] [4120] 100 4).
  - exact heap_48_a_rep.
  - unfold MAX_REQUEST_1G. lia.
  - simpl. lia.
Defined.




Lemma myfree_releases_witness :
  rep heap_48_ab [mkBlock 4096 16 true; mkBlock 4120 24 true] [] /\
  exists st' L1 F R',
    myfree 4 (4096 + HEADER_SIZE) heap_48_ab = Some st' /\
    [mkBlock 4096 16 true; mkBlock 4120 24 true] = L1 ++ mkBlock 4096 16 true :: F ++ R' /\
    Forall (fun d => b_used d = false) F /\ stops_here R' /\
    rep st' (L1 ++ mkBlock 4096 (16 + absorbed F) false :: R') (4096 :: remove_all F []) /\
    (forall d, In d [mkBlock 4096 16 true; mkBlock 4120 24 true] -> b_used d = true ->
               b_addr d <> 4096 ->
               In d (L1 ++ mkBlock 4096 (16 + absorbed F) false :: R') /\
               block_kept heap_48_ab st' d) /\
    (forall x, 4096 + 24 <= x < 4096 + HEADER_SIZE + 16 -> mem st' x = mem heap_48_ab x).
Proof.
  split; [exact heap_48_ab_rep|].
  apply (myfree_releases heap_48_ab [mkBlock 4096 16 true; mkBlock 4120 24 true] []
           4096 16 4).
  - exact heap_48_ab_rep.
  - left. reflexivity.
  - simpl. lia.
Defined.

Lemma free_then_malloc_reuses_witness :
  rep heap_48_ab [mkBlock 4096 16 true; mkBlock 4120 24 true] [] /\
  aligned_size ALIGNMENT8 20 <= 24 /\
  exists st1 st2,
    myfree 4 (4120 + HEADER_SIZE) heap_48_ab = Some st1 /\
    mymalloc ALIGNMENT8 MAX_REQUEST_1G 4 20 st1 = Some (4120 + HEADER_SIZE, st2).
Proof.
  split; [exact heap_48_ab_rep|].
  assert (Hle : aligned_size ALIGNMENT8 20 <= 24) by (vm_compute; intros H; discriminate H).
  split; [exact Hle|].
  apply (free_then_malloc_reuses ALIGNMENT8 MAX_REQUEST_1G heap_48_ab
           [mkBlock 4096 16 true; mkBlock 4120 24 true] [] 4120 24 20 4).
  - exact heap_48_ab_rep.
  - right. left. reflexivity.
  - simpl. lia.
  - unfold MAX_REQUEST_1G. lia.
  - exact Hle.
Defined.

Lemma malloc_then_free_restores_witness :
  rep heap_1000 [mkBlock 4096 1000 false] [4096] /\
  mymalloc ALIGNMENT8 MAX_REQUEST_1G 4 16 heap_1000 = Some (4096 + HEADER_SIZE, heap_16) /\
  exists st2,
    myfree 4 (4096 + HEADER_SIZE) heap_16 = Some st2 /\
    rep st2 [mkBlock 4096 1000 false] (4096 :: remove Z.eq_dec 4096 [4096]).
Proof.
  split; [exact heap_1000_rep|]. split; [exact heap_16_malloc|].
  apply (malloc_then_free_restores ALIGNMENT8 MAX_REQUEST_1G heap_1000 [] [] [4096]
           4096 1000 16 4 heap_16).
  - exact heap_1000_rep.
  - exact I.
  - exact heap_16_malloc.
  - lia.
Defined.

Lemma double_free_self_loop_witness :
  rep heap_1000 [mkBlock 4096 1000 false] [4096] /\
  exists st',
    myfree 4 (4096 + HEADER_SIZE) heap_1000 = Some st' /\
    free_list_start st' = 4096 /\
    Pointers_next st' (get_payload_ptr 4096) = 4096 /\
    forall fuel' n, 0 < n <= MAX_REQUEST_1G -> 1000 < aligned_size ALIGNMENT8 n ->
      mymalloc ALIGNMENT8 MAX_REQUEST_1G fuel' n st' = None.
Proof.
  split; [exact heap_1000_rep|].
  apply (double_free_self_loop ALIGNMENT8 MAX_REQUEST_1G heap_1000 [] [] 4096 1000 [] 4).
  - exact heap_1000_rep.
  - exact I.
Defined.

Lemma myrealloc_grow_in_place_witness :
  rep heap_16 [mkBlock 4096 16 true; mkBlock 4120 976 false] [4120] /\
  16 < aligned_size ALIGNMENT8 100 <= 16 + absorbed [mkBlock 4120 976 false] /\
  exists st',
    myrealloc ALIGNMENT8 MAX_REQUEST_1G 4 (4096 + HEADER_SIZE) 100 heap_16 =
      Some (4096 + HEADER_SIZE, st') /\
    (if aligned_size ALIGNMENT8 100 + MIN_BLOCK_SIZE <=?
        16 + absorbed [mkBlock 4120 976 false]
     then
       rep st' (mkBlock 4096 (aligned_size ALIGNMENT8 100) true ::
                mkBlock (4096 + aligned_size ALIGNMENT8 100 + HEADER_SIZE)
                        (16 + absorbed [mkBlock 4120 976 false] -
                         aligned_size ALIGNMENT8 100 - HEADER_SIZE) false :: [])
           ((4096 + aligned_size ALIGNMENT8 100 + HEADER_SIZE) ::
            remove_all [mkBlock 4120 976 false] [4120])
     else
       rep st' (mkBlock 4096 (16 + absorbed [mkBlock 4120 976 false]) true :: [])
           (remove_all [mkBlock 4120 976 false] [4120])) /\
    (forall x, 4096 + HEADER_SIZE <= x < 4096 + HEADER_SIZE + 16 ->
               mem st' x = mem heap_16 x).
Proof.
  split; [exact heap_16_rep|].
  assert (Hb : 16 < aligned_size ALIGNMENT8 100 <= 16 + absorbed [mkBlock 4120 976 false])
    by (vm_compute; split; [reflexivity | intros H; discriminate H]).
  split; [exact Hb|].
  apply (myrealloc_grow_in_place ALIGNMENT8 MAX_REQUEST_1G heap_16 [4120] [] 4096 16
           [mkBlock 4120 976 false] [] 100 4).
  - exact heap_16_rep.
  - repeat constructor.
  - exact I.
  - lia.
  - exact Hb.
  - simpl. lia.
Defined.

Lemma heap_moved_run :
  myrealloc ALIGNMENT8 MAX_REQUEST_1G 4 4104 100 heap_16_16 = Some (4152, heap_moved).
Proof.
  assert (E : pointer_of (myrealloc ALIGNMENT8 MAX_REQUEST_1G 4 4104 100 heap_16_16) =
              Some 4152) by (vm_compute; reflexivity).
  unfold heap_moved.
  destruct (myrealloc ALIGNMENT8 MAX_REQUEST_1G 4 4104 100 heap_16_16) as [[r st']|];
    [|discriminate E].
  cbn [pointer_of option_map fst] in E. injection E as ->. reflexivity.
Qed.

Lemma myrealloc_moves_data_witness :
  rep heap_16_16
      [mkBlock 4096 16 true; mkBlock 4120 16 true; mkBlock 4144 952 false] [4144] /\
  16 + absorbed [] < aligned_size ALIGNMENT8 100 /\
  myrealloc ALIGNMENT8 MAX_REQUEST_1G 4 (4096 + HEADER_SIZE) 100 heap_16_16 =
    Some (4152, heap_moved) /\
  exists L' fl' q,
    rep heap_moved L' (4096 :: fl') /\
    4152 <> 4096 + HEADER_SIZE /\
    In (mkBlock (4152 - HEADER_SIZE) q true) L' /\ aligned_size ALIGNMENT8 100 <= q /\
    forall i, 0 <= i < 16 ->
      mem heap_moved (4152 + i) = mem heap_16_16 (4096 + HEADER_SIZE + i).
Proof.
  split; [exact heap_16_16_rep|].
  assert (Hb : 16 + absorbed [] < aligned_size ALIGNMENT8 100) by (vm_compute; reflexivity).
  split; [exact Hb|]. split; [exact heap_moved_run|].
  apply (myrealloc_moves_data ALIGNMENT8 MAX_REQUEST_1G heap_16_16 [4144] [] 4096 16 []
           [mkBlock 4120 16 true; mkBlock 4144 952 false] 100 4 4152 heap_moved).
  - exact heap_16_16_rep.
  - constructor.
  - reflexivity.
  - exact Hb.
  - exact heap_moved_run.
  - unfold NULL. lia.
Defined.

Lemma myrealloc_keeps_others_witness :
  rep heap_16_16
      [mkBlock 4096 16 true; mkBlock 4120 16 true; mkBlock 4144 952 false] [4144] /\
  myrealloc ALIGNMENT8 MAX_REQUEST_1G 4 (4096 + HEADER_SIZE) 100 heap_16_16 =
    Some (4152, heap_moved) /\
  exists L' fl',
    rep heap_moved L' fl' /\
    forall d,
      In d [mkBlock 4096 16 true; mkBlock 4120 16 true; mkBlock 4144 952 false] ->
      b_used d = true -> b_addr d <> 4096 ->
      In d L' /\ block_kept heap_16_16 heap_moved d.
Proof.
  split; [exact heap_16_16_rep|]. split; [exact heap_moved_run|].
  apply (myrealloc_keeps_others ALIGNMENT8 MAX_REQUEST_1G heap_16_16
           [mkBlock 4096 16 true; mkBlock 4120 16 true; mkBlock 4144 952 false] [4144]
           4096 16 100 4 4152 heap_moved).
  - exact heap_16_16_rep.
  - left. reflexivity.
  - exact heap_moved_run.
Defined.

Lemma myrealloc_huge_size_witness :
  rep heap_104 [mkBlock 4096 104 true; mkBlock 4208 888 false] [4208] /\
  2 ^ 64 - ALIGNMENT8 < 2 ^ 64 - 1 < 2 ^ 64 /\
  aligned_size ALIGNMENT8 (2 ^ 64 - 1) = MIN_PAYLOAD_SIZE /\
  myrealloc ALIGNMENT8 MAX_REQUEST_1G 4 (4096 + HEADER_SIZE) (2 ^ 64 - 1) heap_104 =
    Some (4096 + HEADER_SIZE,
          if MIN_PAYLOAD_SIZE + MIN_BLOCK_SIZE <=? 104
          then partition 4096 104 MIN_PAYLOAD_SIZE heap_104 else heap_104).
Proof.
  split; [exact heap_104_rep|].
  assert (Hn : 2 ^ 64 - ALIGNMENT8 < 2 ^ 64 - 1 < 2 ^ 64) by (unfold ALIGNMENT8; lia).
  split; [exact Hn|].
  apply (myrealloc_huge_size ALIGNMENT8 MAX_REQUEST_1G heap_104 []
           [mkBlock 4208 888 false] [4208] 4096 104 (2 ^ 64 - 1) 4 3).
  - exact heap_104_rep.
  - lia.
  - reflexivity.
  - exact Hn.
Defined.



Lemma validate_heap_checks_small_payload_witness :
  reachable ALIGNMENT8 MAX_REQUEST_1G 4096 12 heap_12 /\
  validate_heap_checks 1 heap_12 =
    Some (true, [Printf "Block payload size incorrect: %p\n" [4096]]).
Proof.
  split; [exact heap_12_reachable|].
  apply (validate_heap_checks_small_payload ALIGNMENT8 MAX_REQUEST_1G 4096 12 heap_12 0).
  - unfold region_ok, HEADER_SIZE. lia.
  - exact heap_12_reachable.
  - unfold MIN_PAYLOAD_SIZE. lia.
Defined.

Lemma validate_heap_checks_detect_witness :
  rep heap_16 [mkBlock 4096 16 true; mkBlock 4120 976 false] [4120] /\
  validate_heap_checks 4 (set_Header_allocated 4096 0 heap_16) =
    Some (false,
          [Printf "Allocation status incorrect or not added properly to free list: %p\n"
                  [4096]]).
Proof.
  split; [exact heap_16_rep|].
  apply (validate_heap_checks_detect heap_16 [] [mkBlock 4120 976 false] [4120] 4096 16 4).
  - exact heap_16_rep.
  - reflexivity.
  - simpl. lia.
Defined.

Lemma dump_heap_prints_witness :
  rep heap_16 [mkBlock 4096 16 true; mkBlock 4120 976 false] [4120] /\
  dump_heap 4 2 heap_16 =
    Some ((if (2 =? 0) || (2 =? 2)
           then Printf "Block by block\n" [] ::
                flat_map block_lines [mkBlock 4096 16 true; mkBlock 4120 976 false]
           else []) ++
          Printf "\n\n" [] ::
          (if (2 =? 1) || (2 =? 2)
           then Printf "Free block list\n" [] ::
                free_lines [mkBlock 4096 16 true; mkBlock 4120 976 false] NULL [4120]
           else [])).
Proof.
  split; [exact heap_16_rep|].
  apply (dump_heap_prints heap_16 [mkBlock 4096 16 true; mkBlock 4120 976 false] [4120] 4 2).
  - exact heap_16_rep.
  - simpl. lia.
Defined.

Lemma dump_heap_short_segment_witness :
  reachable ALIGNMENT8 MAX_REQUEST_1G 4096 12 heap_12 /\
  walk_yields heap_12 [mkBlock 4096 (12 - HEADER_SIZE) false] /\
  dump_heap 4 0 heap_12 = Some [Printf "Block by block\n" []; Printf "\n\n" []].
Proof.
  split; [exact heap_12_reachable|].
  apply (dump_heap_short_segment ALIGNMENT8 MAX_REQUEST_1G 4096 12 heap_12 4).
  - unfold region_ok, HEADER_SIZE. lia.
  - exact heap_12_reachable.
  - unfold MIN_BLOCK_SIZE. lia.
  - unfold MIN_BLOCK_SIZE. lia.
Defined.

Lemma free_descending_merges_all_witness :
  rep heap_48_ab [mkBlock 4096 16 true; mkBlock 4120 24 true] [] /\
  exists st',
    free_all 4 (payload_ptrs (rev [mkBlock 4096 16 true; mkBlock 4120 24 true]))
      heap_48_ab = Some st' /\
    rep st' [mkBlock (segment_start heap_48_ab)
                     (segment_end heap_48_ab - segment_start heap_48_ab - HEADER_SIZE)
                     false]
        [segment_start heap_48_ab].
Proof.
  split; [exact heap_48_ab_rep|].
  apply (free_descending_merges_all heap_48_ab
           [mkBlock 4096 16 true; mkBlock 4120 24 true] 4).
  - exact heap_48_ab_rep.
  - discriminate.
  - lia.
Defined.

Lemma free_ascending_merges_nothing_witness :
  rep heap_48_ab [mkBlock 4096 16 true; mkBlock 4120 24 true] [] /\
  exists st',
    free_all 4 (payload_ptrs [mkBlock 4096 16 true; mkBlock 4120 24 true]) heap_48_ab =
      Some st' /\
    rep st' (map released [mkBlock 4096 16 true; mkBlock 4120 24 true])
        (rev (map b_addr [mkBlock 4096 16 true; mkBlock 4120 24 true])).
Proof.
  split; [exact heap_48_ab_rep|].
  exact (free_ascending_merges_nothing heap_48_ab
           [mkBlock 4096 16 true; mkBlock 4120 24 true] 4 heap_48_ab_rep).
Defined.

Lemma myinit_payload_field_witness :
  HEADER_SIZE < 4294967328 < 2 ^ 64 /\
  fst (myinit 4096 4294967328 ff_heap) = true /\
  segment_end heap_4g = 4096 + 4294967328 /\
  Header_payload heap_4g 4096 = (4294967328 - HEADER_SIZE) mod 2 ^ 32 /\
  Header_allocated heap_4g 4096 = 0 /\
  (2 ^ 32 <= 4294967328 - HEADER_SIZE ->
   4096 + HEADER_SIZE + Header_payload heap_4g 4096 < segment_end heap_4g).
Proof.
  assert (Hs : HEADER_SIZE < 4294967328 < 2 ^ 64) by (unfold HEADER_SIZE; lia).
  split; [exact Hs|].
  exact (myinit_payload_field 4096 4294967328 ff_heap Hs).
Defined.
